(** * IP2Location API: the range-lookup core of [src/api/src/lib/database.ts]

    A shallow embedding of the address codec ([ipToPaddedDecimal] and its
    helpers), of the predecessor query that [lookupIP] sends to the
    database, of the batch operation [lookupIPs], and of the error
    classification done by the [/ip/:ip] route handler.

    JavaScript strings are modelled as [string]: sequences of code units
    below 256.  JavaScript numbers and bigints that the code manipulates
    are integers, modelled as [Z]; the 32-bit wrap-around of [<<] is
    written out. *)

From Stdlib Require Import ZArith List Bool Ascii String Lia.
Import ListNotations.

Local Open Scope string_scope.
Local Open Scope Z_scope.

(** ** Errors raised by the code and by the runtime *)

Record JsError : Type := mkError { name : string; message : string }.

Definition result (A : Type) : Type := (JsError + A)%type.
Definition throw {A : Type} (e : JsError) : result A := inl e.
Definition ret {A : Type} (a : A) : result A := inr a.
Definition bind {A B : Type} (m : result A) (k : A -> result B) : result B :=
  match m with
  | inl e => inl e
  | inr a => k a
  end.

Notation "x <- m ;; k" := (bind m (fun x => k))
  (at level 61, m at next level, right associativity).

(** ** The JavaScript primitives the codec uses *)

Module JS.

Definition code (c : ascii) : Z := Z.of_N (N_of_ascii c).

Definition is_digit (c : ascii) : bool :=
  (48 <=? code c) && (code c <=? 57).

Definition is_hex_digit (c : ascii) : bool :=
  is_digit c
  || ((97 <=? code c) && (code c <=? 102))
  || ((65 <=? code c) && (code c <=? 70)).

(** WhiteSpace and LineTerminator code units below 256. *)
Definition is_white_space (c : ascii) : bool :=
  ((9 <=? code c) && (code c <=? 13)) || (code c =? 32) || (code c =? 160).

Definition digit_value (c : ascii) : Z := code c - 48.

Definition hex_value (c : ascii) : Z :=
  if is_digit c then code c - 48
  else if (97 <=? code c) && (code c <=? 102) then code c - 87
  else code c - 55.

Definition digit_char (d : Z) : ascii := ascii_of_N (Z.to_N (48 + d)).

(** [s.includes(sub)] *)
Fixpoint includes (s sub : string) : bool :=
  prefix sub s
  || match s with
     | EmptyString => false
     | String _ s' => includes s' sub
     end.

(** [s.split(sep)] for a non-empty separator: the pieces between the
    leftmost non-overlapping occurrences of [sep].  [skip] counts the code
    units of an occurrence that are still to be passed over. *)
Fixpoint split_from (sep : string) (skip : nat) (cur s : string) : list string :=
  match s with
  | EmptyString => [cur]
  | String c s' =>
      match skip with
      | S k => split_from sep k cur s'
      | O =>
          if prefix sep s
          then cur :: split_from sep (String.length sep - 1) "" s'
          else split_from sep O (cur ++ String c "") s'
      end
  end.

Definition split (s sep : string) : list string := split_from sep 0 "" s.

(** [parts.join(sep)] *)
Definition join (parts : list string) (sep : string) : string :=
  String.concat sep parts.

(** The first [n] code units of [fill] repeated for ever. *)
Fixpoint repeat_to (fill cur : string) (n : nat) : string :=
  match n with
  | O => ""
  | S k =>
      match cur with
      | String c rest => String c (repeat_to fill rest k)
      | EmptyString =>
          match fill with
          | String c rest => String c (repeat_to fill rest k)
          | EmptyString => ""
          end
      end
  end.

(** [s.padStart(targetLength, fill)] *)
Definition padStart (s : string) (targetLength : nat) (fill : string) : string :=
  if (targetLength <=? String.length s)%nat then s
  else if (fill =? "")%string then s
  else repeat_to fill fill (targetLength - String.length s) ++ s.

Fixpoint trimStart (s : string) : string :=
  match s with
  | String c s' => if is_white_space c then trimStart s' else s
  | EmptyString => ""
  end.

Fixpoint trimEnd (s : string) : string :=
  match s with
  | String c s' =>
      let t := trimEnd s' in
      if is_white_space c && (t =? "")%string then "" else String c t
  | EmptyString => ""
  end.

(** [s.trim()] *)
Definition trim (s : string) : string := trimEnd (trimStart s).

Fixpoint all_chars (p : ascii -> bool) (s : string) : bool :=
  match s with
  | EmptyString => true
  | String c s' => p c && all_chars p s'
  end.

Fixpoint decimal_value (acc : Z) (s : string) : Z :=
  match s with
  | EmptyString => acc
  | String c s' => decimal_value (acc * 10 + digit_value c) s'
  end.

Fixpoint hexadecimal_value (acc : Z) (s : string) : Z :=
  match s with
  | EmptyString => acc
  | String c s' => hexadecimal_value (acc * 16 + hex_value c) s'
  end.

(** A JavaScript number as the codec sees it: an integer, or NaN. *)
Inductive number : Type :=
| Int : Z -> number
| NaN : number.

(** [Number(s)] on the strings the code applies it to: a non-empty run of
    decimal digits denotes its decimal value (a leading zero does not make
    it octal).  Every other string is taken to NaN; [isIPv4] calls
    [Number] only behind its regular expression, so that case is never
    reached (lemma [Number_digits]). *)
Definition Number (s : string) : number :=
  match s with
  | EmptyString => NaN
  | _ => if all_chars is_digit s then Int (decimal_value 0 s) else NaN
  end.

(** [x < y], [x > y], [x >= y], [x <= y]: false when an operand is NaN. *)
Definition num_cmp (op : Z -> Z -> bool) (x y : number) : bool :=
  match x, y with
  | Int a, Int b => op a b
  | _, _ => false
  end.

(** [x + y] on integers below 2^53 in absolute value. *)
Definition num_add (x y : number) : number :=
  match x, y with
  | Int a, Int b => Int (a + b)
  | _, _ => NaN
  end.

(** [parts[i]]; an index out of range gives [undefined], which behaves as
    NaN in [<<], [+] and the comparisons. *)
Definition at_index (parts : list number) (i : nat) : number := nth i parts NaN.

(** [BigInt('0x' + part)].  StringToBigInt accepts [0x] followed by one or
    more hexadecimal digits, then optional white space; anything else is a
    SyntaxError, whose message is the one of V8 (the image runs Node 22). *)
Definition BigInt_0x (part : string) : result Z :=
  let digits := trimEnd part in
  match digits with
  | EmptyString =>
      throw (mkError "SyntaxError" ("Cannot convert 0x" ++ part ++ " to a BigInt"))
  | _ =>
      if all_chars is_hex_digit digits
      then ret (hexadecimal_value 0 digits)
      else throw (mkError "SyntaxError" ("Cannot convert 0x" ++ part ++ " to a BigInt"))
  end.

(** ToInt32 *)
Definition to_int32 (z : Z) : Z := (z + 2 ^ 31) mod 2 ^ 32 - 2 ^ 31.

(** [x << n] *)
Definition shl (x n : Z) : Z := to_int32 (Z.shiftl (to_int32 x) (Z.land n 31)).

(** The decimal digits of a non-negative integer, most significant first. *)
Fixpoint digits_of (fuel : nat) (n : Z) (acc : string) : string :=
  match fuel with
  | O => acc
  | S f =>
      let acc' := String (digit_char (n mod 10)) acc in
      if n / 10 =? 0 then acc' else digits_of f (n / 10) acc'
  end.

(** [n.toString()] for an integer number below 1e21 and for a bigint. *)
Definition toString (n : Z) : string :=
  if n <? 0
  then String "-" (digits_of (S (Z.to_nat (Z.log2 (- n)))) (- n) "")
  else digits_of (S (Z.to_nat (Z.log2 n))) n "".

(** [x << n] on numbers: ToInt32 takes NaN to 0. *)
Definition num_shl (x : number) (n : Z) : number :=
  match x with
  | Int a => Int (shl a n)
  | NaN => Int (shl 0 n)
  end.

Definition num_toString (x : number) : string :=
  match x with
  | Int a => toString a
  | NaN => "NaN"
  end.

(** [Array(n)]: a RangeError for a negative length. *)
Definition Array_fill {A : Type} (n : Z) (x : A) : result (list A) :=
  if n <? 0 then throw (mkError "RangeError" "Invalid array length")
  else ret (repeat x (Z.to_nat n)).

End JS.

(** ** Regular expressions, matched by derivatives *)

Module Regex.

Inductive regex : Type :=
| Void : regex
| Eps : regex
| Cls : (ascii -> bool) -> regex
| Seq : regex -> regex -> regex
| Alt : regex -> regex -> regex.

Definition Chr (c : ascii) : regex := Cls (Ascii.eqb c).

(** [r{n}] *)
Fixpoint exactly (n : nat) (r : regex) : regex :=
  match n with
  | O => Eps
  | S k => Seq r (exactly k r)
  end.

(** [r{0,n}] *)
Fixpoint at_most (n : nat) (r : regex) : regex :=
  match n with
  | O => Eps
  | S k => Alt Eps (Seq r (at_most k r))
  end.

(** [r{lo,hi}] *)
Definition Rep (lo hi : nat) (r : regex) : regex :=
  Seq (exactly lo r) (at_most (hi - lo) r).

Fixpoint nullable (r : regex) : bool :=
  match r with
  | Void => false
  | Eps => true
  | Cls _ => false
  | Seq r1 r2 => nullable r1 && nullable r2
  | Alt r1 r2 => nullable r1 || nullable r2
  end.

Fixpoint deriv (c : ascii) (r : regex) : regex :=
  match r with
  | Void => Void
  | Eps => Void
  | Cls p => if p c then Eps else Void
  | Seq r1 r2 =>
      if nullable r1
      then Alt (Seq (deriv c r1) r2) (deriv c r2)
      else Seq (deriv c r1) r2
  | Alt r1 r2 => Alt (deriv c r1) (deriv c r2)
  end.

(** [/^r$/.test(s)]: the whole of [s] is matched by [r]. *)
Fixpoint test (r : regex) (s : string) : bool :=
  match s with
  | EmptyString => nullable r
  | String c s' => test (deriv c r) s'
  end.

(** The language of a regular expression. *)
Inductive Matches : regex -> string -> Prop :=
| MEps : Matches Eps ""
| MCls p c : p c = true -> Matches (Cls p) (String c "")
| MSeq r1 r2 s1 s2 : Matches r1 s1 -> Matches r2 s2 -> Matches (Seq r1 r2) (s1 ++ s2)
| MAltL r1 r2 s : Matches r1 s -> Matches (Alt r1 r2) s
| MAltR r1 r2 s : Matches r2 s -> Matches (Alt r1 r2) s.

End Regex.

Import JS Regex.

(** ** The address codec *)

(** [/^(\d{1,3}\.){3}\d{1,3}$/] *)
Definition ipv4Regex : regex :=
  Seq (exactly 3 (Seq (Rep 1 3 (Cls is_digit)) (Chr ".")))
      (Rep 1 3 (Cls is_digit)).

(** [/^([0-9a-fA-F]{1,4}:){7}[0-9a-fA-F]{1,4}$|^::1$|^::$/] *)
Definition ipv6Regex : regex :=
  Alt (Seq (exactly 7 (Seq (Rep 1 4 (Cls is_hex_digit)) (Chr ":")))
           (Rep 1 4 (Cls is_hex_digit)))
      (Alt (Seq (Chr ":") (Seq (Chr ":") (Chr "1")))
           (Seq (Chr ":") (Chr ":"))).

Definition in_octet_range (part : number) : bool :=
  num_cmp Z.geb part (Int 0) && num_cmp Z.leb part (Int 255).

Definition out_of_octet_range (part : number) : bool :=
  num_cmp Z.ltb part (Int 0) || num_cmp Z.gtb part (Int 255).

Definition isIPv4 (ip : string) : bool :=
  if negb (test ipv4Regex ip) then false
  else
    let parts := map Number (split ip ".") in
    (List.length parts =? 4)%nat && forallb in_octet_range parts.

Definition isIPv6 (ip : string) : bool :=
  test ipv6Regex ip || includes ip ":".

(** Expand [::] and pad with zeros. *)
Definition normalizeIPv6 (ip : string) : result string :=
  if includes ip "::" then
    let parts := split ip "::" in
    let leftParts :=
      match nth_error parts 0 with
      | Some (String c p) => split (String c p) ":"
      | _ => []
      end in
    let rightParts :=
      match nth_error parts 1 with
      | Some (String c p) => split (String c p) ":"
      | _ => []
      end in
    let missingZeros :=
      8 - Z.of_nat (List.length leftParts) - Z.of_nat (List.length rightParts) in
    zeros <- Array_fill missingZeros "0000" ;;
    ret (join (leftParts ++ zeros ++ rightParts) ":")
  else
    ret (join (map (fun part => padStart part 4 "0") (split ip ":")) ":").

(** The general path of [ipv6ToDecimal], below its special cases:
    normalize, split into groups, and accumulate them in base 65536. *)
Definition sum_of_groups (ip : string) : result Z :=
  normalized <- normalizeIPv6 ip ;;
  let parts := split normalized ":" in
  fold_left
    (fun (acc : result Z) (part : string) =>
       result <- acc ;;
       group <- BigInt_0x part ;;
       ret (result * 65536 + group))
    parts (ret 0).

Definition ipv6ToDecimal (ip : string) : result Z :=
  if (ip =? "::1")%string then ret 281470681743359
  else if (ip =? "::")%string then ret 0
  else sum_of_groups ip.

(** Convert an IPv4 or IPv6 address to the 39-character padded decimal. *)
Definition ipToPaddedDecimal (ip : string) : result string :=
  if isIPv4 ip then
    let parts := map Number (split ip ".") in
    if negb (List.length parts =? 4)%nat || existsb out_of_octet_range parts
    then throw (mkError "Error" "Invalid IPv4 address")
    else
      let decimal :=
        num_add (num_add (num_add (num_shl (at_index parts 0) 24)
                                  (num_shl (at_index parts 1) 16))
                         (num_shl (at_index parts 2) 8))
                (at_index parts 3) in
      ret (padStart (num_toString decimal) 39 "0")
  else if isIPv6 ip then
    decimal <- ipv6ToDecimal ip ;;
    ret (padStart (toString decimal) 39 "0")
  else throw (mkError "Error" "Invalid IP address format").

(** ** The range table and the lookup *)

(** A row of [ip2location_db11_ipv6]; latitude and longitude are REAL
    columns that the code only passes through, kept as their decimal text. *)
Module DbRow.
Record t : Type := mk {
  ip_from_dec : string;
  ip_to_dec : string;
  ip_from_padded : string;
  ip_to_padded : string;
  country_code : option string;
  country_name : option string;
  region_name : option string;
  city_name : option string;
  latitude : option string;
  longitude : option string;
  zip_code : option string;
  time_zone : option string
}.
End DbRow.

Record IPGeolocationResult : Type := mkResult {
  ip_from_dec : string;
  ip_to_dec : string;
  country_code : option string;
  country_name : option string;
  region_name : option string;
  city_name : option string;
  latitude : option string;
  longitude : option string;
  zip_code : option string;
  time_zone : option string
}.

(** The fragment of SQL that the lookup statement uses, over TEXT values
    compared code unit by code unit (the BINARY collation). *)
Module SQL.

Definition le (a b : string) : bool := String.leb a b.

Fixpoint insert_desc (key : DbRow.t -> string) (r : DbRow.t) (sorted : list DbRow.t)
  : list DbRow.t :=
  match sorted with
  | [] => [r]
  | x :: rest =>
      if le (key x) (key r) then r :: x :: rest
      else x :: insert_desc key r rest
  end.

(** [ORDER BY key DESC] *)
Definition order_by_desc (key : DbRow.t -> string) (rows : list DbRow.t) : list DbRow.t :=
  fold_right (insert_desc key) [] rows.

(** [LIMIT n] *)
Definition limit (n : nat) (rows : list DbRow.t) : list DbRow.t := firstn n rows.

(** [WHERE cond] *)
Definition where_ (cond : DbRow.t -> bool) (rows : list DbRow.t) : list DbRow.t :=
  filter cond rows.

(** The first row of a result has the greatest key. *)
Definition head_is_greatest (key : DbRow.t -> string) (rows : list DbRow.t) : Prop :=
  match rows with
  | [] => True
  | h :: _ => forall x, In x rows -> le (key x) (key h) = true
  end.

End SQL.

(** The statement of [lookupIP], with its two arguments:
    WITH cand AS (SELECT * FROM ip2location_db11_ipv6
                  WHERE ip_from_padded <= ?
                  ORDER BY ip_from_padded DESC LIMIT 1)
    SELECT * FROM cand WHERE ip_to_padded >= ? *)
Definition lookup_statement (table : list DbRow.t) (arg1 arg2 : string) : list DbRow.t :=
  let cand :=
    SQL.limit 1
      (SQL.order_by_desc DbRow.ip_from_padded
         (SQL.where_ (fun r => SQL.le (DbRow.ip_from_padded r) arg1) table)) in
  SQL.where_ (fun r => SQL.le arg2 (DbRow.ip_to_padded r)) cand.

(** The database file behind a url: the range table; or a file that can
    be opened but on which the driver rejects every statement with an
    error; or a path that cannot be opened, for which [createClient]
    itself throws. *)
Inductive DbFile : Type :=
| Table : list DbRow.t -> DbFile
| Unavailable : JsError -> DbFile
| Unopenable : JsError -> DbFile.

Record Client : Type := mkClient { url : string }.

Inductive LogEntry : Type :=
| LogInfo : string -> LogEntry
| LogError : string -> LogEntry.

(** What the module reads and writes: the lazily created [client], the
    environment variable, the files and the logger's output. *)
Record World : Type := mkWorld {
  client : option Client;
  DATABASE_PATH : option string;
  files : string -> DbFile;
  log : list LogEntry
}.

Definition with_log (w : World) (e : LogEntry) : World :=
  mkWorld (client w) (DATABASE_PATH w) (files w) (log w ++ [e]).

(** [process.env.DATABASE_PATH || './data/primary.db'] *)
Definition dbPath (w : World) : string :=
  match DATABASE_PATH w with
  | Some (String a p) => String a p
  | _ => "./data/primary.db"
  end.

(** [createClient({ url })]: throws when the path cannot be opened. *)
Definition createClient (w : World) (url : string) : result Client :=
  match files w url with
  | Unopenable e => throw e
  | _ => ret (mkClient url)
  end.

(** [getDatabase]: when [createClient] throws, no client is stored and
    nothing is logged, so that the next call tries again. *)
Definition getDatabase (w : World) : result Client * World :=
  match client w with
  | Some c => (ret c, w)
  | None =>
      match createClient w ("file:" ++ dbPath w) with
      | inl e => (inl e, w)
      | inr c =>
          (inr c,
           with_log (mkWorld (Some c) (DATABASE_PATH w) (files w) (log w))
                    (LogInfo "Database client initialized"))
      end
  end.

(** The url of the database that a lookup started in state [w] uses: the
    one of the client when there is one, else the one [getDatabase] makes
    a client for. *)
Definition database_url (w : World) : string :=
  match client w with
  | Some c => url c
  | None => "file:" ++ dbPath w
  end.

(** [db.execute] of the lookup statement. *)
Definition execute (db : Client) (w : World) (arg1 arg2 : string)
  : result (list DbRow.t) :=
  match files w (url db) with
  | Table table => ret (lookup_statement table arg1 arg2)
  | Unavailable e => throw e
  | Unopenable e => throw e
  end.

Definition project (row : DbRow.t) : IPGeolocationResult :=
  {| ip_from_dec := DbRow.ip_from_dec row;
     ip_to_dec := DbRow.ip_to_dec row;
     country_code := DbRow.country_code row;
     country_name := DbRow.country_name row;
     region_name := DbRow.region_name row;
     city_name := DbRow.city_name row;
     latitude := DbRow.latitude row;
     longitude := DbRow.longitude row;
     zip_code := DbRow.zip_code row;
     time_zone := DbRow.time_zone row |}.

(** A settled promise. *)
Inductive Settled (A : Type) : Type :=
| Fulfilled : A -> Settled A
| Rejected : JsError -> Settled A.
Arguments Fulfilled {A} _.
Arguments Rejected {A} _.

(** [lookupIP]: [None] is JavaScript's [null].  The [catch] logs and
    throws the error again. *)
Definition lookupIP (ip : string) (w : World)
  : Settled (option IPGeolocationResult) * World :=
  match ipToPaddedDecimal ip with
  | inl error =>
      (Rejected error, with_log w (LogError "Error looking up IP geolocation"))
  | inr paddedDecimal =>
      match getDatabase w with
      | (inl error, w1) =>
          (Rejected error, with_log w1 (LogError "Error looking up IP geolocation"))
      | (inr db, w1) =>
          match execute db w1 paddedDecimal paddedDecimal with
          | inl error =>
              (Rejected error,
               with_log w1 (LogError "Error looking up IP geolocation"))
          | inr rows =>
              match rows with
              | [] => (Fulfilled None, w1)
              | row :: _ => (Fulfilled (Some (project row)), w1)
              end
          end
      end
  end.

(** [ips.map(ip => lookupIP(ip))], the calls made in order. *)
Fixpoint lookup_each (ips : list string) (w : World)
  : list (Settled (option IPGeolocationResult)) * World :=
  match ips with
  | [] => ([], w)
  | ip :: rest =>
      let (r, w1) := lookupIP ip w in
      let (rs, w2) := lookup_each rest w1 in
      (r :: rs, w2)
  end.

(** [lookupIPs]: [Promise.allSettled], then
    [result.status === 'fulfilled' ? result.value : null]. *)
Definition lookupIPs (ips : list string) (w : World)
  : list (option IPGeolocationResult) * World :=
  let (results, w') := lookup_each ips w in
  (map (fun r => match r with
                 | Fulfilled value => value
                 | Rejected _ => None
                 end) results,
   w').

(** ** The [/ip/:ip] route *)

Record HTTPException : Type := mkHTTP {
  className : string;
  status : Z;
  http_message : string;
  cause : string;
  errorCode : string
}.

Definition InvalidIPAddress : HTTPException :=
  mkHTTP "InvalidIPAddress" 400 "Invalid IP address" "Invalid IP address format"
         "INVALID_IP_ADDRESS".

Definition IPNotFound : HTTPException :=
  mkHTTP "IPNotFound" 404 "IP address not found"
         "No geolocation data available for this IP address" "IP_NOT_FOUND".

Definition errorClasses : list string :=
  ["APIKeyNotFound"; "APISecretNotFound"; "APIKeyInvalid"; "APISecretInvalid";
   "PathNotFound"; "ValidationError"; "InvalidIPAddress"; "IPNotFound"].

(** The options object passed to the constructor of an exception class:
    its properties in order.  A property whose value is [undefined] is
    left out, as it is in the JSON of the reply. *)
Definition Options : Type := list (string * string).

(** The value of a property of an options object; the last one counts. *)
Fixpoint option_value (options : Options) (key : string) : option string :=
  match options with
  | [] => None
  | (k, v) :: rest =>
      match option_value rest key with
      | Some later => Some later
      | None => if (k =? key)%string then Some v else None
      end
  end.

(** A thrown value: an instance of an HTTPException class of [handlers],
    made with its options, or another Error.  The message of the instance
    is the one of its class. *)
Inductive Thrown : Type :=
| Http : HTTPException -> Options -> Thrown
| Js : JsError -> Thrown.

Definition thrown_message (t : Thrown) : string :=
  match t with
  | Http h _ => http_message h
  | Js e => message e
  end.

(** A reply: the data of a success, or the status of a failure with the
    [message] and the [errorCode] of its JSON body and the properties that
    the options add to the body ([cause], fixed by the class, is left
    out). *)
Inductive Response : Type :=
| Success : string -> IPGeolocationResult -> Response
| Failure : Z -> string -> string -> Options -> Response.

(** The body [{ message, cause, errorCode, ...options }] of an exception:
    the options override the properties of the class and add theirs. *)
Definition body_property (options : Options) (key fixed : string) : string :=
  match option_value options key with
  | Some v => v
  | None => fixed
  end.

Definition added_properties (options : Options) : Options :=
  filter (fun kv => negb ((fst kv =? "message")%string
                          || (fst kv =? "cause")%string
                          || (fst kv =? "errorCode")%string)) options.

(** The [catch] of the single-address handlers. *)
Definition classify (trimmedIP : string) (error : Thrown) : Thrown :=
  if includes (thrown_message error) "Invalid IP address"
  then Http InvalidIPAddress [("ip", trimmedIP); ("error", thrown_message error)]
  else error.

(** [app.get('/ip/:ip', ...)] *)
Definition get_ip (ip : option string) (w : World) : (Thrown + Response) * World :=
  match ip with
  | None =>
      (inl (Http InvalidIPAddress [("message", "IP address is required")]), w)
  | Some ip =>
      if (ip =? "")%string || (trim ip =? "")%string
      then (inl (Http InvalidIPAddress
                   [("ip", ip); ("message", "IP address is required")]), w)
      else
        let trimmedIP := trim ip in
        if (45 <? String.length trimmedIP)%nat
        then (inl (Http InvalidIPAddress
                     [("ip", trimmedIP); ("message", "IP address too long")]), w)
        else
          match lookupIP trimmedIP w with
          | (Fulfilled None, w1) =>
              (inl (classify trimmedIP (Http IPNotFound [("ip", trimmedIP)])), w1)
          | (Fulfilled (Some result), w1) =>
              (inr (Success trimmedIP result),
               with_log w1 (LogInfo "IP geolocation lookup successful"))
          | (Rejected error, w1) => (inl (classify trimmedIP (Js error)), w1)
          end
  end.

(** [server.onError] *)
Definition onError (err : Thrown) : Response :=
  match err with
  | Http h options =>
      if existsb (String.eqb (className h)) errorClasses
      then Failure (status h)
                   (body_property options "message" (http_message h))
                   (body_property options "errorCode" (errorCode h))
                   (added_properties options)
      else Failure 500 "Internal Server Error" "INTERNAL_ERROR" []
  | Js _ => Failure 500 "Internal Server Error" "INTERNAL_ERROR" []
  end.

Definition ip_route (ip : option string) (w : World) : Response * World :=
  match get_ip ip w with
  | (inl err, w') => (onError err, with_log w' (LogError (thrown_message err)))
  | (inr response, w') => (response, w')
  end.

(** ** The other routes *)

Definition ValidationError : HTTPException :=
  mkHTTP "ValidationError" 422 "Validation error" "Validation error"
         "VALIDATION_ERROR".

(** [app.get('/lookup', ...)]: the address comes from the query string; a
    missing or blank one is a validation error, the rest is as in
    [/ip/:ip]. *)
Definition get_lookup (ip : option string) (w : World) : (Thrown + Response) * World :=
  match ip with
  | None =>
      (inl (Http ValidationError [("message", "ip query parameter is required")]),
       w)
  | Some ip =>
      if (ip =? "")%string || (trim ip =? "")%string
      then (inl (Http ValidationError
                   [("message", "ip query parameter is required")]), w)
      else
        let trimmedIP := trim ip in
        if (45 <? String.length trimmedIP)%nat
        then (inl (Http InvalidIPAddress
                     [("ip", trimmedIP); ("message", "IP address too long")]), w)
        else
          match lookupIP trimmedIP w with
          | (Fulfilled None, w1) =>
              (inl (classify trimmedIP (Http IPNotFound [("ip", trimmedIP)])), w1)
          | (Fulfilled (Some result), w1) =>
              (inr (Success trimmedIP result),
               with_log w1 (LogInfo "IP geolocation lookup successful"))
          | (Rejected error, w1) => (inl (classify trimmedIP (Js error)), w1)
          end
  end.

(** A parsed JSON value; numbers are never inspected by the code. *)
#[warnings="-register-all"]
Inductive Json : Type :=
| JNull : Json
| JBool : bool -> Json
| JNumber : Z -> Json
| JString : string -> Json
| JArray : list Json -> Json
| JObject : list (string * Json) -> Json.

(** [obj.key] on the fields of a parsed object: with a repeated key the
    last one counts; [None] is [undefined]. *)
Fixpoint property (fields : list (string * Json)) (key : string) : option Json :=
  match fields with
  | [] => None
  | (k, v) :: rest =>
      match property rest key with
      | Some later => Some later
      | None => if (k =? key)%string then Some v else None
      end
  end.

(** The callback of [ips.map] in the batch route: trim, then refuse what
    is longer than 45.  An item that is not a string has no [trim]. *)
Definition valid_ip (ip : Json) : Thrown + string :=
  match ip with
  | JString s =>
      let trimmed := trim s in
      if (45 <? String.length trimmed)%nat
      then inl (Http InvalidIPAddress
                  [("ip", trimmed); ("message", "IP address too long")])
      else inr trimmed
  | JNull =>
      inl (Js (mkError "TypeError" "Cannot read properties of null (reading 'trim')"))
  | _ => inl (Js (mkError "TypeError" "ip.trim is not a function"))
  end.

(** [ips.map(...)]: the items in order, up to the first that throws. *)
Fixpoint valid_ips (ips : list Json) : Thrown + list string :=
  match ips with
  | [] => inr []
  | ip :: rest =>
      match valid_ip ip with
      | inl err => inl err
      | inr trimmed =>
          match valid_ips rest with
          | inl err => inl err
          | inr others => inr (trimmed :: others)
          end
      end
  end.

(** [app.post('/ip/batch', ...)].  [body] is the parsed request body,
    [None] when the text is not JSON.  The [catch] turns a SyntaxError into
    a validation error and throws everything else again. *)
Definition post_batch (body : option Json) (w : World)
  : (Thrown + list (string * option IPGeolocationResult)) * World :=
  match body with
  | None =>
      (inl (Http ValidationError [("message", "Invalid JSON in request body")]), w)
  | Some JNull =>
      (inl (Js (mkError "TypeError"
                  "Cannot destructure property 'ips' of 'body' as it is null.")),
       w)
  | Some body =>
      let ips :=
        match body with
        | JObject fields => property fields "ips"
        | _ => None
        end in
      match ips with
      | Some (JArray ips) =>
          if (List.length ips =? 0)%nat
          then (inl (Http ValidationError
                       [("message", "ips must be a non-empty array")]), w)
          else if (100 <? List.length ips)%nat
          then (inl (Http ValidationError
                       [("message", "Maximum 100 IPs allowed per batch request")]),
                w)
          else
            match valid_ips ips with
            | inl err => (inl err, w)
            | inr validIPs =>
                let (results, w1) := lookupIPs validIPs w in
                (inr (combine validIPs results),
                 with_log w1 (LogInfo "Batch IP geolocation lookup completed"))
            end
      | _ =>
          (inl (Http ValidationError [("message", "ips must be a non-empty array")]),
           w)
      end
  end.

(** ** The credentials check *)

Definition APIKeyNotFound : HTTPException :=
  mkHTTP "APIKeyNotFound" 401 "Unauthorized" "Unauthorized" "API_KEY_NOT_FOUND".
Definition APISecretNotFound : HTTPException :=
  mkHTTP "APISecretNotFound" 401 "Unauthorized" "Unauthorized" "API_SECRET_NOT_FOUND".
Definition APIKeyInvalid : HTTPException :=
  mkHTTP "APIKeyInvalid" 401 "Unauthorized" "Unauthorized" "API_KEY_INVALID".
Definition APISecretInvalid : HTTPException :=
  mkHTTP "APISecretInvalid" 401 "Unauthorized" "Unauthorized" "API_SECRET_INVALID".

Record Env : Type := mkEnv { API_KEY : string; API_SECRET : string }.

Record Credentials : Type := mkCredentials {
  apiKey : option string;
  apiSecret : option string
}.

(** [value || undefined]: an empty string counts as absent. *)
Definition or_undefined (value : option string) : option string :=
  match value with
  | Some (String c s) => Some (String c s)
  | _ => None
  end.

(** [extractAPIKeyAndSecret], from the two request headers. *)
Definition extractAPIKeyAndSecret (x_api_key x_api_secret : option string)
  : Credentials :=
  mkCredentials (or_undefined x_api_key) (or_undefined x_api_secret).

(** [validateAPICredentials]: [None] when [next()] is reached. *)
Definition validateAPICredentials (env : Env) (req : Credentials)
  : option HTTPException :=
  match or_undefined (apiKey req) with
  | None => Some APIKeyNotFound
  | Some key =>
      match or_undefined (apiSecret req) with
      | None => Some APISecretNotFound
      | Some secret =>
          if negb (key =? API_KEY env)%string then Some APIKeyInvalid
          else if negb (secret =? API_SECRET env)%string then Some APISecretInvalid
          else None
      end
  end.

(** ** The loader's padded columns *)

Module Loader.

(** The 39 zeros of the script. *)
Definition ZEROS : string := "000000000000000000000000000000000000000".

(** SQLite's [substr(X, Y, Z)] for [Z >= 0], on text of one-byte
    characters: a negative [Y] counts from the right. *)
Definition substr (x : string) (y z : Z) : string :=
  let len := Z.of_nat (String.length x) in
  let '(p1, p2) :=
    if y <? 0 then
      if len + y <? 0 then (0, Z.max 0 (z + (len + y))) else (len + y, z)
    else if 0 <? y then (y - 1, z)
    else (0, Z.max 0 (z - 1)) in
  String.substring (Z.to_nat p1) (Z.to_nat p2) x.

(** [substr('${ZEROS}' || c, -39, 39)], the expression that fills
    [ip_from_padded] and [ip_to_padded]. *)
Definition padded (c : string) : string := substr (ZEROS ++ c) (-39) 39.

End Loader.

(** ** The specification's reading of the codec *)

Module Spec.

(** value = a*2^24 + b*2^16 + c*2^8 + d *)
Definition ipv4_value (a b c d : Z) : Z :=
  a * 2 ^ 24 + b * 2 ^ 16 + c * 2 ^ 8 + d.

(** value = the sum of group_i * 65536^(7-i) over the eight groups *)
Definition ipv6_value (groups : list Z) : Z :=
  fold_left (fun acc g => acc * 65536 + g) groups 0.

(** The [w]-digit zero-left-padded decimal rendering of a value. *)
Fixpoint fixed_width (w : nat) (v : Z) : string :=
  match w with
  | O => ""
  | S k => fixed_width k (v / 10) ++ String (digit_char (v mod 10)) ""
  end.

(** CanonicalKey: the 39-digit zero-left-padded decimal string. *)
Definition canonical_key (v : Z) : string := fixed_width 39 v.

(** The integer value of a canonical key. *)
Definition key_value (k : string) : Z := decimal_value 0 k.

(** A 39-character string of decimal digits. *)
Definition is_canonical (k : string) : bool :=
  (String.length k =? 39)%nat && all_chars is_digit k.

(** A part of a dotted quad: one to three decimal digits that denote a
    value in [0,255]. *)
Definition is_octet_text (p : string) : bool :=
  (1 <=? String.length p)%nat && (String.length p <=? 3)%nat
  && all_chars is_digit p && (decimal_value 0 p <=? 255).

(** [a.b.c.d] *)
Definition dotted (a b c d : string) : string :=
  a ++ "." ++ b ++ "." ++ c ++ "." ++ d.

(** A group of an IPv6 address: one to four hexadecimal digits. *)
Definition is_group_text (g : string) : bool :=
  (1 <=? String.length g)%nat && (String.length g <=? 4)%nat
  && all_chars is_hex_digit g.

Definition group_value (g : string) : Z := hexadecimal_value 0 g.

(** The colon-hex notation of a list of groups, [g1:g2:...:gn]. *)
Definition colon_hex (groups : list string) : string := join groups ":".

(** The compressed notation [left::right]. *)
Definition compressed (left right : list string) : string :=
  colon_hex left ++ "::" ++ colon_hex right.

(** GeoRange: [start] and [end] of a stored range, as integers. *)
Definition range_start (r : DbRow.t) : Z := key_value (DbRow.ip_from_padded r).
Definition range_end (r : DbRow.t) : Z := key_value (DbRow.ip_to_padded r).

(** Both bounds are canonical keys and [end >= start]. *)
Definition well_formed (r : DbRow.t) : Prop :=
  is_canonical (DbRow.ip_from_padded r) = true
  /\ is_canonical (DbRow.ip_to_padded r) = true
  /\ range_start r <= range_end r.

(** The intervals of two distinct entries do not intersect. *)
Definition non_overlapping (table : list DbRow.t) : Prop :=
  forall r1 r2, In r1 table -> In r2 table -> r1 <> r2 ->
    range_end r1 < range_start r2 \/ range_end r2 < range_start r1.

Definition contains (r : DbRow.t) (n : Z) : Prop :=
  range_start r <= n <= range_end r.

(** predecessor(key): the entry with the largest [start] such that
    [start <= key], in the order of the stored keys. *)
Definition predecessor (table : list DbRow.t) (key : string) (r : DbRow.t) : Prop :=
  In r table
  /\ SQL.le (DbRow.ip_from_padded r) key = true
  /\ forall r', In r' table -> SQL.le (DbRow.ip_from_padded r') key = true ->
        SQL.le (DbRow.ip_from_padded r') (DbRow.ip_from_padded r) = true.

End Spec.

(** ** A sample store: the range of the specification's containment test *)

Module Sample.

Definition mountain_view : DbRow.t :=
  DbRow.mk "134744064" "134744319"
         "000000000000000000000000000000134744064"
         "000000000000000000000000000000134744319"
         (Some "US") (Some "United States of America") (Some "California")
         (Some "Mountain View") (Some "37.386") (Some "-122.084")
         (Some "94035") (Some "-07:00").

Definition table : list DbRow.t := [mountain_view].

(** The process before its first lookup: no client yet, the default path. *)
Definition world : World :=
  mkWorld None None (fun _ => Table table) [].

(** The same process over a table without rows. *)
Definition empty_world : World :=
  mkWorld None None (fun _ => Table []) [].

(** A process whose database path cannot be opened. *)
Definition closed_world : World :=
  mkWorld None None
          (fun _ => Unopenable (mkError "LibsqlError" "SQLITE_CANTOPEN")) [].

(** Two more ranges: the loopback address of IPv6 alone, and 200.0.0.0/24. *)
Definition loopback : DbRow.t :=
  DbRow.mk "1" "1"
           "000000000000000000000000000000000000001"
           "000000000000000000000000000000000000001"
           None None None None None None None None.

Definition brasilia : DbRow.t :=
  DbRow.mk "3355443200" "3355443455"
           "000000000000000000000000000003355443200"
           "000000000000000000000000000003355443455"
           (Some "BR") (Some "Brazil") (Some "Distrito Federal")
           (Some "Brasilia") (Some "-15.7797") (Some "-47.9297")
           (Some "70000") (Some "-03:00").

(** The three ranges, in no particular order. *)
Definition ranges : list DbRow.t := [brasilia; loopback; mountain_view].

Definition ranges_world : World :=
  mkWorld None None (fun _ => Table ranges) [].

(** A process configured with a path that cannot be opened, while the file
    of the default path holds the three ranges. *)
Definition misconfigured_world : World :=
  mkWorld None (Some "/missing/primary.db")
          (fun url => if (url =? "file:./data/primary.db")%string
                      then Table ranges
                      else Unopenable (mkError "LibsqlError" "SQLITE_CANTOPEN"))
          [].

End Sample.

(** * Properties *)

(** ** The order on TEXT values *)

Lemma ascii_compare_code (a b : ascii) :
  Ascii.compare a b = (code a ?= code b).
Proof. unfold Ascii.compare, code. symmetry. apply N2Z.inj_compare. Qed.

Lemma code_inj (a b : ascii) : code a = code b -> a = b.
Proof.
  unfold code. intros H. apply N2Z.inj in H.
  rewrite <- (ascii_N_embedding a), <- (ascii_N_embedding b). now rewrite H.
Qed.

Lemma string_compare_refl (s : string) : String.compare s s = Eq.
Proof.
  induction s as [|c s IH]; simpl; [reflexivity|].
  rewrite ascii_compare_code, Z.compare_refl. exact IH.
Qed.

Lemma string_leb_refl (s : string) : String.leb s s = true.
Proof. unfold String.leb. now rewrite string_compare_refl. Qed.

Lemma string_compare_lt_trans (a b c : string) :
  String.compare a b = Lt -> String.compare b c <> Gt -> String.compare a c = Lt.
Proof.
  revert b c. induction a as [|x a IH]; intros [|y b] [|z c]; simpl;
    try congruence.
  rewrite !ascii_compare_code.
  destruct (Z.compare_spec (code x) (code y)) as [E|L|G]; try discriminate.
  - apply code_inj in E. subst y.
    destruct (Z.compare_spec (code x) (code z)); try congruence.
    intros; eapply IH; eauto.
  - intros _.
    destruct (Z.compare_spec (code y) (code z)) as [E'|L'|G']; try congruence.
    + apply code_inj in E'. subst z. intros _.
      destruct (Z.compare_spec (code x) (code y)); try lia; reflexivity.
    + intros _. destruct (Z.compare_spec (code x) (code z)); try lia; reflexivity.
Qed.

Lemma string_leb_trans (a b c : string) :
  String.leb a b = true -> String.leb b c = true -> String.leb a c = true.
Proof.
  unfold String.leb. intros Hab Hbc.
  destruct (String.compare a b) eqn:Eab; try discriminate.
  - apply String.compare_eq_iff in Eab. now subst b.
  - rewrite (string_compare_lt_trans a b c Eab); [reflexivity|].
    intros E. now rewrite E in Hbc.
Qed.

Lemma string_leb_false (a b : string) :
  String.leb a b = false -> String.leb b a = true.
Proof.
  intros H. destruct (String.leb_total a b) as [E|E]; congruence.
Qed.

(** ** Strings of decimal digits *)

Lemma is_digit_range (c : ascii) :
  is_digit c = true -> 0 <= digit_value c <= 9.
Proof. unfold is_digit, digit_value. lia. Qed.

Lemma decimal_value_acc (s : string) (acc : Z) :
  decimal_value acc s = acc * 10 ^ Z.of_nat (String.length s) + decimal_value 0 s.
Proof.
  revert acc. induction s as [|c s IH]; intros acc; simpl String.length; simpl decimal_value.
  - simpl. lia.
  - rewrite (IH (acc * 10 + digit_value c)), (IH (digit_value c)).
    rewrite Nat2Z.inj_succ, Z.pow_succ_r by lia. ring.
Qed.

Lemma decimal_value_bound (s : string) :
  all_chars is_digit s = true ->
  0 <= decimal_value 0 s < 10 ^ Z.of_nat (String.length s).
Proof.
  induction s as [|c s IH]; simpl all_chars; simpl String.length; simpl decimal_value; intros H.
  - simpl. lia.
  - apply andb_true_iff in H as [Hc Hs]. specialize (IH Hs).
    apply is_digit_range in Hc.
    rewrite decimal_value_acc, Nat2Z.inj_succ, Z.pow_succ_r by lia. nia.
Qed.

(** On digit strings of one length the order of TEXT values is the order
    of the integers they denote. *)
Lemma digits_compare (a b : string) :
  String.length a = String.length b ->
  all_chars is_digit a = true -> all_chars is_digit b = true ->
  String.compare a b = (decimal_value 0 a ?= decimal_value 0 b).
Proof.
  revert b. induction a as [|x a IH]; intros [|y b]; simpl String.length;
    try discriminate; intros Hlen Ha Hb.
  - reflexivity.
  - simpl in Ha, Hb. apply andb_true_iff in Ha as [Hx Ha].
    apply andb_true_iff in Hb as [Hy Hb]. injection Hlen as Hlen.
    simpl String.compare. simpl decimal_value.
    rewrite (decimal_value_acc a), (decimal_value_acc b), <- Hlen.
    pose proof (decimal_value_bound a Ha) as Ba.
    pose proof (decimal_value_bound b Hb) as Bb. rewrite <- Hlen in Bb.
    specialize (IH b Hlen Ha Hb).
    rewrite ascii_compare_code.
    set (p := 10 ^ Z.of_nat (String.length a)) in *.
    unfold digit_value.
    destruct (Z.compare_spec (code x) (code y)) as [E|L|G].
    + rewrite IH, E. symmetry.
      destruct (Z.compare_spec (decimal_value 0 a) (decimal_value 0 b));
        [apply Z.compare_eq_iff | apply Z.compare_lt_iff | apply Z.compare_gt_iff]; lia.
    + symmetry. apply Z.compare_lt_iff. nia.
    + symmetry. apply Z.compare_gt_iff. nia.
Qed.

Lemma canonical_leb (a b : string) :
  Spec.is_canonical a = true -> Spec.is_canonical b = true ->
  String.leb a b = (Spec.key_value a <=? Spec.key_value b).
Proof.
  unfold Spec.is_canonical, Spec.key_value. intros Ha Hb.
  apply andb_true_iff in Ha as [La Da]. apply andb_true_iff in Hb as [Lb Db].
  apply Nat.eqb_eq in La, Lb.
  unfold String.leb. rewrite (digits_compare a b) by congruence.
  reflexivity.
Qed.

(** ** The lookup statement *)

Section Statement.

Variable key : DbRow.t -> string.

Lemma insert_desc_In (r : DbRow.t) (rows : list DbRow.t) (x : DbRow.t) :
  In x (SQL.insert_desc key r rows) <-> x = r \/ In x rows.
Proof.
  induction rows as [|h t IH]; simpl.
  - intuition.
  - destruct (SQL.le (key h) (key r)); simpl; [intuition|].
    rewrite IH. intuition.
Qed.

Lemma order_by_desc_In (rows : list DbRow.t) (x : DbRow.t) :
  In x (SQL.order_by_desc key rows) <-> In x rows.
Proof.
  induction rows as [|h t IH]; simpl; [tauto|].
  rewrite insert_desc_In, IH. intuition.
Qed.

Lemma insert_desc_greatest (r : DbRow.t) (rows : list DbRow.t) :
  SQL.head_is_greatest key rows ->
  SQL.head_is_greatest key (SQL.insert_desc key r rows).
Proof.
  destruct rows as [|h t]; simpl.
  - intros _ x [<-|[]]. apply string_leb_refl.
  - intros Hmax. destruct (SQL.le (key h) (key r)) eqn:E; simpl.
    + intros x [<-|Hx]; [apply string_leb_refl|].
      eapply string_leb_trans; [apply Hmax; exact Hx | exact E].
    + intros x [<-|Hx]; [apply string_leb_refl|].
      apply insert_desc_In in Hx as [->|Hx].
      * now apply string_leb_false.
      * apply Hmax. now right.
Qed.

Lemma order_by_desc_greatest (rows : list DbRow.t) :
  SQL.head_is_greatest key (SQL.order_by_desc key rows).
Proof.
  induction rows as [|h t IH]; simpl; [exact I|].
  now apply insert_desc_greatest.
Qed.

End Statement.

Lemma unique_key (table : list DbRow.t) (a b : DbRow.t) :
  NoDup (map DbRow.ip_from_padded table) ->
  In a table -> In b table ->
  DbRow.ip_from_padded a = DbRow.ip_from_padded b -> a = b.
Proof.
  induction table as [|h t IH]; simpl; [tauto|].
  intros Hnd. inversion Hnd as [|? ? Hnotin Hnd']; subst.
  intros [<-|Ha] [<-|Hb] E; auto.
  - exfalso. apply Hnotin. rewrite E. now apply in_map.
  - exfalso. apply Hnotin. rewrite <- E. now apply in_map.
Qed.

Lemma lookup_statement_cases (table : list DbRow.t) (k : string) :
  match SQL.order_by_desc DbRow.ip_from_padded
          (SQL.where_ (fun r => SQL.le (DbRow.ip_from_padded r) k) table) with
  | [] => lookup_statement table k k = []
  | h :: _ =>
      In h table /\ SQL.le (DbRow.ip_from_padded h) k = true
      /\ (forall r', In r' table -> SQL.le (DbRow.ip_from_padded r') k = true ->
            SQL.le (DbRow.ip_from_padded r') (DbRow.ip_from_padded h) = true)
      /\ lookup_statement table k k =
           if SQL.le k (DbRow.ip_to_padded h) then [h] else []
  end.
Proof.
  unfold lookup_statement.
  pose proof (order_by_desc_greatest DbRow.ip_from_padded
                (SQL.where_ (fun r => SQL.le (DbRow.ip_from_padded r) k) table)) as Hmax.
  pose proof (order_by_desc_In DbRow.ip_from_padded
                (SQL.where_ (fun r => SQL.le (DbRow.ip_from_padded r) k) table)) as Hin.
  destruct (SQL.order_by_desc _ _) as [|h rest]; simpl; [reflexivity|].
  simpl in Hmax.
  assert (Hh : In h table /\ SQL.le (DbRow.ip_from_padded h) k = true).
  { apply (proj1 (filter_In (fun r => SQL.le (DbRow.ip_from_padded r) k) h table)).
    apply Hin. now left. }
  destruct Hh as [Hh1 Hh2]. split; [exact Hh1|]. split; [exact Hh2|]. split.
  - intros r' Hr' Hle. apply Hmax. apply Hin.
    apply (proj2 (filter_In (fun r => SQL.le (DbRow.ip_from_padded r) k) r' table)).
    auto.
  - destruct (SQL.le k (DbRow.ip_to_padded h)); reflexivity.
Qed.

Lemma statement_without_candidate (table : list DbRow.t) (k : string) :
  (forall r, In r table -> SQL.le (DbRow.ip_from_padded r) k = false) ->
  lookup_statement table k k = [].
Proof.
  intros Hnone. pose proof (lookup_statement_cases table k) as H.
  destruct (SQL.order_by_desc _ _) as [|h rest]; [exact H|].
  destruct H as (Hin & Hle & _). rewrite (Hnone h Hin) in Hle. discriminate.
Qed.

Lemma statement_of_predecessor (table : list DbRow.t) (k : string) (r : DbRow.t) :
  NoDup (map DbRow.ip_from_padded table) ->
  Spec.predecessor table k r ->
  lookup_statement table k k = if SQL.le k (DbRow.ip_to_padded r) then [r] else [].
Proof.
  intros Hpk (Hin & Hle & Hmax).
  pose proof (lookup_statement_cases table k) as H.
  pose proof (order_by_desc_In DbRow.ip_from_padded
                (SQL.where_ (fun r => SQL.le (DbRow.ip_from_padded r) k) table) r) as Hr.
  destruct (SQL.order_by_desc _ _) as [|h rest].
  - exfalso. apply (proj2 Hr).
    apply (proj2 (filter_In (fun r => SQL.le (DbRow.ip_from_padded r) k) r table)).
    auto.
  - destruct H as (Hin' & Hle' & Hmax' & ->).
    assert (h = r) as ->; [|reflexivity].
    apply (unique_key table); auto.
    apply String.leb_antisym; [apply Hmax | apply Hmax']; auto.
Qed.

(** The result of a lookup, from the key and the file behind the url that
    the lookup uses. *)
Lemma lookupIP_outcome (w : World) (ip : string) :
  fst (lookupIP ip w)
  = match ipToPaddedDecimal ip with
    | inl e => Rejected e
    | inr k =>
        match files w (database_url w) with
        | Table table =>
            match lookup_statement table k k with
            | [] => Fulfilled None
            | row :: _ => Fulfilled (Some (project row))
            end
        | Unavailable e => Rejected e
        | Unopenable e => Rejected e
        end
    end.
Proof.
  unfold lookupIP. destruct (ipToPaddedDecimal ip) as [e|k]; [reflexivity|].
  unfold getDatabase, database_url, createClient, execute.
  destruct (client w) as [c|].
  - cbn -[lookup_statement append].
    destruct (files w (url c)) as [table|e|e]; [|reflexivity|reflexivity].
    cbn -[lookup_statement]. destruct (lookup_statement table k k); reflexivity.
  - destruct (files w ("file:" ++ dbPath w)) as [table|e|e] eqn:E;
      cbn -[lookup_statement append]; rewrite ?E; [|reflexivity|reflexivity].
    cbn -[lookup_statement]. destruct (lookup_statement table k k); reflexivity.
Qed.

Lemma lookupIP_on_table (w : World) (ip k : string) (table : list DbRow.t) :
  ipToPaddedDecimal ip = inr k ->
  files w (database_url w) = Table table ->
  fst (lookupIP ip w) =
    match lookup_statement table k k with
    | [] => Fulfilled None
    | row :: _ => Fulfilled (Some (project row))
    end.
Proof. intros Hk Hfile. now rewrite lookupIP_outcome, Hk, Hfile. Qed.

(** ** Single lookup *)

Lemma contained_is_predecessor (table : list DbRow.t) (k : string) (r : DbRow.t) :
  Spec.is_canonical k = true ->
  (forall r', In r' table -> Spec.well_formed r') ->
  Spec.non_overlapping table ->
  In r table -> Spec.contains r (Spec.key_value k) ->
  Spec.predecessor table k r /\ SQL.le k (DbRow.ip_to_padded r) = true.
Proof.
  intros Hk Hwf Hno Hin [Hlo Hhi].
  destruct (Hwf r Hin) as (Cf & Ct & Hord).
  unfold SQL.le, Spec.range_start, Spec.range_end in *.
  split; [split; [exact Hin | split]|].
  - rewrite canonical_leb by assumption. now apply Z.leb_le.
  - intros r' Hin' Hle'.
    destruct (Hwf r' Hin') as (Cf' & Ct' & Hord').
    rewrite canonical_leb in Hle' by assumption. apply Z.leb_le in Hle'.
    rewrite canonical_leb by assumption. apply Z.leb_le.
    destruct (Z_le_gt_dec (Spec.key_value (DbRow.ip_from_padded r'))
                          (Spec.key_value (DbRow.ip_from_padded r))) as [L|G];
      [exact L|].
    assert (Hne : r <> r') by (intros ->; lia).
    destruct (Hno r r' Hin Hin' Hne) as [D|D];
      unfold Spec.range_start, Spec.range_end in *; lia.
  - rewrite canonical_leb by assumption. now apply Z.leb_le.
Qed.

Lemma uncovered_key_statement (table : list DbRow.t) (k : string) :
  Spec.is_canonical k = true ->
  (forall r, In r table -> Spec.well_formed r) ->
  (forall r, In r table -> ~ Spec.contains r (Spec.key_value k)) ->
  lookup_statement table k k = [].
Proof.
  intros Hk Hwf Hnone. pose proof (lookup_statement_cases table k) as H.
  destruct (SQL.order_by_desc _ _) as [|h rest]; [exact H|].
  destruct H as (Hin & Hle & _ & ->).
  destruct (Hwf h Hin) as (Cf & Ct & Hord).
  unfold SQL.le in *. rewrite canonical_leb in Hle by assumption.
  apply Z.leb_le in Hle.
  destruct (String.leb k (DbRow.ip_to_padded h)) eqn:E; [|reflexivity].
  rewrite canonical_leb in E by assumption. apply Z.leb_le in E.
  exfalso. apply (Hnone h Hin). split; assumption.
Qed.

(** The lookup against the key that the codec computes, over a table with
    its primary key: NotFound when no range starts at or below the key;
    with [r] the range of the largest start at or below the key, Matched
    with [r] when the end of [r] is at or above the key and NotFound when
    it is below.  Over well-formed, pairwise non-overlapping ranges and a
    canonical key the bounds are inclusive. *)
Lemma lookupIP_predecessor_containment
    (w : World) (ip k : string) (table : list DbRow.t) :
  ipToPaddedDecimal ip = inr k ->
  files w (database_url w) = Table table ->
  NoDup (map DbRow.ip_from_padded table) ->
  ((forall r, In r table -> SQL.le (DbRow.ip_from_padded r) k = false) ->
   fst (lookupIP ip w) = Fulfilled None)
  /\ (forall r, Spec.predecessor table k r ->
        (SQL.le k (DbRow.ip_to_padded r) = true ->
         fst (lookupIP ip w) = Fulfilled (Some (project r)))
        /\ (SQL.le k (DbRow.ip_to_padded r) = false ->
            fst (lookupIP ip w) = Fulfilled None))
  /\ (Spec.is_canonical k = true ->
      (forall r, In r table -> Spec.well_formed r) ->
      Spec.non_overlapping table ->
      forall r, In r table ->
        (Spec.contains r (Spec.key_value k) ->
         fst (lookupIP ip w) = Fulfilled (Some (project r)))
        /\ (Spec.key_value k = Spec.range_end r ->
            fst (lookupIP ip w) = Fulfilled (Some (project r)))
        /\ (Spec.key_value k = Spec.range_end r + 1 ->
            (forall r', In r' table -> Spec.range_start r' <> Spec.key_value k) ->
            fst (lookupIP ip w) = Fulfilled None)).
Proof.
  intros Hk Hfile Hpk.
  rewrite (lookupIP_on_table w ip k table Hk Hfile).
  split; [|split].
  - intros Hnone. now rewrite statement_without_candidate.
  - intros r Hpred. rewrite (statement_of_predecessor table k r Hpk Hpred).
    split; intros ->; reflexivity.
  - intros Hcan Hwf Hno r Hin.
    assert (Hinside : Spec.contains r (Spec.key_value k) ->
                      match lookup_statement table k k with
                      | [] => Fulfilled None
                      | row :: _ => Fulfilled (Some (project row))
                      end = Fulfilled (Some (project r))).
    { intros Hc.
      destruct (contained_is_predecessor table k r Hcan Hwf Hno Hin Hc) as [Hpred Hle].
      now rewrite (statement_of_predecessor table k r Hpk Hpred), Hle. }
    split; [exact Hinside | split].
    + intros E. apply Hinside. destruct (Hwf r Hin) as (_ & _ & Hord).
      unfold Spec.contains. lia.
    + intros E Hnostart. rewrite uncovered_key_statement; auto.
      intros r' Hin' [Hlo Hhi].
      destruct (Hwf r Hin) as (_ & _ & Hord).
      assert (Hne : r <> r') by (intros ->; lia).
      pose proof (Hnostart r' Hin').
      destruct (Hno r r' Hin Hin' Hne); lia.
Qed.

Lemma lookupIP_predecessor_containment_witness :
  ipToPaddedDecimal "8.8.8.8" = inr "000000000000000000000000000000134744072"
  /\ fst (lookupIP "8.8.8.8" Sample.world) = Fulfilled (Some (project Sample.mountain_view))
  /\ fst (lookupIP "8.8.8.255" Sample.world) = Fulfilled (Some (project Sample.mountain_view))
  /\ fst (lookupIP "8.8.9.0" Sample.world) = Fulfilled None
  /\ fst (lookupIP "8.8.7.255" Sample.world) = Fulfilled None.
Proof.
  assert (Hpk : NoDup (map DbRow.ip_from_padded Sample.table)).
  { simpl. constructor; [simpl; tauto | constructor]. }
  assert (Hwf : forall r, In r Sample.table -> Spec.well_formed r).
  { intros r [<-|[]]. unfold Spec.well_formed. vm_compute. intuition discriminate. }
  assert (Hno : Spec.non_overlapping Sample.table).
  { intros r1 r2 [<-|[]] [<-|[]] Hne. now elim Hne. }
  split; [reflexivity|]. split; [|split; [|split]].
  - destruct (lookupIP_predecessor_containment Sample.world "8.8.8.8"
                "000000000000000000000000000000134744072" Sample.table
                eq_refl eq_refl Hpk) as (_ & _ & H).
    destruct (H eq_refl Hwf Hno Sample.mountain_view (or_introl eq_refl))
      as (Hinside & _ & _).
    apply Hinside. vm_compute. split; discriminate.
  - destruct (lookupIP_predecessor_containment Sample.world "8.8.8.255"
                "000000000000000000000000000000134744319" Sample.table
                eq_refl eq_refl Hpk) as (_ & _ & H).
    destruct (H eq_refl Hwf Hno Sample.mountain_view (or_introl eq_refl))
      as (_ & Hend & _).
    apply Hend. reflexivity.
  - destruct (lookupIP_predecessor_containment Sample.world "8.8.9.0"
                "000000000000000000000000000000134744320" Sample.table
                eq_refl eq_refl Hpk) as (_ & _ & H).
    destruct (H eq_refl Hwf Hno Sample.mountain_view (or_introl eq_refl))
      as (_ & _ & Habove).
    apply Habove; [reflexivity|].
    intros r' [<-|[]]. vm_compute. discriminate.
  - destruct (lookupIP_predecessor_containment Sample.world "8.8.7.255"
                "000000000000000000000000000000134744063" Sample.table
                eq_refl eq_refl Hpk) as (Hnone & _).
    apply Hnone. intros r [<-|[]]. reflexivity.
Defined.

(** The three sample ranges form a table as the loader leaves it: the
    starts are unique, every range is well formed, no two overlap. *)
Lemma ranges_primary_key : NoDup (map DbRow.ip_from_padded Sample.ranges).
Proof. repeat constructor; cbn; intuition discriminate. Qed.

Lemma ranges_well_formed (r : DbRow.t) : In r Sample.ranges -> Spec.well_formed r.
Proof.
  intros [<-|[<-|[<-|[]]]]; unfold Spec.well_formed; vm_compute;
    intuition discriminate.
Qed.

Lemma ranges_non_overlapping : Spec.non_overlapping Sample.ranges.
Proof.
  intros r1 r2 [<-|[<-|[<-|[]]]] [<-|[<-|[<-|[]]]] Hne;
    try (now elim Hne); vm_compute;
    first [left; reflexivity | right; reflexivity].
Qed.

Ltac sample_predecessor :=
  split; [cbn; tauto|]; split; [vm_compute; reflexivity|];
  let r' := fresh "r" in
  let Hin := fresh "Hin" in
  let Hle := fresh "Hle" in
  intros r' Hin Hle; destruct Hin as [<-|[<-|[<-|[]]]];
  first [vm_compute; reflexivity | vm_compute in Hle; discriminate Hle].

(** C1.  [lookupIP] does not return the stored range for every valid
    address.  The three sample ranges have unique starts, are well formed
    and pairwise disjoint.  The range 3355443200..3355443455 contains the
    value of 200.0.0.1, it is the predecessor of the canonical key of that
    value, and the statement run with the canonical key returns it; but
    [lookupIP "200.0.0.1"] runs the statement with the key of a negative
    number, which sorts below every stored start, and returns null.  The
    range 1..1 contains the value of ::1 and is the predecessor of its
    canonical key; but [lookupIP "::1"] runs the statement with the key of
    281470681743359 and returns null, while the full form 0:0:0:0:0:0:0:1
    of the same address is matched with that range.  On 8.8.8.x, which the
    codec encodes to the canonical key, the lookup is as claimed: matched
    with the attributes of the range up to its end, null one above it. *)
Theorem lookupIP_misses_stored_range :
  (NoDup (map DbRow.ip_from_padded Sample.ranges)
   /\ (forall r, In r Sample.ranges -> Spec.well_formed r)
   /\ Spec.non_overlapping Sample.ranges
   /\ files Sample.ranges_world (database_url Sample.ranges_world)
      = Table Sample.ranges)
  /\ (isIPv4 "200.0.0.1" = true
      /\ Spec.canonical_key (Spec.ipv4_value 200 0 0 1)
         = "000000000000000000000000000003355443201"
      /\ Spec.contains Sample.brasilia (Spec.ipv4_value 200 0 0 1)
      /\ Spec.predecessor Sample.ranges "000000000000000000000000000003355443201"
                          Sample.brasilia
      /\ lookup_statement Sample.ranges "000000000000000000000000000003355443201"
                          "000000000000000000000000000003355443201"
         = [Sample.brasilia]
      /\ ipToPaddedDecimal "200.0.0.1"
         = inr "00000000000000000000000000000-939524095"
      /\ lookup_statement Sample.ranges "00000000000000000000000000000-939524095"
                          "00000000000000000000000000000-939524095"
         = []
      /\ fst (lookupIP "200.0.0.1" Sample.ranges_world) = Fulfilled None)
  /\ (Regex.test ipv6Regex "::1" = true
      /\ Spec.canonical_key (Spec.ipv6_value [0; 0; 0; 0; 0; 0; 0; 1])
         = "000000000000000000000000000000000000001"
      /\ Spec.contains Sample.loopback (Spec.ipv6_value [0; 0; 0; 0; 0; 0; 0; 1])
      /\ Spec.predecessor Sample.ranges "000000000000000000000000000000000000001"
                          Sample.loopback
      /\ lookup_statement Sample.ranges "000000000000000000000000000000000000001"
                          "000000000000000000000000000000000000001"
         = [Sample.loopback]
      /\ ipToPaddedDecimal "::1" = inr "000000000000000000000000281470681743359"
      /\ fst (lookupIP "::1" Sample.ranges_world) = Fulfilled None
      /\ fst (lookupIP "0:0:0:0:0:0:0:1" Sample.ranges_world)
         = Fulfilled (Some (mkResult "1" "1" None None None None None None None None)))
  /\ (ipToPaddedDecimal "8.8.8.8" = inr "000000000000000000000000000000134744072"
      /\ Spec.canonical_key (Spec.ipv4_value 8 8 8 8)
         = "000000000000000000000000000000134744072"
      /\ fst (lookupIP "8.8.8.8" Sample.ranges_world)
         = Fulfilled (Some (mkResult "134744064" "134744319"
                              (Some "US") (Some "United States of America")
                              (Some "California") (Some "Mountain View")
                              (Some "37.386") (Some "-122.084")
                              (Some "94035") (Some "-07:00")))
      /\ fst (lookupIP "8.8.8.255" Sample.ranges_world)
         = fst (lookupIP "8.8.8.8" Sample.ranges_world)
      /\ fst (lookupIP "8.8.9.0" Sample.ranges_world) = Fulfilled None
      /\ fst (lookupIP "0.0.0.0" Sample.ranges_world) = Fulfilled None).
Proof.
  split; [|split; [|split]].
  - split; [exact ranges_primary_key|].
    split; [exact ranges_well_formed|].
    split; [exact ranges_non_overlapping | reflexivity].
  - split; [vm_compute; reflexivity|].
    split; [vm_compute; reflexivity|].
    split; [vm_compute; split; discriminate|].
    split; [sample_predecessor|].
    repeat (split; [vm_compute; reflexivity|]). vm_compute; reflexivity.
  - split; [vm_compute; reflexivity|].
    split; [vm_compute; reflexivity|].
    split; [vm_compute; split; discriminate|].
    split; [sample_predecessor|].
    repeat (split; [vm_compute; reflexivity|]). vm_compute; reflexivity.
  - repeat (split; [vm_compute; reflexivity|]). vm_compute; reflexivity.
Qed.

(** The lookup on the key that the codec computes, which need not be the
    canonical key of the address.  Over a table with its primary key:
    null when no stored start is at or below the key in the order of the
    column; otherwise, with [r] the row of the greatest start at or below
    the key, the ten attributes of [r], column by column, when the end of
    [r] is at or above the key, and null when it is below. *)
Theorem lookupIP_returns_predecessor_range
    (w : World) (ip k : string) (table : list DbRow.t) :
  ipToPaddedDecimal ip = inr k ->
  files w (database_url w) = Table table ->
  NoDup (map DbRow.ip_from_padded table) ->
  ((forall r, In r table -> SQL.le (DbRow.ip_from_padded r) k = false) ->
   fst (lookupIP ip w) = Fulfilled None)
  /\ (forall r, Spec.predecessor table k r ->
        fst (lookupIP ip w)
        = if SQL.le k (DbRow.ip_to_padded r)
          then Fulfilled
                 (Some (mkResult (DbRow.ip_from_dec r) (DbRow.ip_to_dec r)
                                 (DbRow.country_code r) (DbRow.country_name r)
                                 (DbRow.region_name r) (DbRow.city_name r)
                                 (DbRow.latitude r) (DbRow.longitude r)
                                 (DbRow.zip_code r) (DbRow.time_zone r)))
          else Fulfilled None).
Proof.
  intros Hk Hfile Hpk.
  rewrite (lookupIP_on_table w ip k table Hk Hfile). split.
  - intros Hnone. now rewrite statement_without_candidate.
  - intros r Hpred. rewrite (statement_of_predecessor table k r Hpk Hpred).
    now destruct (SQL.le k (DbRow.ip_to_padded r)).
Qed.

Lemma lookupIP_returns_predecessor_range_witness :
  fst (lookupIP "8.8.8.8" Sample.ranges_world)
  = Fulfilled (Some (mkResult "134744064" "134744319"
                       (Some "US") (Some "United States of America")
                       (Some "California") (Some "Mountain View")
                       (Some "37.386") (Some "-122.084")
                       (Some "94035") (Some "-07:00")))
  /\ fst (lookupIP "8.8.9.0" Sample.ranges_world) = Fulfilled None
  /\ fst (lookupIP "0.0.0.0" Sample.ranges_world) = Fulfilled None.
Proof.
  split; [|split].
  - destruct (lookupIP_returns_predecessor_range Sample.ranges_world "8.8.8.8"
                "000000000000000000000000000000134744072" Sample.ranges
                eq_refl eq_refl ranges_primary_key) as [_ H].
    refine (eq_trans (H Sample.mountain_view _) _); [sample_predecessor|].
    reflexivity.
  - destruct (lookupIP_returns_predecessor_range Sample.ranges_world "8.8.9.0"
                "000000000000000000000000000000134744320" Sample.ranges
                eq_refl eq_refl ranges_primary_key) as [_ H].
    refine (eq_trans (H Sample.mountain_view _) _); [sample_predecessor|].
    reflexivity.
  - destruct (lookupIP_returns_predecessor_range Sample.ranges_world "0.0.0.0"
                "000000000000000000000000000000000000000" Sample.ranges
                eq_refl eq_refl ranges_primary_key) as [H _].
    apply H. intros r [<-|[<-|[<-|[]]]]; reflexivity.
Defined.

(** ** The store a lookup reads *)

Lemma getDatabase_of_client (w : World) (c : Client) :
  client w = Some c -> getDatabase w = (inr c, w).
Proof. unfold getDatabase. now intros ->. Qed.

Lemma database_url_of_client (w : World) (c : Client) :
  client w = Some c -> database_url w = url c.
Proof. unfold database_url. now intros ->. Qed.

(** What a call of [getDatabase] leaves: on success the client it returns,
    made for the url of the state; on failure the state as it was. *)
Lemma getDatabase_cases (w : World) :
  match getDatabase w with
  | (inr c, w1) =>
      client w1 = Some c /\ url c = database_url w
      /\ (client w = Some c
          \/ (client w = None /\ c = mkClient ("file:" ++ dbPath w)))
  | (inl e, w1) =>
      w1 = w /\ client w = None
      /\ files w ("file:" ++ dbPath w) = Unopenable e
  end
  /\ files (snd (getDatabase w)) = files w
  /\ DATABASE_PATH (snd (getDatabase w)) = DATABASE_PATH w.
Proof.
  unfold getDatabase, database_url, createClient.
  destruct (client w) as [c|] eqn:Ec; cbn [fst snd].
  - repeat split; auto.
  - destruct (files w ("file:" ++ dbPath w)) as [table|e|e]; cbn [fst snd ret throw];
      repeat split; auto.
Qed.

Lemma lookupIP_state (w : World) (ip : string) :
  files (snd (lookupIP ip w)) = files w
  /\ DATABASE_PATH (snd (lookupIP ip w)) = DATABASE_PATH w
  /\ (client (snd (lookupIP ip w)) = client w
      \/ (client w = None
          /\ client (snd (lookupIP ip w)) = Some (mkClient ("file:" ++ dbPath w)))).
Proof.
  unfold lookupIP. destruct (ipToPaddedDecimal ip) as [e|k]; [cbn; auto|].
  destruct (getDatabase_cases w) as (Hcase & Hf & Hp).
  destruct (getDatabase w) as [[e|c] w1]; cbn [fst snd] in *.
  - destruct Hcase as (-> & _ & _). cbn. auto.
  - destruct Hcase as (Hc & Hurl & Hnew).
    assert (Hclient : client w1 = client w
                      \/ (client w = None
                          /\ client w1 = Some (mkClient ("file:" ++ dbPath w)))).
    { destruct Hnew as [Hold|[Hnone ->]]; [left; congruence | right; auto]. }
    destruct (execute c w1 k k) as [e|[|row rows]]; cbn [fst snd with_log files
      DATABASE_PATH client]; auto.
Qed.

Lemma lookupIP_files (w : World) (ip : string) :
  files (snd (lookupIP ip w)) = files w.
Proof. apply lookupIP_state. Qed.

Lemma lookupIP_database_path (w : World) (ip : string) :
  DATABASE_PATH (snd (lookupIP ip w)) = DATABASE_PATH w.
Proof. apply lookupIP_state. Qed.

Lemma lookupIP_keeps_url (w : World) (ip : string) :
  database_url (snd (lookupIP ip w)) = database_url w.
Proof.
  destruct (lookupIP_state w ip) as (_ & Hp & [Hc|[Hnone Hc]]);
    unfold database_url, dbPath; rewrite Hc, ?Hp, ?Hnone; reflexivity.
Qed.

Lemma lookupIP_keeps_store (w : World) (ip : string) :
  files (snd (lookupIP ip w)) (database_url (snd (lookupIP ip w)))
  = files w (database_url w).
Proof. now rewrite lookupIP_files, lookupIP_keeps_url. Qed.

Lemma lookupIP_same_store (w w' : World) (ip : string) :
  files w (database_url w) = files w' (database_url w') ->
  fst (lookupIP ip w) = fst (lookupIP ip w').
Proof. intros Hsame. now rewrite !lookupIP_outcome, Hsame. Qed.

(** C8.  A lookup repeated against the unchanged store gives the result of
    the first one: whatever the first call left behind (the client it
    created, or none when the client could not be created, and the lines
    it logged), a later call that runs from that client with the same
    DATABASE_PATH over the same files returns the same Matched attributes,
    the same NotFound or the same rejection. *)
Theorem lookupIP_deterministic (w w2 : World) (ip : string) :
  client w2 = client (snd (lookupIP ip w)) ->
  DATABASE_PATH w2 = DATABASE_PATH w ->
  files w2 = files w ->
  fst (lookupIP ip w2) = fst (lookupIP ip w).
Proof.
  intros Hclient Hpath Hfiles. apply lookupIP_same_store.
  rewrite Hfiles. f_equal.
  rewrite <- (lookupIP_keeps_url w ip).
  unfold database_url, dbPath.
  now rewrite Hclient, Hpath, (lookupIP_database_path w ip).
Qed.

Lemma lookupIP_deterministic_witness :
  (fst (lookupIP "8.8.8.8" (snd (lookupIP "8.8.8.8" Sample.world)))
   = fst (lookupIP "8.8.8.8" Sample.world)
   /\ client (snd (lookupIP "8.8.8.8" Sample.world)) <> client Sample.world)
  /\ (fst (lookupIP "8.8.8.8" (snd (lookupIP "8.8.8.8" Sample.closed_world)))
      = fst (lookupIP "8.8.8.8" Sample.closed_world)
      /\ client (snd (lookupIP "8.8.8.8" Sample.closed_world)) = None).
Proof.
  split; split.
  - apply (lookupIP_deterministic Sample.world
             (snd (lookupIP "8.8.8.8" Sample.world)) "8.8.8.8");
      reflexivity.
  - vm_compute. discriminate.
  - apply (lookupIP_deterministic Sample.closed_world
             (snd (lookupIP "8.8.8.8" Sample.closed_world)) "8.8.8.8");
      reflexivity.
  - reflexivity.
Defined.

(** ** Batch lookup *)

Lemma lookup_each_length (ips : list string) (w : World) :
  List.length (fst (lookup_each ips w)) = List.length ips.
Proof.
  revert w. induction ips as [|ip rest IH]; intros w; simpl; [reflexivity|].
  destruct (lookupIP ip w) as [r w1]. specialize (IH w1).
  destruct (lookup_each rest w1) as [rs w2]. simpl in *. now rewrite IH.
Qed.

Lemma lookup_each_nth (ips : list string) (w : World) (i : nat) (ip : string) :
  nth_error ips i = Some ip ->
  nth_error (fst (lookup_each ips w)) i = Some (fst (lookupIP ip w)).
Proof.
  revert w i. induction ips as [|ip0 rest IH]; intros w i; simpl.
  - destruct i; discriminate.
  - pose proof (lookupIP_keeps_store w ip0) as Hkeep.
    destruct (lookupIP ip0 w) as [r w1] eqn:E0. simpl in Hkeep.
    specialize (IH w1).
    destruct (lookup_each rest w1) as [rs w2]. simpl in *.
    destruct i as [|i]; simpl.
    + intros [= <-]. now rewrite E0.
    + intros Hi. rewrite (IH i Hi). f_equal.
      now apply lookupIP_same_store.
Qed.

(** C7, as the code has it.  [lookupIPs] returns one outcome per input,
    in the order of the inputs, and raises nothing; the outcome of each
    item is the one of looking that address up alone, a rejected lookup
    being recorded as null.  A malformed address is therefore recorded as
    null, the outcome of NotFound, for that item only. *)
Theorem lookupIPs_per_item (ips : list string) (w : World) :
  List.length (fst (lookupIPs ips w)) = List.length ips
  /\ (forall i ip, nth_error ips i = Some ip ->
        nth_error (fst (lookupIPs ips w)) i
        = Some (match fst (lookupIP ip w) with
                | Fulfilled value => value
                | Rejected _ => None
                end))
  /\ (forall i ip e, nth_error ips i = Some ip ->
        ipToPaddedDecimal ip = inl e ->
        nth_error (fst (lookupIPs ips w)) i = Some None).
Proof.
  assert (Hnth : forall i ip, nth_error ips i = Some ip ->
            nth_error (fst (lookupIPs ips w)) i
            = Some (match fst (lookupIP ip w) with
                    | Fulfilled value => value
                    | Rejected _ => None
                    end)).
  { intros i ip Hi. unfold lookupIPs.
    pose proof (lookup_each_nth ips w i ip Hi) as H.
    destruct (lookup_each ips w) as [results w']. simpl in *.
    now rewrite nth_error_map, H. }
  split; [|split].
  - unfold lookupIPs. pose proof (lookup_each_length ips w) as H.
    destruct (lookup_each ips w) as [results w']. simpl in *.
    now rewrite length_map.
  - exact Hnth.
  - intros i ip e Hi He. rewrite (Hnth i ip Hi).
    unfold lookupIP. now rewrite He.
Qed.

Lemma lookupIPs_per_item_witness :
  List.length (fst (lookupIPs ["8.8.8.8"; "not-an-ip"; "1.1.1.1"] Sample.world)) = 3%nat
  /\ nth_error (fst (lookupIPs ["8.8.8.8"; "not-an-ip"; "1.1.1.1"] Sample.world)) 0
     = Some (Some (project Sample.mountain_view))
  /\ nth_error (fst (lookupIPs ["8.8.8.8"; "not-an-ip"; "1.1.1.1"] Sample.world)) 1
     = Some None.
Proof.
  destruct (lookupIPs_per_item ["8.8.8.8"; "not-an-ip"; "1.1.1.1"] Sample.world)
    as (Hlen & Hitem & Hbad).
  split; [exact Hlen | split].
  - exact (Hitem 0%nat "8.8.8.8" eq_refl).
  - exact (Hbad 1%nat "not-an-ip" (mkError "Error" "Invalid IP address format")
                eq_refl eq_refl).
Defined.

(** C7 as stated fails: in the batch of the specification the malformed
    middle address and the uncovered third address get the same outcome,
    null, although alone the first is rejected and the second NotFound. *)
Lemma lookupIPs_invalid_item_is_null :
  fst (lookupIPs ["8.8.8.8"; "not-an-ip"; "1.1.1.1"] Sample.world)
  = [Some (project Sample.mountain_view); None; None]
  /\ fst (lookupIP "not-an-ip" Sample.world)
     = Rejected (mkError "Error" "Invalid IP address format")
  /\ fst (lookupIP "1.1.1.1" Sample.world) = Fulfilled None.
Proof. vm_compute. repeat split. Qed.

(** ** Strings *)

Lemma append_nil_r (s : string) : (s ++ "")%string = s.
Proof. induction s as [|c s IH]; simpl; [reflexivity | now rewrite IH]. Qed.

Lemma append_assoc (a b c : string) :
  ((a ++ b) ++ c)%string = (a ++ (b ++ c))%string.
Proof. induction a as [|x a IH]; simpl; [reflexivity | now rewrite IH]. Qed.

Lemma append_length (a b : string) :
  String.length (a ++ b) = (String.length a + String.length b)%nat.
Proof. induction a as [|x a IH]; simpl; [reflexivity | now rewrite IH]. Qed.

Lemma append_empty (a b : string) : (a ++ b)%string = "" -> a = "" /\ b = "".
Proof. destruct a; simpl; [auto | discriminate]. Qed.

Lemma all_chars_append (p : ascii -> bool) (a b : string) :
  all_chars p (a ++ b) = all_chars p a && all_chars p b.
Proof.
  induction a as [|x a IH]; simpl; [reflexivity|].
  now rewrite IH, andb_assoc.
Qed.

(** ** Regular expressions: the derivative matcher accepts the language *)

Lemma nullable_complete (r : regex) (s : string) :
  Matches r s -> s = "" -> nullable r = true.
Proof.
  induction 1; intros E; simpl; try discriminate; auto.
  - apply append_empty in E as [E1 E2]. now rewrite IHMatches1, IHMatches2.
  - now rewrite IHMatches.
  - rewrite IHMatches by assumption. apply orb_true_r.
Qed.

Lemma deriv_complete (r : regex) (s : string) :
  Matches r s -> forall c s', s = String c s' -> Matches (deriv c r) s'.
Proof.
  induction 1 as [|p x Hp|r1 r2 s1 s2 H1 IH1 H2 IH2|r1 r2 s H IH|r1 r2 s H IH];
    intros c s' E; simpl.
  - discriminate.
  - injection E as -> <-. rewrite Hp. constructor.
  - destruct s1 as [|y s1]; simpl in E.
    + rewrite (nullable_complete r1 "" H1 eq_refl).
      apply MAltR. now apply IH2.
    + injection E as -> <-.
      specialize (IH1 c s1 eq_refl).
      destruct (nullable r1); [apply MAltL|]; now constructor.
  - apply MAltL. now apply IH.
  - apply MAltR. now apply IH.
Qed.

Lemma test_complete (r : regex) (s : string) : Matches r s -> test r s = true.
Proof.
  revert r. induction s as [|c s IH]; intros r H; simpl.
  - now apply (nullable_complete r "").
  - apply IH. now apply (deriv_complete r (String c s)).
Qed.

Lemma nullable_sound (r : regex) : nullable r = true -> Matches r "".
Proof.
  induction r as [| |p|r1 IH1 r2 IH2|r1 IH1 r2 IH2]; simpl; try discriminate.
  - constructor.
  - intros H. apply andb_true_iff in H as [H1 H2].
    change "" with ("" ++ "")%string. constructor; auto.
  - intros H. apply orb_true_iff in H as [H|H]; [apply MAltL | apply MAltR]; auto.
Qed.

Lemma deriv_sound (r : regex) (c : ascii) (s : string) :
  Matches (deriv c r) s -> Matches r (String c s).
Proof.
  revert s. induction r as [| |p|r1 IH1 r2 IH2|r1 IH1 r2 IH2]; simpl; intros s H.
  - inversion H.
  - inversion H.
  - destruct (p c) eqn:E; inversion H; subst. now constructor.
  - assert (Hseq : forall t, Matches (Seq (deriv c r1) r2) t ->
                             Matches (Seq r1 r2) (String c t)).
    { intros t Ht. inversion Ht; subst.
      change (String c (s1 ++ s2)) with (String c s1 ++ s2)%string.
      constructor; auto. }
    destruct (nullable r1) eqn:N; [|now apply Hseq].
    inversion H; subst; [now apply Hseq|].
    change (String c s) with ("" ++ String c s)%string.
    constructor; [now apply nullable_sound | now apply IH2].
  - inversion H; subst; [apply MAltL | apply MAltR]; auto.
Qed.

Lemma test_sound (r : regex) (s : string) : test r s = true -> Matches r s.
Proof.
  revert r. induction s as [|c s IH]; intros r H; simpl in H.
  - now apply nullable_sound.
  - apply deriv_sound. now apply IH.
Qed.

Lemma MSeq_eq (r1 r2 : regex) (s1 s2 s : string) :
  Matches r1 s1 -> Matches r2 s2 -> s = (s1 ++ s2)%string ->
  Matches (Seq r1 r2) s.
Proof. intros H1 H2 ->. now constructor. Qed.

(** A run of [lo] to [hi] code units of a class matches [r{lo,hi}]. *)
Lemma Matches_at_most (p : ascii -> bool) (n : nat) (s : string) :
  all_chars p s = true -> (String.length s <= n)%nat ->
  Matches (at_most n (Cls p)) s.
Proof.
  revert s. induction n as [|n IH]; intros [|c s]; simpl; intros Hp Hlen;
    try lia.
  - constructor.
  - apply MAltL. constructor.
  - apply andb_true_iff in Hp as [Hc Hs]. apply MAltR.
    change (String c s) with (String c "" ++ s)%string.
    constructor; [now constructor | apply IH; [assumption | lia]].
Qed.

Lemma Matches_Rep (p : ascii -> bool) (lo hi : nat) (s : string) :
  all_chars p s = true ->
  (lo <= String.length s <= hi)%nat ->
  Matches (Rep lo hi (Cls p)) s.
Proof.
  unfold Rep. revert s hi. induction lo as [|lo IH]; intros s hi Hp Hlen; simpl.
  - change s with ("" ++ s)%string. constructor; [constructor|].
    rewrite Nat.sub_0_r. apply Matches_at_most; [assumption | lia].
  - destruct s as [|c s]; simpl in *; [lia|].
    apply andb_true_iff in Hp as [Hc Hs].
    destruct hi as [|hi]; [lia|]. simpl.
    specialize (IH s hi Hs ltac:(lia)). inversion IH; subst.
    apply (MSeq_eq _ _ (String c s1) s2); [|assumption|reflexivity].
    apply (MSeq_eq _ _ (String c "") s1); [now constructor|assumption|reflexivity].
Qed.

(** ** Dotted quads *)

Lemma digit_is_not_dot (c : ascii) : is_digit c = true -> "."%char <> c.
Proof. intros H <-. discriminate H. Qed.

Lemma prefix_dot (c : ascii) (s : string) :
  prefix "." (String c s) = if ascii_dec "." c then true else false.
Proof.
  cbn [prefix]. destruct (ascii_dec "." c); [|reflexivity].
  destruct s; reflexivity.
Qed.

Lemma split_from_step (sep cur : string) (c : ascii) (s : string) :
  split_from sep 0 cur (String c s)
  = if prefix sep (String c s)
    then cur :: split_from sep (String.length sep - 1) "" s
    else split_from sep 0 (cur ++ String c "") s.
Proof. reflexivity. Qed.

Lemma split_dot_part (p cur rest : string) :
  all_chars is_digit p = true ->
  split_from "." 0 cur (p ++ String "." rest)
  = (cur ++ p)%string :: split_from "." 0 "" rest.
Proof.
  revert cur. induction p as [|c p IH]; intros cur Hp; cbn [all_chars] in Hp;
    cbn [append]; rewrite split_from_step, prefix_dot.
  - rewrite append_nil_r.
    destruct (ascii_dec "." "."); [reflexivity | congruence].
  - apply andb_true_iff in Hp as [Hc Hp].
    destruct (ascii_dec "." c) as [E|_]; [now apply digit_is_not_dot in E|].
    rewrite IH by assumption. now rewrite append_assoc.
Qed.

Lemma split_dot_last (p cur : string) :
  all_chars is_digit p = true -> split_from "." 0 cur p = [(cur ++ p)%string].
Proof.
  revert cur. induction p as [|c p IH]; intros cur Hp; cbn [all_chars] in Hp.
  - simpl. now rewrite append_nil_r.
  - apply andb_true_iff in Hp as [Hc Hp]. rewrite split_from_step, prefix_dot.
    destruct (ascii_dec "." c) as [E|_]; [now apply digit_is_not_dot in E|].
    rewrite IH by assumption. now rewrite append_assoc.
Qed.

Lemma octet_text_facts (p : string) :
  Spec.is_octet_text p = true ->
  all_chars is_digit p = true
  /\ (1 <= String.length p <= 3)%nat
  /\ 0 <= decimal_value 0 p <= 255.
Proof.
  unfold Spec.is_octet_text. intros H.
  apply andb_true_iff in H as [H Hv]. apply andb_true_iff in H as [H Hd].
  apply andb_true_iff in H as [Hlo Hhi].
  apply Nat.leb_le in Hlo, Hhi. apply Z.leb_le in Hv.
  pose proof (decimal_value_bound p Hd). repeat split; auto; lia.
Qed.

Lemma split_dotted (p1 p2 p3 p4 : string) :
  all_chars is_digit p1 = true -> all_chars is_digit p2 = true ->
  all_chars is_digit p3 = true -> all_chars is_digit p4 = true ->
  split (Spec.dotted p1 p2 p3 p4) "." = [p1; p2; p3; p4].
Proof.
  intros H1 H2 H3 H4. unfold split, Spec.dotted.
  change ("." ++ ?s)%string with (String "." s).
  simpl append.
  rewrite !split_dot_part, split_dot_last by assumption. reflexivity.
Qed.

(** [Number] is applied to digit runs only: the strings that pass the
    regular expression of [isIPv4] split into such runs. *)
Lemma Number_digits (p : string) :
  all_chars is_digit p = true -> (1 <= String.length p)%nat ->
  Number p = Int (decimal_value 0 p).
Proof.
  unfold Number. destruct p as [|c p]; simpl String.length; [lia|].
  now intros ->.
Qed.

Lemma test_ipv4Regex_dotted (p1 p2 p3 p4 : string) :
  Spec.is_octet_text p1 = true -> Spec.is_octet_text p2 = true ->
  Spec.is_octet_text p3 = true -> Spec.is_octet_text p4 = true ->
  test ipv4Regex (Spec.dotted p1 p2 p3 p4) = true.
Proof.
  intros H1 H2 H3 H4.
  apply octet_text_facts in H1 as (D1 & L1 & _), H2 as (D2 & L2 & _),
    H3 as (D3 & L3 & _), H4 as (D4 & L4 & _).
  apply test_complete. unfold ipv4Regex, Spec.dotted. simpl exactly.
  assert (Hpart : forall p, all_chars is_digit p = true ->
                    (1 <= String.length p <= 3)%nat ->
                    Matches (Seq (Rep 1 3 (Cls is_digit)) (Chr ".")) (p ++ ".")).
  { intros p Dp Lp. constructor; [now apply Matches_Rep|].
    constructor. reflexivity. }
  apply (MSeq_eq _ _ ((p1 ++ ".") ++ (p2 ++ ".") ++ (p3 ++ ".") ++ "") p4).
  - repeat (constructor; auto).
  - now apply Matches_Rep.
  - rewrite !append_assoc. reflexivity.
Qed.

Lemma octet_value_in_range (v : Z) :
  0 <= v <= 255 ->
  in_octet_range (Int v) = true /\ out_of_octet_range (Int v) = false.
Proof.
  intros Hv. unfold in_octet_range, out_of_octet_range, num_cmp.
  rewrite Z.geb_leb, Z.gtb_ltb.
  replace (0 <=? v) with true by (symmetry; apply Z.leb_le; lia).
  replace (v <=? 255) with true by (symmetry; apply Z.leb_le; lia).
  replace (v <? 0) with false by (symmetry; apply Z.ltb_ge; lia).
  replace (255 <? v) with false by (symmetry; apply Z.ltb_ge; lia).
  split; reflexivity.
Qed.

(** The key of a dotted quad, for all parts that the grammar of [isIPv4]
    admits: the first octet goes through the 32-bit [<<]. *)
Lemma ipToPaddedDecimal_dotted (p1 p2 p3 p4 : string) :
  Spec.is_octet_text p1 = true -> Spec.is_octet_text p2 = true ->
  Spec.is_octet_text p3 = true -> Spec.is_octet_text p4 = true ->
  isIPv4 (Spec.dotted p1 p2 p3 p4) = true
  /\ ipToPaddedDecimal (Spec.dotted p1 p2 p3 p4)
     = inr (padStart
              (toString (shl (decimal_value 0 p1) 24 + shl (decimal_value 0 p2) 16
                         + shl (decimal_value 0 p3) 8 + decimal_value 0 p4))
              39 "0").
Proof.
  intros H1 H2 H3 H4.
  pose proof (test_ipv4Regex_dotted p1 p2 p3 p4 H1 H2 H3 H4) as Hre.
  apply octet_text_facts in H1 as (D1 & L1 & V1), H2 as (D2 & L2 & V2),
    H3 as (D3 & L3 & V3), H4 as (D4 & L4 & V4).
  destruct (octet_value_in_range _ V1) as [I1 O1].
  destruct (octet_value_in_range _ V2) as [I2 O2].
  destruct (octet_value_in_range _ V3) as [I3 O3].
  destruct (octet_value_in_range _ V4) as [I4 O4].
  assert (Hv4 : isIPv4 (Spec.dotted p1 p2 p3 p4) = true).
  { unfold isIPv4. rewrite Hre, split_dotted by assumption.
    cbn [negb map List.length Nat.eqb forallb andb].
    rewrite !Number_digits by (assumption || lia).
    now rewrite I1, I2, I3, I4. }
  split; [exact Hv4|].
  unfold ipToPaddedDecimal. rewrite Hv4, split_dotted by assumption.
  cbn [map List.length Nat.eqb negb existsb orb].
  rewrite !Number_digits by (assumption || lia).
  rewrite O1, O2, O3, O4. reflexivity.
Qed.

Lemma octet_toString (v : Z) :
  0 <= v <= 255 ->
  Spec.is_octet_text (toString v) = true /\ decimal_value 0 (toString v) = v.
Proof.
  intros Hv.
  assert (Hall : forallb (fun n => Spec.is_octet_text (toString (Z.of_nat n))
                                   && (decimal_value 0 (toString (Z.of_nat n))
                                       =? Z.of_nat n))
                         (seq 0 256) = true) by (vm_compute; reflexivity).
  rewrite forallb_forall in Hall.
  specialize (Hall (Z.to_nat v)). rewrite Z2Nat.id in Hall by lia.
  assert (Hin : In (Z.to_nat v) (seq 0 256)) by (apply in_seq; lia).
  apply Hall in Hin. apply andb_true_iff in Hin as [Ho He].
  apply Z.eqb_eq in He. auto.
Qed.

(** C10.  Every dotted quad of four parts of one to three digits, each
    denoting a value in [0,255], is accepted by [isIPv4], leading zeros
    included; its key is computed from the decimal values of the parts,
    and is the key of the same quad written without leading zeros. *)
Theorem isIPv4_accepts_leading_zeros (p1 p2 p3 p4 : string) :
  Spec.is_octet_text p1 = true -> Spec.is_octet_text p2 = true ->
  Spec.is_octet_text p3 = true -> Spec.is_octet_text p4 = true ->
  isIPv4 (Spec.dotted p1 p2 p3 p4) = true
  /\ ipToPaddedDecimal (Spec.dotted p1 p2 p3 p4)
     = inr (padStart
              (toString (shl (decimal_value 0 p1) 24 + shl (decimal_value 0 p2) 16
                         + shl (decimal_value 0 p3) 8 + decimal_value 0 p4))
              39 "0")
  /\ ipToPaddedDecimal (Spec.dotted p1 p2 p3 p4)
     = ipToPaddedDecimal
         (Spec.dotted (toString (decimal_value 0 p1)) (toString (decimal_value 0 p2))
                      (toString (decimal_value 0 p3)) (toString (decimal_value 0 p4))).
Proof.
  intros H1 H2 H3 H4.
  destruct (ipToPaddedDecimal_dotted p1 p2 p3 p4 H1 H2 H3 H4) as [Hv4 Hkey].
  split; [exact Hv4 | split; [exact Hkey|]].
  apply octet_text_facts in H1 as (_ & _ & V1), H2 as (_ & _ & V2),
    H3 as (_ & _ & V3), H4 as (_ & _ & V4).
  destruct (octet_toString _ V1) as [T1 E1]. destruct (octet_toString _ V2) as [T2 E2].
  destruct (octet_toString _ V3) as [T3 E3]. destruct (octet_toString _ V4) as [T4 E4].
  destruct (ipToPaddedDecimal_dotted _ _ _ _ T1 T2 T3 T4) as [_ Hkey'].
  rewrite Hkey, Hkey', E1, E2, E3, E4. reflexivity.
Qed.

Lemma isIPv4_accepts_leading_zeros_witness :
  isIPv4 "010.001.002.003" = true
  /\ ipToPaddedDecimal "010.001.002.003"
     = inr "000000000000000000000000000000167838211"
  /\ ipToPaddedDecimal "010.001.002.003" = ipToPaddedDecimal "10.1.2.3".
Proof.
  exact (isIPv4_accepts_leading_zeros "010" "001" "002" "003"
           eq_refl eq_refl eq_refl eq_refl).
Defined.

(** ** The codec at particular addresses *)

(** C2.  [::] has the key of value 0 and the eight-group form of the
    loopback address has the key of value 1, as the general path also
    computes for [::1]; but the special case of [ipv6ToDecimal] answers
    281470681743359 for [::1], so the two spellings of the loopback
    address get different keys. *)
Theorem loopback_fast_path_disagrees :
  ipToPaddedDecimal "::" = inr (Spec.canonical_key 0)
  /\ sum_of_groups "::" = inr 0
  /\ ipToPaddedDecimal "0:0:0:0:0:0:0:1" = inr (Spec.canonical_key 1)
  /\ sum_of_groups "::1" = inr 1
  /\ ipv6ToDecimal "::1" = inr 281470681743359
  /\ ipToPaddedDecimal "::1" = inr (Spec.canonical_key 281470681743359)
  /\ ipToPaddedDecimal "::1" <> ipToPaddedDecimal "0:0:0:0:0:0:0:1".
Proof. vm_compute. repeat split. discriminate. Qed.

(** C3.  The encoding is not monotone.  1.0.0.0 has a smaller value than
    128.0.0.0 and [::1] a smaller one than [::2], yet in both pairs the key
    of the second address is below the key of the first in the order of
    strings. *)
Theorem encoding_not_monotone :
  Spec.ipv4_value 1 0 0 0 < Spec.ipv4_value 128 0 0 0
  /\ ipToPaddedDecimal "1.0.0.0" = inr "000000000000000000000000000000016777216"
  /\ ipToPaddedDecimal "128.0.0.0" = inr "0000000000000000000000000000-2147483648"
  /\ ("0000000000000000000000000000-2147483648"
      <? "000000000000000000000000000000016777216")%string = true
  /\ Spec.ipv6_value [0; 0; 0; 0; 0; 0; 0; 1] < Spec.ipv6_value [0; 0; 0; 0; 0; 0; 0; 2]
  /\ ipToPaddedDecimal "::1" = inr "000000000000000000000000281470681743359"
  /\ ipToPaddedDecimal "::2" = inr "000000000000000000000000000000000000002"
  /\ ("000000000000000000000000000000000000002"
      <? "000000000000000000000000281470681743359")%string = true.
Proof. vm_compute. repeat split. Qed.

(** C4.  8.8.8.8 gets the padded decimal of 134744072, but a first octet
    of 128 or more wraps in the 32-bit shift: the key of 128.0.0.0 is the
    text of -2147483648, not the key of 128 * 2^24. *)
Theorem ipv4_high_octet_wraps :
  ipToPaddedDecimal "8.8.8.8" = inr (Spec.canonical_key (Spec.ipv4_value 8 8 8 8))
  /\ Spec.canonical_key (Spec.ipv4_value 8 8 8 8)
     = "000000000000000000000000000000134744072"
  /\ ipToPaddedDecimal "128.0.0.0" = inr "0000000000000000000000000000-2147483648"
  /\ ipToPaddedDecimal "128.0.0.0"
     <> inr (Spec.canonical_key (Spec.ipv4_value 128 0 0 0))
  /\ ipToPaddedDecimal "255.255.255.255"
     = inr "0000000000000000000000000000000000000-1".
Proof. vm_compute. repeat split. discriminate. Qed.

(** C5.  Strings with a colon are not checked against the IPv6 grammar: an
    address with two [::] is converted, to the key of the address made of
    its first two pieces, and so is one with three groups; a group that
    is not hexadecimal is refused, by the SyntaxError of the conversion. *)
Theorem double_compression_accepted :
  isIPv6 "1::2::3" = true
  /\ ipToPaddedDecimal "1::2::3" = inr "000005192296858534827628530496329220098"
  /\ ipToPaddedDecimal "1::2::3" = ipToPaddedDecimal "1::2"
  /\ ipToPaddedDecimal "1:2:" = inr "000000000000000000000000000004295098368"
  /\ ipToPaddedDecimal "g::1"
     = inl (mkError "SyntaxError" "Cannot convert 0xg to a BigInt")
  /\ ipToPaddedDecimal "not-an-ip"
     = inl (mkError "Error" "Invalid IP address format").
Proof. vm_compute. repeat split. Qed.

(** C6.  The key of 128.0.0.0 has 39 characters, but one of them is the
    minus sign. *)
Theorem high_octet_key_has_sign :
  isIPv4 "128.0.0.0" = true
  /\ ipToPaddedDecimal "128.0.0.0" = inr "0000000000000000000000000000-2147483648"
  /\ String.length "0000000000000000000000000000-2147483648" = 39%nat
  /\ all_chars is_digit "0000000000000000000000000000-2147483648" = false
  /\ Spec.is_canonical "0000000000000000000000000000-2147483648" = false.
Proof. vm_compute. repeat split. Qed.

(** ** The route handler *)

(** C9.  The IPv4-mapped form [::ffff:1.2.3.4] contains a colon and so
    passes [isIPv6]; the conversion of its last group raises a SyntaxError
    whose message is not the one of the codec and does not contain
    'Invalid IP address'.  The handler of [/ip/:ip] therefore throws it
    again and the request ends as an internal error, while a string
    without a colon is reported as an invalid address. *)
Theorem mapped_form_is_internal_error :
  isIPv4 "::ffff:1.2.3.4" = false
  /\ isIPv6 "::ffff:1.2.3.4" = true
  /\ ipToPaddedDecimal "::ffff:1.2.3.4"
     = inl (mkError "SyntaxError" "Cannot convert 0x1.2.3.4 to a BigInt")
  /\ "Cannot convert 0x1.2.3.4 to a BigInt" <> "Invalid IP address format"
  /\ includes "Cannot convert 0x1.2.3.4 to a BigInt" "Invalid IP address" = false
  /\ (forall w, fst (get_ip (Some "::ffff:1.2.3.4") w)
                = inl (Js (mkError "SyntaxError" "Cannot convert 0x1.2.3.4 to a BigInt")))
  /\ (forall w, fst (ip_route (Some "::ffff:1.2.3.4") w)
                = Failure 500 "Internal Server Error" "INTERNAL_ERROR" [])
  /\ (forall w, fst (get_ip (Some "not-an-ip") w)
                = inl (Http InvalidIPAddress
                         [("ip", "not-an-ip");
                          ("error", "Invalid IP address format")]))
  /\ (forall w, fst (ip_route (Some "not-an-ip") w)
                = Failure 400 "Invalid IP address" "INVALID_IP_ADDRESS"
                          [("ip", "not-an-ip");
                           ("error", "Invalid IP address format")]).
Proof.
  repeat split; try (vm_compute; reflexivity); try discriminate.
Qed.

(** ** Keys of non-negative values: the code against the specification *)

Lemma digits_of_acc (fuel : nat) (n : Z) (acc : string) :
  digits_of fuel n acc = (digits_of fuel n "" ++ acc)%string.
Proof.
  revert n acc. induction fuel as [|f IH]; intros n acc; cbn [digits_of].
  - reflexivity.
  - destruct (n / 10 =? 0); [reflexivity|].
    rewrite (IH _ (String _ acc)), (IH _ (String _ "")), append_assoc.
    reflexivity.
Qed.

Lemma zeros_start (n : nat) : repeat_to "0" "0" n = repeat_to "0" "" n.
Proof. destruct n; reflexivity. Qed.

Lemma zeros_snoc (n : nat) :
  (repeat_to "0" "" n ++ "0")%string = repeat_to "0" "" (S n).
Proof.
  induction n as [|n IH]; [reflexivity|].
  change (repeat_to "0" "" (S n)) with (String "0" (repeat_to "0" "" n)).
  cbn [append]. rewrite IH. reflexivity.
Qed.

Lemma fixed_width_zero (w : nat) : Spec.fixed_width w 0 = repeat_to "0" "" w.
Proof.
  induction w as [|w IH]; [reflexivity|].
  cbn [Spec.fixed_width]. change (0 / 10) with 0. rewrite IH.
  change (String (digit_char (0 mod 10)) "") with "0".
  apply zeros_snoc.
Qed.

Lemma digits_of_fixed_width (fuel : nat) (n : Z) (w : nat) :
  0 <= n < 10 ^ Z.of_nat fuel ->
  (String.length (digits_of fuel n "") <= w)%nat ->
  Spec.fixed_width w n
  = (repeat_to "0" "" (w - String.length (digits_of fuel n "")) ++ digits_of fuel n "")%string.
Proof.
  revert n w. induction fuel as [|f IH]; intros n w Hn Hlen.
  - cbn [digits_of]. simpl in Hn. assert (n = 0) as -> by lia.
    cbn [String.length]. rewrite Nat.sub_0_r, append_nil_r.
    apply fixed_width_zero.
  - cbn [digits_of] in *. destruct (n / 10 =? 0) eqn:E.
    + apply Z.eqb_eq in E. cbn [String.length] in *.
      destruct w as [|w]; [lia|]. cbn [Spec.fixed_width].
      rewrite E, fixed_width_zero.
      replace (S w - 1)%nat with w by lia. reflexivity.
    + rewrite digits_of_acc in *. rewrite append_length in *.
      cbn [String.length] in *.
      destruct w as [|w]; [lia|]. cbn [Spec.fixed_width].
      rewrite Nat2Z.inj_succ, Z.pow_succ_r in Hn by lia.
      rewrite (IH (n / 10) w).
      * rewrite append_assoc. f_equal. f_equal. lia.
      * split; [apply Z.div_pos; lia | apply Z.div_lt_upper_bound; lia].
      * lia.
Qed.

Lemma digits_of_length (fuel : nat) (n : Z) (w : nat) :
  (1 <= w)%nat -> 0 <= n < 10 ^ Z.of_nat w ->
  (String.length (digits_of fuel n "") <= w)%nat.
Proof.
  revert n w. induction fuel as [|f IH]; intros n w Hw Hn; cbn [digits_of].
  - simpl. lia.
  - destruct (n / 10 =? 0) eqn:E; [simpl; lia|].
    apply Z.eqb_neq in E. rewrite digits_of_acc, append_length.
    cbn [String.length].
    destruct w as [|[|w]]; [lia| |].
    + exfalso. apply E. apply Z.div_small. simpl in Hn. lia.
    + specialize (IH (n / 10) (S w)).
      rewrite (Nat2Z.inj_succ (S w)), Z.pow_succ_r in Hn by lia.
      assert (0 <= n / 10 < 10 ^ Z.of_nat (S w)).
      { split; [apply Z.div_pos; lia | apply Z.div_lt_upper_bound; lia]. }
      specialize (IH ltac:(lia) H). lia.
Qed.

Lemma toString_fuel (n : Z) :
  0 <= n -> n < 10 ^ Z.of_nat (S (Z.to_nat (Z.log2 n))).
Proof.
  intros Hn. rewrite Nat2Z.inj_succ, Z2Nat.id by apply Z.log2_nonneg.
  destruct (Z.eq_dec n 0) as [->|Hne]; [reflexivity|].
  pose proof (Z.log2_spec n ltac:(lia)) as [_ Hlt].
  pose proof (Z.log2_nonneg n).
  eapply Z.lt_le_trans; [exact Hlt|].
  apply Z.pow_le_mono_l. lia.
Qed.

(** On a non-negative value below 10^39 the code's
    [toString().padStart(39, '0')] is the canonical key of the value. *)
Lemma padded_is_canonical_key (n : Z) :
  0 <= n < 10 ^ 39 ->
  padStart (toString n) 39 "0" = Spec.canonical_key n.
Proof.
  intros Hn. unfold toString.
  replace (n <? 0) with false by (symmetry; apply Z.ltb_ge; lia).
  set (fuel := S (Z.to_nat (Z.log2 n))).
  pose proof (toString_fuel n ltac:(lia)) as Hfuel. fold fuel in Hfuel.
  pose proof (digits_of_length fuel n 39 ltac:(lia) Hn) as Hlen.
  unfold Spec.canonical_key.
  rewrite (digits_of_fixed_width fuel n 39 (conj (proj1 Hn) Hfuel) Hlen).
  unfold padStart.
  destruct (39 <=? String.length (digits_of fuel n ""))%nat eqn:E.
  - apply Nat.leb_le in E.
    replace (39 - String.length (digits_of fuel n ""))%nat with 0%nat by lia.
    reflexivity.
  - cbn [String.eqb Ascii.eqb Bool.eqb]. now rewrite zeros_start.
Qed.

Lemma digit_char_is_digit (d : Z) :
  0 <= d <= 9 -> is_digit (digit_char d) = true /\ digit_value (digit_char d) = d.
Proof.
  intros Hd.
  assert (Hall : forallb (fun n => is_digit (digit_char (Z.of_nat n))
                                   && (digit_value (digit_char (Z.of_nat n))
                                       =? Z.of_nat n))
                         (seq 0 10) = true) by reflexivity.
  rewrite forallb_forall in Hall.
  specialize (Hall (Z.to_nat d)). rewrite Z2Nat.id in Hall by lia.
  assert (Hin : In (Z.to_nat d) (seq 0 10)) by (apply in_seq; lia).
  apply Hall in Hin. apply andb_true_iff in Hin as [H1 H2].
  apply Z.eqb_eq in H2. auto.
Qed.

Lemma decimal_value_snoc (s : string) (c : ascii) :
  decimal_value 0 (s ++ String c "") = decimal_value 0 s * 10 + digit_value c.
Proof.
  generalize 0. induction s as [|x s IH]; intros acc; cbn [append decimal_value].
  - reflexivity.
  - apply IH.
Qed.

Lemma fixed_width_facts (w : nat) (n : Z) :
  0 <= n ->
  String.length (Spec.fixed_width w n) = w
  /\ all_chars is_digit (Spec.fixed_width w n) = true
  /\ decimal_value 0 (Spec.fixed_width w n) = n mod 10 ^ Z.of_nat w.
Proof.
  revert n. induction w as [|w IH]; intros n Hn.
  - cbn. rewrite Z.mod_1_r. auto.
  - cbn [Spec.fixed_width].
    destruct (IH (n / 10) ltac:(apply Z.div_pos; lia)) as (L & D & V).
    destruct (digit_char_is_digit (n mod 10) ltac:(pose proof (Z.mod_pos_bound n 10); lia))
      as [Hd Hv].
    rewrite append_length, all_chars_append, decimal_value_snoc, L, D, V, Hv.
    cbn [String.length all_chars]. rewrite Hd.
    split; [lia | split; [reflexivity|]].
    rewrite Nat2Z.inj_succ, Z.pow_succ_r by lia.
    rewrite Z.rem_mul_r by (try apply Z.pow_pos_nonneg; lia). lia.
Qed.

Lemma canonical_key_facts (n : Z) :
  0 <= n < 10 ^ 39 ->
  String.length (Spec.canonical_key n) = 39%nat
  /\ all_chars is_digit (Spec.canonical_key n) = true
  /\ decimal_value 0 (Spec.canonical_key n) = n.
Proof.
  intros Hn.
  destruct (fixed_width_facts 39 n (proj1 Hn)) as (L & D & V).
  split; [exact L | split; [exact D|]].
  unfold Spec.canonical_key. rewrite V.
  apply Z.mod_small. exact Hn.
Qed.

Lemma canonical_key_is_canonical (n : Z) :
  0 <= n < 10 ^ 39 ->
  Spec.is_canonical (Spec.canonical_key n) = true
  /\ Spec.key_value (Spec.canonical_key n) = n.
Proof.
  intros Hn. destruct (canonical_key_facts n Hn) as (L & D & V).
  split; [|exact V].
  unfold Spec.is_canonical. rewrite L, D. reflexivity.
Qed.

(** Lexicographic order on canonical keys is the order of the values. *)
Lemma canonical_key_monotone (a b : Z) :
  0 <= a -> a < b -> b < 10 ^ 39 ->
  (Spec.canonical_key a <? Spec.canonical_key b)%string = true.
Proof.
  intros Ha Hab Hb.
  assert (Ra : 0 <= a < 10 ^ 39) by (split; [exact Ha | exact (Z.lt_trans _ _ _ Hab Hb)]).
  assert (Rb : 0 <= b < 10 ^ 39)
    by (split; [exact (Z.le_trans _ _ _ Ha (Z.lt_le_incl _ _ Hab)) | exact Hb]).
  destruct (canonical_key_facts a Ra) as (La & Da & Va).
  destruct (canonical_key_facts b Rb) as (Lb & Db & Vb).
  unfold String.ltb.
  rewrite (digits_compare _ _ (eq_trans La (eq_sym Lb)) Da Db).
  rewrite Va, Vb, (proj2 (Z.compare_lt_iff a b) Hab). reflexivity.
Qed.

(** ** The 32-bit shift on octets *)

Lemma shl_octet (v : Z) :
  0 <= v <= 255 ->
  shl v 24 = (if v <? 128 then v * 2 ^ 24 else v * 2 ^ 24 - 2 ^ 32)
  /\ shl v 16 = v * 2 ^ 16
  /\ shl v 8 = v * 2 ^ 8.
Proof.
  intros Hv.
  assert (Hall : forallb (fun n =>
                   let x := Z.of_nat n in
                   (shl x 24 =? (if x <? 128 then x * 2 ^ 24 else x * 2 ^ 24 - 2 ^ 32))
                   && (shl x 16 =? x * 2 ^ 16) && (shl x 8 =? x * 2 ^ 8))
                 (seq 0 256) = true) by (vm_compute; reflexivity).
  rewrite forallb_forall in Hall.
  specialize (Hall (Z.to_nat v)). cbv zeta in Hall.
  rewrite Z2Nat.id in Hall by lia.
  assert (Hin : In (Z.to_nat v) (seq 0 256)) by (apply in_seq; lia).
  apply Hall in Hin. apply andb_true_iff in Hin as [Hin H8].
  apply andb_true_iff in Hin as [H24 H16].
  apply Z.eqb_eq in H24, H16, H8. auto.
Qed.

(** A dotted quad whose first octet is below 128 gets the canonical key
    of the value a*2^24 + b*2^16 + c*2^8 + d. *)
Lemma ipv4_key_low_octet (p1 p2 p3 p4 : string) :
  Spec.is_octet_text p1 = true -> Spec.is_octet_text p2 = true ->
  Spec.is_octet_text p3 = true -> Spec.is_octet_text p4 = true ->
  decimal_value 0 p1 < 128 ->
  ipToPaddedDecimal (Spec.dotted p1 p2 p3 p4)
  = inr (Spec.canonical_key
           (Spec.ipv4_value (decimal_value 0 p1) (decimal_value 0 p2)
                            (decimal_value 0 p3) (decimal_value 0 p4))).
Proof.
  intros H1 H2 H3 H4 Hlow.
  destruct (ipToPaddedDecimal_dotted p1 p2 p3 p4 H1 H2 H3 H4) as [_ ->].
  apply octet_text_facts in H1 as (_ & _ & V1), H2 as (_ & _ & V2),
    H3 as (_ & _ & V3), H4 as (_ & _ & V4).
  destruct (shl_octet _ V1) as (-> & _ & _).
  destruct (shl_octet _ V2) as (_ & -> & _).
  destruct (shl_octet _ V3) as (_ & _ & ->).
  replace (decimal_value 0 p1 <? 128) with true by (symmetry; apply Z.ltb_lt; lia).
  f_equal. apply padded_is_canonical_key.
  unfold Spec.ipv4_value. lia.
Qed.

(** With a first octet of 128 or more the shift wraps: the key is the
    padded text of the value less 2^32, a negative number, and is not a
    string of digits. *)
Lemma ipv4_key_high_octet (p1 p2 p3 p4 : string) :
  Spec.is_octet_text p1 = true -> Spec.is_octet_text p2 = true ->
  Spec.is_octet_text p3 = true -> Spec.is_octet_text p4 = true ->
  128 <= decimal_value 0 p1 ->
  exists k,
    ipToPaddedDecimal (Spec.dotted p1 p2 p3 p4) = inr k
    /\ k = padStart
             (toString (Spec.ipv4_value (decimal_value 0 p1) (decimal_value 0 p2)
                                        (decimal_value 0 p3) (decimal_value 0 p4)
                        - 2 ^ 32))
             39 "0"
    /\ all_chars is_digit k = false.
Proof.
  intros H1 H2 H3 H4 Hhigh.
  destruct (ipToPaddedDecimal_dotted p1 p2 p3 p4 H1 H2 H3 H4) as [_ ->].
  apply octet_text_facts in H1 as (_ & _ & V1), H2 as (_ & _ & V2),
    H3 as (_ & _ & V3), H4 as (_ & _ & V4).
  destruct (shl_octet _ V1) as (-> & _ & _).
  destruct (shl_octet _ V2) as (_ & -> & _).
  destruct (shl_octet _ V3) as (_ & _ & ->).
  replace (decimal_value 0 p1 <? 128) with false by (symmetry; apply Z.ltb_ge; lia).
  eexists. split; [reflexivity|]. split.
  - f_equal. f_equal. unfold Spec.ipv4_value. ring.
  - set (n := decimal_value 0 p1 * 2 ^ 24 - 2 ^ 32 + decimal_value 0 p2 * 2 ^ 16
              + decimal_value 0 p3 * 2 ^ 8 + decimal_value 0 p4).
    assert (Hneg : n < 0) by (unfold n; lia).
    unfold toString. rewrite (proj2 (Z.ltb_lt n 0) Hneg).
    unfold padStart.
    destruct (39 <=? _)%nat; [reflexivity|].
    cbn [String.eqb Ascii.eqb Bool.eqb]. rewrite all_chars_append.
    cbn [all_chars]. change (is_digit "-") with false.
    cbn [andb]. apply andb_false_r.
Qed.

(** ** The check of [isIPv6] *)

Lemma includes_char (a b : string) (c : ascii) :
  includes (a ++ String c b) (String c "") = true.
Proof.
  induction a as [|x a IH]; cbn [append includes].
  - cbn [prefix]. destruct (ascii_dec c c); [|congruence].
    destruct b; reflexivity.
  - rewrite IH. apply orb_true_r.
Qed.

Lemma Matches_Chr (c : ascii) (s : string) :
  Matches (Chr c) s -> s = String c "".
Proof.
  unfold Chr. intros H. inversion H as [|p x Hx| | |]; subst.
  apply Ascii.eqb_eq in Hx. now subst.
Qed.

(** Every string that the regular expression of [isIPv6] matches contains
    a colon, so the result of [isIPv6] is the one of [ip.includes(':')]. *)
Lemma ipv6Regex_has_colon (s : string) :
  test ipv6Regex s = true -> includes s ":" = true.
Proof.
  intros H. apply test_sound in H. unfold ipv6Regex in H. cbn [exactly] in H.
  inversion H as [| | |r1 r2 s0 HA|r1 r2 s0 HB]; subst.
  - inversion HA as [| |r1 r2 s1 s2 H7 HY| |]; subst.
    inversion H7 as [| |r1 r2 s3 s4 HX Hrest| |]; subst.
    inversion HX as [| |r1 r2 s5 s6 Hrep Hc| |]; subst.
    apply Matches_Chr in Hc. subst s6.
    rewrite !append_assoc. apply includes_char.
  - inversion HB as [| | |r1 r2 s0 H1|r1 r2 s0 H0]; subst.
    + inversion H1 as [| |r1 r2 s1 s2 Hc Hrest| |]; subst.
      apply Matches_Chr in Hc. subst s1. apply (includes_char "").
    + inversion H0 as [| |r1 r2 s1 s2 Hc Hrest| |]; subst.
      apply Matches_Chr in Hc. subst s1. apply (includes_char "").
Qed.

Lemma isIPv6_is_includes (ip : string) : isIPv6 ip = includes ip ":".
Proof.
  unfold isIPv6. destruct (includes ip ":") eqn:E; [apply orb_true_r|].
  rewrite orb_false_r. destruct (test ipv6Regex ip) eqn:T; [|reflexivity].
  apply ipv6Regex_has_colon in T. congruence.
Qed.

(** The codec's own rejection is reached exactly by the strings without a
    colon that are not dotted quads. *)
Lemma invalid_format_without_colon (ip : string) :
  isIPv4 ip = false -> includes ip ":" = false ->
  ipToPaddedDecimal ip = inl (mkError "Error" "Invalid IP address format").
Proof.
  intros H4 H6. unfold ipToPaddedDecimal.
  now rewrite H4, isIPv6_is_includes, H6.
Qed.

(** ** The strings that [isIPv4] accepts *)

Lemma Matches_exactly_inv (p : ascii -> bool) (n : nat) (s : string) :
  Matches (exactly n (Cls p)) s ->
  all_chars p s = true /\ String.length s = n.
Proof.
  revert s. induction n as [|n IH]; intros s H; cbn [exactly] in H.
  - inversion H; subst. auto.
  - inversion H as [| |r1 r2 s1 s2 Hc Hrest| |]; subst.
    inversion Hc as [|q c Hpc| | |]; subst.
    destruct (IH _ Hrest) as [Ha Hl]. cbn. rewrite Hpc, Ha, Hl. auto.
Qed.

Lemma Matches_at_most_inv (p : ascii -> bool) (n : nat) (s : string) :
  Matches (at_most n (Cls p)) s ->
  all_chars p s = true /\ (String.length s <= n)%nat.
Proof.
  revert s. induction n as [|n IH]; intros s H; cbn [at_most] in H.
  - inversion H; subst. cbn. auto.
  - inversion H as [| | |r1 r2 s0 HE|r1 r2 s0 HS]; subst.
    + inversion HE; subst. cbn. split; [reflexivity | lia].
    + inversion HS as [| |r1 r2 s1 s2 Hc Hrest| |]; subst.
      inversion Hc as [|q c Hpc| | |]; subst.
      destruct (IH _ Hrest) as [Ha Hl]. cbn. rewrite Hpc, Ha. split; [reflexivity | lia].
Qed.

Lemma Matches_Rep_inv (p : ascii -> bool) (lo hi : nat) (s : string) :
  Matches (Rep lo hi (Cls p)) s ->
  all_chars p s = true /\ (lo <= String.length s <= lo + (hi - lo))%nat.
Proof.
  unfold Rep. intros H. inversion H as [| |r1 r2 s1 s2 H1 H2| |]; subst.
  apply Matches_exactly_inv in H1 as [A1 L1].
  apply Matches_at_most_inv in H2 as [A2 L2].
  rewrite all_chars_append, append_length, A1, A2. split; [reflexivity | lia].
Qed.

Lemma ipv4Regex_inv (s : string) :
  test ipv4Regex s = true ->
  exists p1 p2 p3 p4,
    s = Spec.dotted p1 p2 p3 p4
    /\ Forall (fun p => all_chars is_digit p = true
                        /\ (1 <= String.length p <= 3)%nat) [p1; p2; p3; p4].
Proof.
  intros H. apply test_sound in H. unfold ipv4Regex in H. cbn [exactly] in H.
  inversion H as [| |r1 r2 s123 s4 H123 H4| |]; subst.
  inversion H123 as [| |r1 r2 x1 s23 HX1 H23| |]; subst.
  inversion H23 as [| |r1 r2 x2 s3 HX2 H3| |]; subst.
  inversion H3 as [| |r1 r2 x3 s0 HX3 H0| |]; subst.
  inversion H0; subst.
  inversion HX1 as [| |r1 r2 p1 c1 HP1 HC1| |]; subst.
  inversion HX2 as [| |r1 r2 p2 c2 HP2 HC2| |]; subst.
  inversion HX3 as [| |r1 r2 p3 c3 HP3 HC3| |]; subst.
  apply Matches_Chr in HC1, HC2, HC3. subst c1 c2 c3.
  apply Matches_Rep_inv in HP1, HP2, HP3, H4.
  exists p1, p2, p3, s4. split.
  - unfold Spec.dotted. rewrite !append_assoc. reflexivity.
  - repeat (apply Forall_cons; [split; [tauto | lia]|]). apply Forall_nil.
Qed.

Lemma in_octet_range_inv (v : Z) :
  in_octet_range (Int v) = true -> 0 <= v <= 255.
Proof.
  unfold in_octet_range, num_cmp. rewrite Z.geb_leb. lia.
Qed.

(** The strings accepted by [isIPv4] are exactly the dotted quads of four
    parts of one to three digits with values in [0,255]. *)
Lemma isIPv4_dotted_shape (ip : string) :
  isIPv4 ip = true
  <-> exists p1 p2 p3 p4,
        Spec.is_octet_text p1 = true /\ Spec.is_octet_text p2 = true
        /\ Spec.is_octet_text p3 = true /\ Spec.is_octet_text p4 = true
        /\ ip = Spec.dotted p1 p2 p3 p4.
Proof.
  split.
  - intros H. unfold isIPv4 in H.
    destruct (test ipv4Regex ip) eqn:T; cbn [negb] in H; [|discriminate].
    destruct (ipv4Regex_inv ip T) as (p1 & p2 & p3 & p4 & -> & HF).
    inversion HF as [|? ? [D1 L1] HF1]; subst.
    inversion HF1 as [|? ? [D2 L2] HF2]; subst.
    inversion HF2 as [|? ? [D3 L3] HF3]; subst.
    inversion HF3 as [|? ? [D4 L4] _]; subst.
    rewrite split_dotted in H by assumption.
    cbn [map List.length Nat.eqb forallb andb] in H.
    rewrite !Number_digits in H by (assumption || lia).
    apply andb_true_iff in H as [I1 H]. apply andb_true_iff in H as [I2 H].
    apply andb_true_iff in H as [I3 H]. apply andb_true_iff in H as [I4 _].
    apply in_octet_range_inv in I1, I2, I3, I4.
    exists p1, p2, p3, p4.
    assert (Hoct : forall p, all_chars is_digit p = true ->
                     (1 <= String.length p <= 3)%nat ->
                     0 <= decimal_value 0 p <= 255 -> Spec.is_octet_text p = true).
    { intros p D L V. unfold Spec.is_octet_text. rewrite D.
      rewrite (proj2 (Nat.leb_le _ _) (proj1 L)), (proj2 (Nat.leb_le _ _) (proj2 L)).
      rewrite (proj2 (Z.leb_le _ _) (proj2 V)). reflexivity. }
    repeat split; auto.
  - intros (p1 & p2 & p3 & p4 & H1 & H2 & H3 & H4 & ->).
    apply (ipToPaddedDecimal_dotted p1 p2 p3 p4 H1 H2 H3 H4).
Qed.

(** ** The length of keys *)

Lemma repeat_to_length (cur : string) (n : nat) :
  String.length (repeat_to "0" cur n) = n.
Proof.
  revert cur. induction n as [|n IH]; intros cur; [reflexivity|].
  destruct cur as [|c rest]; cbn [repeat_to String.length]; now rewrite IH.
Qed.

Lemma padStart_length (s : string) (n : nat) :
  String.length (padStart s n "0") = Nat.max n (String.length s).
Proof.
  unfold padStart. destruct (n <=? String.length s)%nat eqn:E.
  - apply Nat.leb_le in E. lia.
  - apply Nat.leb_gt in E. cbn [String.eqb Ascii.eqb Bool.eqb].
    rewrite append_length, repeat_to_length. lia.
Qed.

Lemma toString_length (n : Z) (w : nat) :
  (1 <= w)%nat -> - 10 ^ Z.of_nat w < n < 10 ^ Z.of_nat w ->
  (String.length (toString n) <= S w)%nat.
Proof.
  intros Hw Hn. unfold toString. destruct (n <? 0) eqn:E.
  - apply Z.ltb_lt in E. cbn [String.length]. apply le_n_S.
    apply digits_of_length; [assumption | lia].
  - apply Z.ltb_ge in E. apply Nat.le_trans with w; [|lia].
    apply digits_of_length; [assumption | lia].
Qed.

(** Every string accepted by [isIPv4] is encoded, to a key of exactly 39
    characters: the [Invalid IPv4 address] branch is never taken. *)
Lemma ipv4_encoded (ip : string) :
  isIPv4 ip = true ->
  exists k, ipToPaddedDecimal ip = inr k /\ String.length k = 39%nat.
Proof.
  intros H. apply isIPv4_dotted_shape in H
    as (p1 & p2 & p3 & p4 & H1 & H2 & H3 & H4 & ->).
  destruct (ipToPaddedDecimal_dotted p1 p2 p3 p4 H1 H2 H3 H4) as [_ Hk].
  eexists. split; [exact Hk|].
  apply octet_text_facts in H1 as (_ & _ & V1), H2 as (_ & _ & V2),
    H3 as (_ & _ & V3), H4 as (_ & _ & V4).
  destruct (shl_octet _ V1) as (-> & _ & _).
  destruct (shl_octet _ V2) as (_ & -> & _).
  destruct (shl_octet _ V3) as (_ & _ & ->).
  rewrite padStart_length.
  match goal with
  | |- Nat.max 39 (String.length (toString ?n)) = _ =>
      assert (Hlen : (String.length (toString n) <= 11)%nat)
  end.
  { apply (toString_length _ 10); [lia|].
    change (10 ^ Z.of_nat 10) with 10000000000.
    destruct (decimal_value 0 p1 <? 128) eqn:E;
      [apply Z.ltb_lt in E | apply Z.ltb_ge in E]; lia. }
  lia.
Qed.


(** No key is shorter than 39 characters. *)
Theorem key_length_at_least_39 (ip k : string) :
  ipToPaddedDecimal ip = inr k -> (39 <= String.length k)%nat.
Proof.
  unfold ipToPaddedDecimal. destruct (isIPv4 ip).
  - destruct (negb _ || _); [discriminate|].
    intros [= <-]. rewrite padStart_length. lia.
  - destruct (isIPv6 ip); [|discriminate].
    destruct (ipv6ToDecimal ip) as [e|decimal]; cbn [bind]; [discriminate|].
    intros [= <-]. rewrite padStart_length. lia.
Qed.

Lemma key_length_at_least_39_witness :
  (39 <= String.length "000000000000000000000000000000000000001")%nat.
Proof.
  exact (key_length_at_least_39 "0:0:0:0:0:0:0:1"
           "000000000000000000000000000000000000001" eq_refl).
Defined.

(** ** The errors of the codec *)

Lemma BigInt_0x_error (part : string) (e : JsError) :
  BigInt_0x part = inl e ->
  e = mkError "SyntaxError" ("Cannot convert 0x" ++ part ++ " to a BigInt").
Proof.
  unfold BigInt_0x. destruct (trimEnd part) as [|c t].
  - now intros [= <-].
  - destruct (all_chars is_hex_digit (String c t)); [discriminate|].
    now intros [= <-].
Qed.

Lemma normalizeIPv6_error (ip : string) (e : JsError) :
  normalizeIPv6 ip = inl e -> e = mkError "RangeError" "Invalid array length".
Proof.
  unfold normalizeIPv6. destruct (includes ip "::"); [|discriminate].
  unfold Array_fill. destruct (_ <? 0); cbn [bind throw ret]; [|discriminate].
  now intros [= <-].
Qed.

Lemma fold_groups_error (parts : list string) (acc : result Z) (e : JsError) :
  fold_left
    (fun (acc : result Z) (part : string) =>
       result <- acc ;; group <- BigInt_0x part ;; ret (result * 65536 + group))
    parts acc = inl e ->
  acc = inl e \/ exists part, In part parts /\ BigInt_0x part = inl e.
Proof.
  revert acc. induction parts as [|p ps IH]; intros acc; cbn [fold_left].
  - auto.
  - intros H. apply IH in H as [H|(part & Hin & Hp)].
    + destruct acc as [e'|r]; cbn [bind] in H; [now left|].
      right. exists p. split; [now left|].
      destruct (BigInt_0x p) as [e''|g]; cbn [bind ret] in H; [exact H | discriminate].
    + right. exists part. split; [now right | exact Hp].
Qed.

Lemma fold_groups_thrown (parts : list string) (e : JsError) :
  fold_left
    (fun (acc : result Z) (part : string) =>
       result <- acc ;; group <- BigInt_0x part ;; ret (result * 65536 + group))
    parts (inl e) = inl e.
Proof. induction parts as [|p ps IH]; [reflexivity | exact IH]. Qed.

(** The accumulation of the groups fails exactly at the first group that
    [BigInt] refuses, with the error of that group. *)
Lemma fold_groups_first_error (parts : list string) (acc : Z) (e : JsError) :
  fold_left
    (fun (acc : result Z) (part : string) =>
       result <- acc ;; group <- BigInt_0x part ;; ret (result * 65536 + group))
    parts (inr acc) = inl e
  <-> exists before part after,
        parts = (before ++ part :: after)%list
        /\ Forall (fun g => exists v, BigInt_0x g = inr v) before
        /\ BigInt_0x part = inl e.
Proof.
  revert acc. induction parts as [|p ps IH]; intros acc; cbn [fold_left bind].
  - split; [discriminate|]. intros (before & part & after & H & _).
    now destruct before.
  - destruct (BigInt_0x p) as [e'|g] eqn:Hp; cbn [bind ret].
    + rewrite fold_groups_thrown. split.
      * intros [= <-]. exists [], p, ps. repeat split; auto.
      * intros (before & part & after & H & Hok & Hbad).
        destruct before as [|b before]; cbn [app] in H; injection H as <- _.
        -- congruence.
        -- apply Forall_inv in Hok as [v Hv]. congruence.
    + unfold ret. rewrite IH. split.
      * intros (before & part & after & -> & Hok & Hbad).
        exists (p :: before), part, after. repeat split; auto.
        constructor; eauto.
      * intros (before & part & after & H & Hok & Hbad).
        destruct before as [|b before]; cbn [app] in H; injection H as <- ->.
        -- congruence.
        -- exists before, part, after. repeat split; auto.
           now apply Forall_inv_tail in Hok.
Qed.

(** The errors of the codec, exactly.  [ipToPaddedDecimal] fails with [e]
    if and only if the string is not a dotted quad and either it has no
    colon and [e] is the codec's own 'Invalid IP address format', or it has
    a colon, is neither [::1] nor [::], and either [normalizeIPv6] fails
    with [e], the RangeError of an array of negative length, or [e] is the
    SyntaxError that [BigInt] raises for the first group of the normalized
    address that it refuses. *)
Theorem codec_errors (ip : string) (e : JsError) :
  ipToPaddedDecimal ip = inl e
  <-> isIPv4 ip = false
      /\ ((includes ip ":" = false
           /\ e = mkError "Error" "Invalid IP address format")
          \/ (includes ip ":" = true /\ ip <> "::1" /\ ip <> "::"
              /\ ((normalizeIPv6 ip = inl e
                   /\ e = mkError "RangeError" "Invalid array length")
                  \/ exists normalized before part after,
                       normalizeIPv6 ip = inr normalized
                       /\ split normalized ":" = (before ++ part :: after)%list
                       /\ Forall (fun g => exists v, BigInt_0x g = inr v) before
                       /\ BigInt_0x part = inl e
                       /\ e = mkError "SyntaxError"
                               ("Cannot convert 0x" ++ part ++ " to a BigInt")))).
Proof.
  destruct (isIPv4 ip) eqn:H4.
  { destruct (ipv4_encoded ip H4) as (k & Hk & _). rewrite Hk.
    split; [discriminate | intros [? _]; discriminate]. }
  unfold ipToPaddedDecimal. rewrite H4, isIPv6_is_includes.
  destruct (includes ip ":") eqn:Hc.
  2:{ split.
      - intros [= <-]. split; [reflexivity|]. left. now split.
      - intros (_ & [[_ ->]|[? _]]); [reflexivity | discriminate]. }
  unfold ipv6ToDecimal.
  destruct (String.eqb_spec ip "::1") as [E1|N1].
  { cbn [bind ret]. split; [discriminate|].
    intros (_ & [[? _]|(_ & N & _)]); [discriminate | now elim N]. }
  destruct (String.eqb_spec ip "::") as [E0|N0].
  { cbn [bind ret]. split; [discriminate|].
    intros (_ & [[? _]|(_ & _ & N & _)]); [discriminate | now elim N]. }
  unfold sum_of_groups.
  destruct (normalizeIPv6 ip) as [e'|normalized] eqn:Hn; cbn [bind].
  - pose proof (normalizeIPv6_error ip e' Hn) as He'. split.
    + intros [= <-]. split; [reflexivity|]. right. repeat split; auto.
    + intros (_ & [[? _]|(_ & _ & _ & [[H _]|(n & ? & ? & ? & H & _)])]);
        [discriminate | congruence | discriminate].
  - change (@ret Z 0) with (@inr JsError Z 0).
    match goal with
    | |- context [fold_left ?f ?parts ?acc] =>
        destruct (fold_left f parts acc) as [e'|d] eqn:Hf
    end; cbn [bind ret].
    + apply fold_groups_first_error in Hf as Hfirst.
      destruct Hfirst as (before & part & after & Hs & Hok & Hbad). split.
      * intros [= <-]. split; [reflexivity|]. right. repeat split; auto.
        right. exists normalized, before, part, after. repeat split; auto.
        now apply BigInt_0x_error.
      * intros (_ & [[? _]|(_ & _ & _ & [[H _]|(n & b & q & a & [= <-] & Hs' & Hok' & Hbad' & _)])]);
          [discriminate | discriminate |].
        assert (Hagain : fold_left
                  (fun (acc : result Z) (part : string) =>
                     result <- acc ;; group <- BigInt_0x part ;;
                     ret (result * 65536 + group))
                  (split normalized ":") (inr 0) = inl e).
        { apply fold_groups_first_error. exists b, q, a. auto. }
        rewrite Hf in Hagain. now injection Hagain as ->.
    + split; [discriminate|].
      intros (_ & [[? _]|(_ & _ & _ & [[H _]|(n & b & q & a & [= <-] & Hs' & Hok' & Hbad' & _)])]);
        [discriminate | discriminate |].
      assert (Hagain : fold_left
                (fun (acc : result Z) (part : string) =>
                   result <- acc ;; group <- BigInt_0x part ;;
                   ret (result * 65536 + group))
                (split normalized ":") (inr 0) = inl e).
      { apply fold_groups_first_error. exists b, q, a. auto. }
      rewrite Hf in Hagain. discriminate Hagain.
Qed.

Lemma codec_errors_witness :
  ipToPaddedDecimal "1:zz:3:oops"
  = inl (mkError "SyntaxError" "Cannot convert 0x00zz to a BigInt")
  /\ ipToPaddedDecimal "1:2:3:4:5::6:7:8:9"
     = inl (mkError "RangeError" "Invalid array length")
  /\ (isIPv4 "not-an-ip" = false /\ includes "not-an-ip" ":" = false).
Proof.
  split; [|split].
  - apply (proj2 (codec_errors "1:zz:3:oops"
                    (mkError "SyntaxError" "Cannot convert 0x00zz to a BigInt"))).
    split; [reflexivity|]. right. repeat split; try discriminate.
    right. exists "0001:00zz:0003:oops", ["0001"], "00zz", ["0003"; "oops"].
    repeat split. repeat constructor. now exists 1.
  - apply (proj2 (codec_errors "1:2:3:4:5::6:7:8:9"
                    (mkError "RangeError" "Invalid array length"))).
    split; [reflexivity|]. right. repeat split; try discriminate.
    left. now split.
  - destruct (proj1 (codec_errors "not-an-ip"
                       (mkError "Error" "Invalid IP address format")) eq_refl)
      as (H4 & [[Hc _]|(Hc & _)]); [now split | discriminate Hc].
Defined.

(** ** What a lookup returns, and what it leaves alone *)

(** A Matched result is never made up: it is the projection of a stored
    row, the one with the greatest start at or below the key, and the key
    lies between the start and the end of that row. *)
Theorem matched_row_contains_key (w : World) (ip : string) (res : IPGeolocationResult) :
  fst (lookupIP ip w) = Fulfilled (Some res) ->
  exists k table row,
    ipToPaddedDecimal ip = inr k
    /\ files w (database_url w) = Table table
    /\ Spec.predecessor table k row
    /\ SQL.le k (DbRow.ip_to_padded row) = true
    /\ res = project row.
Proof.
  rewrite lookupIP_outcome.
  destruct (ipToPaddedDecimal ip) as [e|k]; [discriminate|].
  destruct (files w (database_url w)) as [table|e|e]; [|discriminate..].
  pose proof (lookup_statement_cases table k) as H.
  destruct (SQL.order_by_desc _ _) as [|h rest].
  - rewrite H. discriminate.
  - destruct H as (Hin & Hle & Hmax & ->).
    destruct (SQL.le k (DbRow.ip_to_padded h)) eqn:E; [|discriminate].
    intros [= <-]. exists k, table, h. repeat split; auto.
Qed.

Lemma matched_row_contains_key_witness :
  exists k table row,
    ipToPaddedDecimal "8.8.8.8" = inr k
    /\ files Sample.world (database_url Sample.world) = Table table
    /\ Spec.predecessor table k row
    /\ SQL.le k (DbRow.ip_to_padded row) = true
    /\ project Sample.mountain_view = project row.
Proof.
  exact (matched_row_contains_key Sample.world "8.8.8.8"
           (project Sample.mountain_view) eq_refl).
Defined.

Lemma lookup_each_is_map (ips : list string) (w : World) :
  fst (lookup_each ips w) = map (fun ip => fst (lookupIP ip w)) ips.
Proof.
  revert w. induction ips as [|ip rest IH]; intros w; cbn [lookup_each map].
  - reflexivity.
  - pose proof (lookupIP_keeps_store w ip) as Hkeep.
    destruct (lookupIP ip w) as [r w1]. cbn [fst snd] in *.
    specialize (IH w1). destruct (lookup_each rest w1) as [rs w2].
    cbn [fst] in *. rewrite IH. f_equal.
    apply map_ext. intros a. now apply lookupIP_same_store.
Qed.

Lemma lookupIPs_is_map (ips : list string) (w : World) :
  fst (lookupIPs ips w)
  = map (fun ip => match fst (lookupIP ip w) with
                   | Fulfilled value => value
                   | Rejected _ => None
                   end) ips.
Proof.
  unfold lookupIPs. pose proof (lookup_each_is_map ips w) as H.
  destruct (lookup_each ips w) as [results w']. cbn [fst] in *.
  now rewrite H, map_map.
Qed.

(** The batch of a concatenation is the concatenation of the batches, each
    taken from the same state: the lookups of one part of a batch never
    change the outcomes of another. *)
Theorem lookupIPs_app (ips1 ips2 : list string) (w : World) :
  fst (lookupIPs (ips1 ++ ips2) w)
  = (fst (lookupIPs ips1 w) ++ fst (lookupIPs ips2 w))%list.
Proof. now rewrite !lookupIPs_is_map, map_app. Qed.

(** When the database file is unusable, whether the driver refuses the
    statement or [createClient] cannot open the path, a single lookup of
    an encodable address is rejected with the driver's error, and a batch
    hides the failure: every outcome is null. *)
Theorem unavailable_store (w : World) (e : JsError) :
  files w (database_url w) = Unavailable e
  \/ files w (database_url w) = Unopenable e ->
  (forall ip k, ipToPaddedDecimal ip = inr k -> fst (lookupIP ip w) = Rejected e)
  /\ (forall ips, fst (lookupIPs ips w) = repeat None (List.length ips)).
Proof.
  intros Hfile. split.
  - intros ip k Hk. rewrite lookupIP_outcome, Hk.
    now destruct Hfile as [-> | ->].
  - intros ips. rewrite lookupIPs_is_map.
    induction ips as [|ip rest IH]; cbn [map List.length repeat]; [reflexivity|].
    rewrite IH. f_equal. rewrite lookupIP_outcome.
    destruct (ipToPaddedDecimal ip); [reflexivity|].
    now destruct Hfile as [-> | ->].
Qed.

Lemma unavailable_store_witness :
  (fst (lookupIP "8.8.8.8"
          (mkWorld None None
             (fun _ => Unavailable (mkError "LibsqlError" "SQLITE_CANTOPEN")) []))
   = Rejected (mkError "LibsqlError" "SQLITE_CANTOPEN")
   /\ fst (lookupIPs ["8.8.8.8"; "not-an-ip"]
             (mkWorld None None
                (fun _ => Unavailable (mkError "LibsqlError" "SQLITE_CANTOPEN")) []))
      = [None; None])
  /\ (fst (lookupIP "8.8.8.8" Sample.closed_world)
      = Rejected (mkError "LibsqlError" "SQLITE_CANTOPEN")
      /\ fst (lookupIPs ["8.8.8.8"; "not-an-ip"] Sample.closed_world)
         = [None; None]).
Proof.
  destruct (unavailable_store
              (mkWorld None None
                 (fun _ => Unavailable (mkError "LibsqlError" "SQLITE_CANTOPEN")) [])
              (mkError "LibsqlError" "SQLITE_CANTOPEN") (or_introl eq_refl))
    as [H1 H2].
  destruct (unavailable_store Sample.closed_world
              (mkError "LibsqlError" "SQLITE_CANTOPEN") (or_intror eq_refl))
    as [H3 H4].
  split; split.
  - exact (H1 "8.8.8.8" "000000000000000000000000000000134744072" eq_refl).
  - exact (H2 ["8.8.8.8"; "not-an-ip"]).
  - exact (H3 "8.8.8.8" "000000000000000000000000000000134744072" eq_refl).
  - exact (H4 ["8.8.8.8"; "not-an-ip"]).
Defined.

Lemma lookupIP_keeps_client (w : World) (ip : string) (c : Client) :
  client w = Some c -> client (snd (lookupIP ip w)) = Some c.
Proof.
  intros Hc. destruct (lookupIP_state w ip) as (_ & _ & [E|[E _]]); congruence.
Qed.

Lemma lookup_each_snd (ips : list string) (w : World) :
  snd (lookupIPs ips w) = snd (lookup_each ips w).
Proof. unfold lookupIPs. now destruct (lookup_each ips w). Qed.

Lemma lookupIP_new_client (w : World) (ip : string) :
  client w = None ->
  client (snd (lookupIP ip w))
  = match ipToPaddedDecimal ip with
    | inl _ => None
    | inr _ =>
        match files w ("file:" ++ dbPath w) with
        | Unopenable _ => None
        | _ => Some (mkClient ("file:" ++ dbPath w))
        end
    end.
Proof.
  intros Hnone. unfold lookupIP.
  destruct (ipToPaddedDecimal ip) as [e|k]; [exact Hnone|].
  unfold getDatabase, createClient, execute. rewrite Hnone.
  destruct (files w ("file:" ++ dbPath w)) as [table|e|e] eqn:E;
    cbn -[lookup_statement append]; rewrite ?E;
    [|reflexivity|exact Hnone].
  cbn -[lookup_statement append].
  destruct (lookup_statement table k k); reflexivity.
Qed.

Lemma lookup_each_keeps_client (ips : list string) (w : World) (c : Client) :
  client w = Some c -> client (snd (lookup_each ips w)) = Some c.
Proof.
  revert w. induction ips as [|ip rest IH]; intros w Hc; cbn [lookup_each].
  - exact Hc.
  - pose proof (lookupIP_keeps_client w ip c Hc) as H1.
    destruct (lookupIP ip w) as [r w1]. cbn [snd] in *.
    specialize (IH w1 H1). destruct (lookup_each rest w1) as [rs w2].
    exact IH.
Qed.

(** The client after a batch.  A client that exists is kept, never
    replaced.  When there is none, the batch creates one exactly when some
    address of the batch has a key and the file of the configured path can
    be opened, and the client it creates is the one for that path; a batch
    of addresses without a key, or against a path that cannot be opened,
    leaves the state without a client. *)
Theorem lookupIPs_client (ips : list string) (w : World) :
  (forall c, client w = Some c -> client (snd (lookupIPs ips w)) = Some c)
  /\ (client w = None ->
      client (snd (lookupIPs ips w))
      = if existsb (fun ip => match ipToPaddedDecimal ip with
                              | inr _ => true
                              | inl _ => false
                              end) ips
        then match files w ("file:" ++ dbPath w) with
             | Unopenable _ => None
             | _ => Some (mkClient ("file:" ++ dbPath w))
             end
        else None).
Proof.
  rewrite lookup_each_snd. split.
  - intros c. apply lookup_each_keeps_client.
  - revert w. induction ips as [|ip rest IH]; intros w Hnone;
      cbn [lookup_each existsb].
    + exact Hnone.
    + pose proof (lookupIP_new_client w ip Hnone) as Hnew.
      pose proof (lookupIP_files w ip) as Hf.
      pose proof (lookupIP_database_path w ip) as Hp.
      pose proof (lookup_each_keeps_client rest (snd (lookupIP ip w))) as Hkeep.
      specialize (IH (snd (lookupIP ip w))).
      destruct (lookupIP ip w) as [r w1]. cbn [snd] in *.
      assert (Hpath : dbPath w1 = dbPath w) by (unfold dbPath; now rewrite Hp).
      rewrite Hf, Hpath in IH.
      destruct (lookup_each rest w1) as [rs w2]. cbn [snd] in *.
      destruct (ipToPaddedDecimal ip) as [e|k]; cbn [orb].
      * now apply IH.
      * destruct (files w ("file:" ++ dbPath w)) as [table|e|e].
        -- now apply Hkeep.
        -- now apply Hkeep.
        -- rewrite (IH Hnew). now destruct (existsb _ rest).
Qed.

Lemma lookupIPs_client_witness :
  client (snd (lookupIPs ["not-an-ip"; "8.8.8.8"] Sample.ranges_world))
  = Some (mkClient "file:./data/primary.db")
  /\ client (snd (lookupIPs ["not-an-ip"; "abc"] Sample.ranges_world)) = None
  /\ client (snd (lookupIPs ["not-an-ip"; "8.8.8.8"] Sample.closed_world)) = None
  /\ client (snd (lookupIPs ["8.8.8.8"]
                    (mkWorld (Some (mkClient "file:/srv/ip.db")) None
                             (fun _ => Table Sample.ranges) [])))
     = Some (mkClient "file:/srv/ip.db").
Proof.
  split; [|split; [|split]].
  - exact (proj2 (lookupIPs_client ["not-an-ip"; "8.8.8.8"] Sample.ranges_world)
             eq_refl).
  - exact (proj2 (lookupIPs_client ["not-an-ip"; "abc"] Sample.ranges_world)
             eq_refl).
  - exact (proj2 (lookupIPs_client ["not-an-ip"; "8.8.8.8"] Sample.closed_world)
             eq_refl).
  - exact (proj1 (lookupIPs_client ["8.8.8.8"]
                    (mkWorld (Some (mkClient "file:/srv/ip.db")) None
                             (fun _ => Table Sample.ranges) []))
             (mkClient "file:/srv/ip.db") eq_refl).
Defined.

(** The client is a singleton: once it exists, the value of DATABASE_PATH
    no longer matters to a lookup. *)
Theorem client_ignores_later_path
    (w : World) (c : Client) (path : option string) (ip : string) :
  client w = Some c ->
  fst (lookupIP ip (mkWorld (client w) path (files w) (log w)))
  = fst (lookupIP ip w).
Proof.
  intros Hc. apply lookupIP_same_store.
  rewrite (database_url_of_client w c Hc).
  rewrite (database_url_of_client (mkWorld (client w) path (files w) (log w)) c Hc).
  reflexivity.
Qed.

Lemma client_ignores_later_path_witness :
  fst (lookupIP "8.8.8.8"
         (mkWorld (Some (mkClient "file:./data/primary.db")) (Some "/elsewhere.db")
            (fun u => if (u =? "file:./data/primary.db")%string
                      then Table Sample.table
                      else Unavailable (mkError "LibsqlError" "SQLITE_CANTOPEN"))
            []))
  = Fulfilled (Some (project Sample.mountain_view)).
Proof.
  exact (client_ignores_later_path
           (mkWorld (Some (mkClient "file:./data/primary.db")) None
              (fun u => if (u =? "file:./data/primary.db")%string
                        then Table Sample.table
                        else Unavailable (mkError "LibsqlError" "SQLITE_CANTOPEN"))
              [])
           (mkClient "file:./data/primary.db") (Some "/elsewhere.db") "8.8.8.8"
           eq_refl).
Defined.

(** ** Colon-separated groups *)

Lemma hex_is_not_colon (c : ascii) : is_hex_digit c = true -> ":"%char <> c.
Proof. intros H <-. discriminate H. Qed.

Lemma hex_is_not_space (c : ascii) :
  is_hex_digit c = true -> is_white_space c = false.
Proof. unfold is_hex_digit, is_digit, is_white_space. lia. Qed.

Lemma prefix_char (x c : ascii) (s : string) :
  prefix (String x "") (String c s) = if ascii_dec x c then true else false.
Proof.
  cbn [prefix]. destruct (ascii_dec x c); [|reflexivity].
  destruct s; reflexivity.
Qed.

Lemma prefix_two (x y c : ascii) (s : string) :
  prefix (String x (String y "")) (String c s)
  = if ascii_dec x c then prefix (String y "") s else false.
Proof. reflexivity. Qed.

Lemma split_colon_part (p cur rest : string) :
  all_chars is_hex_digit p = true ->
  split_from ":" 0 cur (p ++ String ":" rest)
  = (cur ++ p)%string :: split_from ":" 0 "" rest.
Proof.
  revert cur. induction p as [|c p IH]; intros cur Hp; cbn [all_chars] in Hp;
    cbn [append]; rewrite split_from_step, prefix_char.
  - rewrite append_nil_r.
    destruct (ascii_dec ":" ":"); [reflexivity | congruence].
  - apply andb_true_iff in Hp as [Hc Hp].
    destruct (ascii_dec ":" c) as [E|_]; [now apply hex_is_not_colon in E|].
    rewrite IH by assumption. now rewrite append_assoc.
Qed.

Lemma split_colon_last (p cur : string) :
  all_chars is_hex_digit p = true -> split_from ":" 0 cur p = [(cur ++ p)%string].
Proof.
  revert cur. induction p as [|c p IH]; intros cur Hp; cbn [all_chars] in Hp.
  - cbn. now rewrite append_nil_r.
  - apply andb_true_iff in Hp as [Hc Hp]. rewrite split_from_step, prefix_char.
    destruct (ascii_dec ":" c) as [E|_]; [now apply hex_is_not_colon in E|].
    rewrite IH by assumption. now rewrite append_assoc.
Qed.

Lemma colon_hex_cons (g g' : string) (gs : list string) :
  Spec.colon_hex (g :: g' :: gs) = (g ++ String ":" (Spec.colon_hex (g' :: gs)))%string.
Proof. reflexivity. Qed.

(** Splitting the colon-hex notation gives the groups back. *)
Lemma split_colon_hex (gs : list string) :
  gs <> [] -> Forall (fun g => all_chars is_hex_digit g = true) gs ->
  split (Spec.colon_hex gs) ":" = gs.
Proof.
  unfold split. induction gs as [|g gs IH]; intros Hne HF; [congruence|].
  inversion HF as [|? ? Hg HF']; subst.
  destruct gs as [|g' gs].
  - cbn [Spec.colon_hex join String.concat]. now apply split_colon_last.
  - rewrite colon_hex_cons, split_colon_part by assumption.
    cbn [append]. f_equal. apply IH; [discriminate | assumption].
Qed.

Lemma group_text_facts (g : string) :
  Spec.is_group_text g = true ->
  all_chars is_hex_digit g = true /\ (1 <= String.length g <= 4)%nat.
Proof.
  unfold Spec.is_group_text. intros H.
  apply andb_true_iff in H as [H Hd]. apply andb_true_iff in H as [Hlo Hhi].
  apply Nat.leb_le in Hlo, Hhi. auto.
Qed.

Lemma groups_are_hex (gs : list string) :
  Forall (fun g => Spec.is_group_text g = true) gs ->
  Forall (fun g => all_chars is_hex_digit g = true) gs.
Proof.
  apply Forall_impl. intros g H. now apply group_text_facts in H.
Qed.

Lemma includes_after (a s sub : string) :
  prefix sub s = true -> includes (a ++ s) sub = true.
Proof.
  intros H. induction a as [|x a IH]; cbn [append].
  - destruct s; cbn [includes]; now rewrite H.
  - cbn [includes]. rewrite IH. apply orb_true_r.
Qed.

Lemma includes_colon_free (q : ascii -> bool) (s : string) :
  (forall c, q c = true -> ":"%char <> c) ->
  all_chars q s = true -> includes s ":" = false.
Proof.
  intros Hq. induction s as [|c s IH]; cbn [all_chars includes]; intros H.
  - reflexivity.
  - apply andb_true_iff in H as [Hc Hs]. rewrite prefix_char.
    destruct (ascii_dec ":" c) as [E|_]; [now apply Hq in E|].
    now rewrite IH.
Qed.

(** A string accepted by [isIPv4] has no colon. *)
Lemma isIPv4_no_colon (ip : string) : isIPv4 ip = true -> includes ip ":" = false.
Proof.
  intros H. apply isIPv4_dotted_shape in H
    as (p1 & p2 & p3 & p4 & H1 & H2 & H3 & H4 & ->).
  apply octet_text_facts in H1 as (D1 & _), H2 as (D2 & _),
    H3 as (D3 & _), H4 as (D4 & _).
  apply (includes_colon_free (fun c => is_digit c || Ascii.eqb "." c)).
  - intros c Hc <-. discriminate Hc.
  - assert (Hd : forall p, all_chars is_digit p = true ->
                   all_chars (fun c => is_digit c || Ascii.eqb "." c) p = true).
    { induction p as [|c p IH]; cbn [all_chars]; [reflexivity|].
      intros H. apply andb_true_iff in H as [Hc Hp]. now rewrite Hc, IH. }
    unfold Spec.dotted. rewrite !all_chars_append.
    rewrite (Hd p1 D1), (Hd p2 D2), (Hd p3 D3), (Hd p4 D4). reflexivity.
Qed.

Lemma colon_hex_head (h : ascii) (t : string) (gs : list string) :
  exists s, Spec.colon_hex (String h t :: gs) = String h s.
Proof. destruct gs; cbn; eexists; reflexivity. Qed.

Lemma includes_pair_hex (p rest : string) :
  all_chars is_hex_digit p = true ->
  includes (p ++ rest) "::" = includes rest "::".
Proof.
  induction p as [|c p IH]; cbn [all_chars append]; intros H; [reflexivity|].
  apply andb_true_iff in H as [Hc Hp]. cbn [includes]. rewrite prefix_two.
  destruct (ascii_dec ":" c) as [E|_]; [now apply hex_is_not_colon in E|].
  now apply IH.
Qed.

Lemma includes_pair_colon (h : ascii) (s : string) :
  is_hex_digit h = true ->
  includes (String ":" (String h s)) "::" = includes (String h s) "::".
Proof.
  intros Hh. cbn [includes]. rewrite !prefix_two, prefix_char.
  destruct (ascii_dec ":" ":"); [|congruence].
  destruct (ascii_dec ":" h) as [E|_]; [now apply hex_is_not_colon in E|].
  reflexivity.
Qed.

(** The colon-hex notation of non-empty groups has no [::]. *)
Lemma colon_hex_no_pair (gs : list string) :
  Forall (fun g => Spec.is_group_text g = true) gs ->
  includes (Spec.colon_hex gs) "::" = false.
Proof.
  induction gs as [|g gs IH]; intros HF; [reflexivity|].
  inversion HF as [|? ? Hg HF']; subst.
  apply group_text_facts in Hg as [Hhex _].
  destruct gs as [|g' gs].
  - cbn [Spec.colon_hex join String.concat].
    rewrite <- (append_nil_r g), includes_pair_hex by assumption. reflexivity.
  - rewrite colon_hex_cons, includes_pair_hex by assumption.
    inversion HF' as [|? ? Hg' _]; subst.
    apply group_text_facts in Hg' as [Hhex' Hlen'].
    destruct g' as [|h t]; [cbn in Hlen'; lia|].
    destruct (colon_hex_head h t gs) as [s Hs].
    specialize (IH HF'). rewrite Hs in *.
    cbn [all_chars] in Hhex'. apply andb_true_iff in Hhex' as [Hh _].
    now rewrite includes_pair_colon.
Qed.

Lemma trimEnd_hex (p : string) : all_chars is_hex_digit p = true -> trimEnd p = p.
Proof.
  induction p as [|c p IH]; cbn [all_chars trimEnd]; intros H; [reflexivity|].
  apply andb_true_iff in H as [Hc Hp].
  now rewrite (hex_is_not_space c Hc), IH.
Qed.

Lemma BigInt_0x_hex (p : string) :
  all_chars is_hex_digit p = true -> (1 <= String.length p)%nat ->
  BigInt_0x p = inr (hexadecimal_value 0 p).
Proof.
  intros Hp Hlen. unfold BigInt_0x. rewrite trimEnd_hex by assumption.
  destruct p as [|c p]; [cbn in Hlen; lia|]. now rewrite Hp.
Qed.

Lemma hex_value_range (c : ascii) : is_hex_digit c = true -> 0 <= hex_value c <= 15.
Proof.
  unfold is_hex_digit, hex_value, is_digit.
  destruct ((48 <=? code c) && (code c <=? 57)) eqn:E1;
    destruct ((97 <=? code c) && (code c <=? 102)) eqn:E2; lia.
Qed.

Lemma hexadecimal_value_acc (s : string) (acc : Z) :
  hexadecimal_value acc s
  = acc * 16 ^ Z.of_nat (String.length s) + hexadecimal_value 0 s.
Proof.
  revert acc. induction s as [|c s IH]; intros acc;
    cbn [String.length hexadecimal_value].
  - cbn. lia.
  - rewrite (IH (acc * 16 + hex_value c)), (IH (0 * 16 + hex_value c)).
    rewrite Nat2Z.inj_succ, Z.pow_succ_r by lia. ring.
Qed.

Lemma hexadecimal_value_bound (s : string) :
  all_chars is_hex_digit s = true ->
  0 <= hexadecimal_value 0 s < 16 ^ Z.of_nat (String.length s).
Proof.
  induction s as [|c s IH]; cbn [all_chars String.length hexadecimal_value]; intros H.
  - cbn. lia.
  - apply andb_true_iff in H as [Hc Hs]. specialize (IH Hs).
    apply hex_value_range in Hc.
    rewrite hexadecimal_value_acc, Nat2Z.inj_succ, Z.pow_succ_r by lia. nia.
Qed.

Lemma group_value_range (g : string) :
  Spec.is_group_text g = true -> 0 <= Spec.group_value g < 65536.
Proof.
  intros H. apply group_text_facts in H as [Hhex Hlen].
  pose proof (hexadecimal_value_bound g Hhex) as Hb.
  assert (16 ^ Z.of_nat (String.length g) <= 16 ^ 4)
    by (apply Z.pow_le_mono_r; lia).
  unfold Spec.group_value. change (16 ^ 4) with 65536 in *. lia.
Qed.

(** Padding a group to four characters keeps its value. *)
Lemma padded_group (g : string) :
  Spec.is_group_text g = true ->
  all_chars is_hex_digit (padStart g 4 "0") = true
  /\ (1 <= String.length (padStart g 4 "0"))%nat
  /\ hexadecimal_value 0 (padStart g 4 "0") = Spec.group_value g.
Proof.
  intros H. apply group_text_facts in H as [Hhex Hlen].
  rewrite padStart_length. split; [|split; [lia|]].
  - unfold padStart. destruct (4 <=? String.length g)%nat; [assumption|].
    cbn [String.eqb Ascii.eqb Bool.eqb]. rewrite all_chars_append, Hhex, andb_true_r.
    generalize (4 - String.length g)%nat. intros n. rewrite zeros_start.
    induction n as [|n IH]; [reflexivity|].
    change (repeat_to "0" "" (S n)) with (String "0" (repeat_to "0" "" n)).
    cbn [all_chars]. now rewrite IH.
  - unfold Spec.group_value, padStart.
    destruct (4 <=? String.length g)%nat; [reflexivity|].
    cbn [String.eqb Ascii.eqb Bool.eqb].
    generalize (4 - String.length g)%nat. intros n. rewrite zeros_start.
    induction n as [|n IH]; [reflexivity|].
    change (repeat_to "0" "" (S n)) with (String "0" (repeat_to "0" "" n)).
    cbn [append hexadecimal_value]. exact IH.
Qed.

Lemma fold_groups_hex (ps : list string) (acc : Z) :
  Forall (fun p => all_chars is_hex_digit p = true
                   /\ (1 <= String.length p)%nat) ps ->
  fold_left
    (fun (acc : result Z) (part : string) =>
       result <- acc ;; group <- BigInt_0x part ;; ret (result * 65536 + group))
    ps (inr acc)
  = inr (fold_left (fun a v => a * 65536 + v) (map (hexadecimal_value 0) ps) acc).
Proof.
  revert acc. induction ps as [|p ps IH]; intros acc HF; [reflexivity|].
  inversion HF as [|? ? [Hp Hl] HF']; subst.
  cbn [fold_left map bind]. rewrite (BigInt_0x_hex p Hp Hl). cbn [bind ret].
  now apply IH.
Qed.

Lemma ipv6_value_bound (vs : list Z) :
  List.length vs = 8%nat -> Forall (fun v => 0 <= v < 65536) vs ->
  0 <= Spec.ipv6_value vs < 2 ^ 128.
Proof.
  intros Hlen HF.
  destruct vs as [|v1 [|v2 [|v3 [|v4 [|v5 [|v6 [|v7 [|v8 [|]]]]]]]]];
    try discriminate.
  repeat match goal with
         | H : Forall _ (_ :: _) |- _ => inversion H; clear H; subst
         end.
  unfold Spec.ipv6_value. cbn [fold_left].
  change (2 ^ 128) with 340282366920938463463374607431768211456. lia.
Qed.

Lemma starts_with_hex (h : ascii) (s : string) :
  is_hex_digit h = true ->
  (String h s =? "::1")%string = false /\ (String h s =? "::")%string = false.
Proof.
  intros Hh. cbn [String.eqb].
  destruct (Ascii.eqb_spec h ":") as [->|_]; [discriminate Hh|]. auto.
Qed.

Lemma ipv6ToDecimal_general (ip : string) (h : ascii) (s : string) :
  ip = String h s -> is_hex_digit h = true ->
  ipv6ToDecimal ip = sum_of_groups ip.
Proof.
  intros -> Hh. unfold ipv6ToDecimal.
  destruct (starts_with_hex h s Hh) as [-> ->]. reflexivity.
Qed.

Lemma groups_value_bound (gs : list string) :
  List.length gs = 8%nat ->
  Forall (fun g => Spec.is_group_text g = true) gs ->
  0 <= Spec.ipv6_value (map Spec.group_value gs) < 10 ^ 39.
Proof.
  intros Hlen HF.
  assert (H : 0 <= Spec.ipv6_value (map Spec.group_value gs) < 2 ^ 128).
  { apply ipv6_value_bound; [now rewrite length_map|].
    apply Forall_map. revert HF. apply Forall_impl.
    intros g. apply group_value_range. }
  change (2 ^ 128) with 340282366920938463463374607431768211456 in H.
  change (10 ^ 39) with 1000000000000000000000000000000000000000. lia.
Qed.

(** The number of groups is not checked: for two or more groups of one to
    four hexadecimal digits, without [::], the key is the padded decimal
    text of the groups read in base 65536, however many there are. *)
Lemma colon_hex_key (gs : list string) :
  (2 <= List.length gs)%nat ->
  Forall (fun g => Spec.is_group_text g = true) gs ->
  ipToPaddedDecimal (Spec.colon_hex gs)
  = inr (padStart (toString (Spec.ipv6_value (map Spec.group_value gs))) 39 "0").
Proof.
  intros Hlen HF.
  pose proof (colon_hex_no_pair gs HF) as Hpair.
  pose proof (groups_are_hex gs HF) as Hhex.
  assert (Hsplit : split (Spec.colon_hex gs) ":" = gs).
  { apply split_colon_hex; [|assumption]. intros ->. cbn in Hlen. lia. }
  destruct gs as [|g [|g' gs]]; try (cbn in Hlen; lia).
  inversion HF as [|? ? Hg HF']; subst.
  destruct (group_text_facts g Hg) as [Hghex Hglen].
  destruct g as [|h t]; [cbn in Hglen; lia|].
  assert (Hcolon : includes (Spec.colon_hex (String h t :: g' :: gs)) ":" = true).
  { rewrite colon_hex_cons. apply includes_char. }
  assert (H4 : isIPv4 (Spec.colon_hex (String h t :: g' :: gs)) = false).
  { destruct (isIPv4 _) eqn:E; [|reflexivity].
    apply isIPv4_no_colon in E. congruence. }
  unfold ipToPaddedDecimal. rewrite H4, isIPv6_is_includes, Hcolon.
  destruct (colon_hex_head h t (g' :: gs)) as [s Hs].
  cbn [all_chars] in Hghex. apply andb_true_iff in Hghex as [Hh _].
  rewrite (ipv6ToDecimal_general _ h s Hs Hh).
  unfold sum_of_groups, normalizeIPv6. rewrite Hpair, Hsplit. cbn [bind ret].
  set (padded := map (fun part => padStart part 4 "0") (String h t :: g' :: gs)).
  assert (Hpadded : Forall (fun p => all_chars is_hex_digit p = true
                                     /\ (1 <= String.length p)%nat) padded).
  { unfold padded. apply Forall_map. revert HF. apply Forall_impl.
    intros a Ha. destruct (padded_group a Ha) as (A & B & _). auto. }
  fold (Spec.colon_hex padded).
  rewrite split_colon_hex.
  - rewrite fold_groups_hex by assumption. cbn [bind]. unfold ret. f_equal.
    replace (map (hexadecimal_value 0) padded)
      with (map Spec.group_value (String h t :: g' :: gs)); [reflexivity|].
    unfold padded. rewrite map_map. apply map_ext_in.
    intros a Ha. symmetry. apply padded_group.
    rewrite Forall_forall in HF. now apply HF.
  - unfold padded. discriminate.
  - revert Hpadded. apply Forall_impl. tauto.
Qed.


(** The eight-group notation: for eight groups of one to four hexadecimal
    digits, the key of [g1:...:g8] is the canonical key of the sum of
    group_i * 65536^(7-i). *)
Theorem ipv6_full_form_key (gs : list string) :
  List.length gs = 8%nat ->
  Forall (fun g => Spec.is_group_text g = true) gs ->
  ipToPaddedDecimal (Spec.colon_hex gs)
  = inr (Spec.canonical_key (Spec.ipv6_value (map Spec.group_value gs))).
Proof.
  intros Hlen HF.
  rewrite colon_hex_key by (assumption || lia).
  f_equal. apply padded_is_canonical_key. now apply groups_value_bound.
Qed.

Lemma ipv6_full_form_key_witness :
  ipToPaddedDecimal "2001:db8:0:0:0:ff00:42:8329"
  = inr (Spec.canonical_key
           (Spec.ipv6_value (map Spec.group_value
              ["2001"; "db8"; "0"; "0"; "0"; "ff00"; "42"; "8329"]))).
Proof.
  apply (ipv6_full_form_key ["2001"; "db8"; "0"; "0"; "0"; "ff00"; "42"; "8329"]).
  - reflexivity.
  - repeat constructor.
Defined.

(** ** The compressed notation *)

Lemma split_pair_hex (p cur rest : string) :
  all_chars is_hex_digit p = true ->
  split_from "::" 0 cur (p ++ rest) = split_from "::" 0 (cur ++ p) rest.
Proof.
  revert cur. induction p as [|c p IH]; intros cur Hp; cbn [all_chars] in Hp;
    cbn [append].
  - now rewrite append_nil_r.
  - apply andb_true_iff in Hp as [Hc Hp]. rewrite split_from_step, prefix_two.
    destruct (ascii_dec ":" c) as [E|_]; [now apply hex_is_not_colon in E|].
    rewrite IH by assumption. now rewrite append_assoc.
Qed.

Lemma split_pair_colon (h : ascii) (cur rest : string) :
  is_hex_digit h = true ->
  split_from "::" 0 cur (String ":" (String h rest))
  = split_from "::" 0 (cur ++ ":") (String h rest).
Proof.
  intros Hh. rewrite split_from_step, prefix_two, prefix_char.
  destruct (ascii_dec ":" ":"); [|congruence].
  destruct (ascii_dec ":" h) as [E|_]; [now apply hex_is_not_colon in E|].
  reflexivity.
Qed.

Lemma split_pair_groups (gs : list string) (cur rest : string) :
  Forall (fun g => Spec.is_group_text g = true) gs ->
  split_from "::" 0 cur (Spec.colon_hex gs ++ rest)
  = split_from "::" 0 (cur ++ Spec.colon_hex gs) rest.
Proof.
  revert cur. induction gs as [|g gs IH]; intros cur HF.
  - cbn [Spec.colon_hex join String.concat append]. now rewrite append_nil_r.
  - inversion HF as [|? ? Hg HF']; subst.
    apply group_text_facts in Hg as [Hhex _].
    destruct gs as [|g' gs].
    + cbn [Spec.colon_hex join String.concat]. now apply split_pair_hex.
    + rewrite colon_hex_cons, append_assoc, split_pair_hex by assumption.
      inversion HF' as [|? ? Hg' _]; subst.
      apply group_text_facts in Hg' as [Hhex' Hlen'].
      destruct g' as [|h t]; [cbn in Hlen'; lia|].
      cbn [all_chars] in Hhex'. apply andb_true_iff in Hhex' as [Hh _].
      destruct (colon_hex_head h t gs) as [s Hs].
      specialize (IH ((cur ++ g) ++ ":")%string HF').
      rewrite Hs in *. cbn [append] in *.
      rewrite split_pair_colon by assumption. rewrite IH.
      f_equal. rewrite !append_assoc. reflexivity.
Qed.

Lemma split_compressed (left right : list string) :
  Forall (fun g => Spec.is_group_text g = true) left ->
  Forall (fun g => Spec.is_group_text g = true) right ->
  split (Spec.compressed left right) "::"
  = [Spec.colon_hex left; Spec.colon_hex right].
Proof.
  intros HL HR. unfold split, Spec.compressed.
  rewrite split_pair_groups by assumption. cbn [append].
  rewrite split_from_step.
  replace (prefix "::" (String ":" (String ":" (Spec.colon_hex right)))) with true.
  - f_equal. cbn [String.length Nat.sub split_from].
    rewrite <- (append_nil_r (Spec.colon_hex right)).
    rewrite split_pair_groups by assumption. cbn [append split_from].
    now rewrite append_nil_r.
  - rewrite prefix_two. destruct (ascii_dec ":" ":"); [|congruence].
    rewrite prefix_char. destruct (ascii_dec ":" ":"); [reflexivity|congruence].
Qed.

Lemma parts_of_colon_hex (gs : list string) :
  Forall (fun g => Spec.is_group_text g = true) gs ->
  match Spec.colon_hex gs with
  | String c p => split (String c p) ":"
  | EmptyString => []
  end = gs.
Proof.
  intros HF. destruct gs as [|g gs]; [reflexivity|].
  pose proof (split_colon_hex (g :: gs) ltac:(discriminate) (groups_are_hex _ HF)) as Hs.
  inversion HF as [|? ? Hg _]; subst.
  apply group_text_facts in Hg as [_ Hlen].
  destruct g as [|h t]; [cbn in Hlen; lia|].
  destruct (colon_hex_head h t gs) as [s E]. rewrite E in *. exact Hs.
Qed.

Lemma compressed_has_pair (left right : list string) :
  includes (Spec.compressed left right) "::" = true
  /\ includes (Spec.compressed left right) ":" = true.
Proof.
  unfold Spec.compressed. split.
  - apply includes_after. cbn [append]. rewrite prefix_two.
    destruct (ascii_dec ":" ":"); [|congruence].
    rewrite prefix_char. destruct (ascii_dec ":" ":"); [reflexivity|congruence].
  - cbn [append]. apply includes_char.
Qed.

Lemma expanded_groups (left right : list string) :
  Forall (fun g => Spec.is_group_text g = true) left ->
  Forall (fun g => Spec.is_group_text g = true) right ->
  (List.length left + List.length right <= 8)%nat ->
  let groups :=
    (left ++ repeat "0000" (8 - List.length left - List.length right) ++ right)%list in
  List.length groups = 8%nat
  /\ Forall (fun g => Spec.is_group_text g = true) groups.
Proof.
  intros HL HR Hlen groups. unfold groups. split.
  - rewrite !length_app, repeat_length. lia.
  - apply Forall_app. split; [assumption|].
    apply Forall_app. split; [|assumption].
    apply Forall_forall. intros g Hg. apply repeat_spec in Hg. now subst.
Qed.

(** The general path on a compressed address: the groups to the left and
    to the right of [::] with the implied zero groups between them. *)
Lemma sum_of_groups_compressed (left right : list string) :
  Forall (fun g => Spec.is_group_text g = true) left ->
  Forall (fun g => Spec.is_group_text g = true) right ->
  (List.length left + List.length right <= 8)%nat ->
  sum_of_groups (Spec.compressed left right)
  = inr (Spec.ipv6_value
           (map Spec.group_value
              (left ++ repeat "0000" (8 - List.length left - List.length right)
                    ++ right))).
Proof.
  intros HL HR Hlen.
  destruct (expanded_groups left right HL HR Hlen) as [Hlen8 Hgroups].
  unfold sum_of_groups, normalizeIPv6.
  rewrite (proj1 (compressed_has_pair left right)), split_compressed by assumption.
  cbn [nth_error]. rewrite !parts_of_colon_hex by assumption.
  unfold Array_fill.
  replace (8 - Z.of_nat (List.length left) - Z.of_nat (List.length right) <? 0)
    with false by (symmetry; apply Z.ltb_ge; lia).
  replace (Z.to_nat (8 - Z.of_nat (List.length left) - Z.of_nat (List.length right)))
    with (8 - List.length left - List.length right)%nat by lia.
  cbn [bind ret].
  set (groups := (left ++ repeat "0000" (8 - List.length left - List.length right)
                       ++ right)%list) in *.
  fold (Spec.colon_hex groups).
  rewrite split_colon_hex.
  - rewrite fold_groups_hex; [reflexivity|].
    revert Hgroups. apply Forall_impl. intros g Hg.
    apply group_text_facts in Hg. split; [tauto | lia].
  - intros E. rewrite E in Hlen8. discriminate.
  - now apply groups_are_hex.
Qed.

(** Every compressed address other than [::1] gets the canonical key of
    its expansion [left ++ zeros ++ right]. *)
Theorem ipv6_compressed_key (left right : list string) :
  Forall (fun g => Spec.is_group_text g = true) left ->
  Forall (fun g => Spec.is_group_text g = true) right ->
  (List.length left + List.length right <= 8)%nat ->
  Spec.compressed left right <> "::1" ->
  ipToPaddedDecimal (Spec.compressed left right)
  = inr (Spec.canonical_key
           (Spec.ipv6_value
              (map Spec.group_value
                 (left ++ repeat "0000" (8 - List.length left - List.length right)
                       ++ right)))).
Proof.
  intros HL HR Hlen Hnot.
  destruct (expanded_groups left right HL HR Hlen) as [Hlen8 Hgroups].
  pose proof (groups_value_bound _ Hlen8 Hgroups) as Hbound.
  pose proof (sum_of_groups_compressed left right HL HR Hlen) as Hsum.
  destruct (compressed_has_pair left right) as [_ Hcolon].
  assert (H4 : isIPv4 (Spec.compressed left right) = false).
  { destruct (isIPv4 _) eqn:E; [|reflexivity].
    apply isIPv4_no_colon in E. congruence. }
  unfold ipToPaddedDecimal. rewrite H4, isIPv6_is_includes, Hcolon.
  assert (H6 : ipv6ToDecimal (Spec.compressed left right)
               = inr (Spec.ipv6_value
                        (map Spec.group_value
                           (left ++ repeat "0000"
                                      (8 - List.length left - List.length right)
                                 ++ right)))).
  { unfold ipv6ToDecimal.
    rewrite (proj2 (String.eqb_neq _ _) Hnot).
    destruct (Spec.compressed left right =? "::")%string eqn:E; [|exact Hsum].
    apply String.eqb_eq in E. rewrite E in Hsum.
    rewrite <- Hsum. reflexivity. }
  rewrite H6. cbn [bind]. unfold ret. f_equal.
  exact (padded_is_canonical_key _ Hbound).
Qed.

Lemma ipv6_compressed_key_witness :
  ipToPaddedDecimal "2001:4860:4860::8888"
  = inr (Spec.canonical_key
           (Spec.ipv6_value
              (map Spec.group_value
                 ["2001"; "4860"; "4860"; "0000"; "0000"; "0000"; "0000"; "8888"]))).
Proof.
  apply (ipv6_compressed_key ["2001"; "4860"; "4860"] ["8888"]).
  - repeat constructor.
  - repeat constructor.
  - cbn. lia.
  - discriminate.
Defined.

(** ** The routes *)

Lemma trimEnd_idempotent (s : string) : trimEnd (trimEnd s) = trimEnd s.
Proof.
  induction s as [|c s IH]; [reflexivity|]. cbn [trimEnd].
  destruct (is_white_space c && (trimEnd s =? "")%string) eqn:E; [reflexivity|].
  cbn [trimEnd]. now rewrite IH, E.
Qed.

Lemma trimStart_head (c : ascii) (s : string) :
  is_white_space c = false -> trimStart (String c s) = String c s.
Proof. intros H. cbn [trimStart]. now rewrite H. Qed.

Lemma trimStart_result (s : string) :
  trimStart s = ""
  \/ exists c t, trimStart s = String c t /\ is_white_space c = false.
Proof.
  induction s as [|c s IH]; [now left|]. cbn [trimStart].
  destruct (is_white_space c) eqn:E; [exact IH|]. right. eauto.
Qed.

(** Trimming twice is trimming once. *)
Lemma trim_idempotent (s : string) : trim (trim s) = trim s.
Proof.
  unfold trim. destruct (trimStart_result s) as [->|(c & t & -> & Hc)].
  - reflexivity.
  - assert (E : trimEnd (String c t) = String c (trimEnd t))
      by (cbn [trimEnd]; now rewrite Hc).
    rewrite E, (trimStart_head c _ Hc), <- E. apply trimEnd_idempotent.
Qed.

Lemma trim_of_empty (s : string) : s = "" -> trim s = "".
Proof. now intros ->. Qed.

(** White space around an address that is not blank does not change what
    [/ip/:ip] does: the thrown error or the response, and the state, are
    those of the trimmed address.  A blank address is refused with the
    message 'IP address is required' and is echoed as it came, not
    trimmed, so that the replies to two blank addresses differ. *)
Theorem get_ip_ignores_surrounding_space (ip : string) (w : World) :
  (trim ip <> "" -> get_ip (Some ip) w = get_ip (Some (trim ip)) w)
  /\ (trim ip = "" ->
      get_ip (Some ip) w
      = (inl (Http InvalidIPAddress
                [("ip", ip); ("message", "IP address is required")]), w)).
Proof.
  unfold get_ip. rewrite trim_idempotent. split.
  - intros Hne. apply String.eqb_neq in Hne. rewrite Hne, !orb_false_r.
    destruct (ip =? "")%string eqn:E0.
    + apply String.eqb_eq in E0. subst ip. discriminate Hne.
    + reflexivity.
  - intros ->. now rewrite orb_true_r.
Qed.

Lemma get_ip_ignores_surrounding_space_witness :
  get_ip (Some " 8.8.8.8 ") Sample.world = get_ip (Some "8.8.8.8") Sample.world
  /\ fst (get_ip (Some " ") Sample.world)
     = inl (Http InvalidIPAddress [("ip", " "); ("message", "IP address is required")])
  /\ fst (get_ip (Some " ") Sample.world) <> fst (get_ip (Some "") Sample.world).
Proof.
  split; [|split].
  - apply (proj1 (get_ip_ignores_surrounding_space " 8.8.8.8 " Sample.world)).
    discriminate.
  - rewrite (proj2 (get_ip_ignores_surrounding_space " " Sample.world) eq_refl).
    reflexivity.
  - discriminate.
Defined.

(** The two single-address routes differ only in how they refuse a missing
    or blank address: on every other request [/lookup?ip=] does exactly
    what [/ip/:ip] does. *)
Theorem get_lookup_agrees_with_get_ip (ip : string) (w : World) :
  trim ip <> "" -> get_lookup (Some ip) w = get_ip (Some ip) w.
Proof.
  intros Hne. unfold get_lookup, get_ip.
  apply String.eqb_neq in Hne. rewrite Hne, orb_false_r.
  destruct (ip =? "")%string eqn:E0; [|reflexivity].
  apply String.eqb_eq in E0. subst ip. discriminate Hne.
Qed.

Lemma get_lookup_agrees_with_get_ip_witness :
  get_lookup (Some " 8.8.8.8 ") Sample.world = get_ip (Some " 8.8.8.8 ") Sample.world.
Proof.
  apply (get_lookup_agrees_with_get_ip " 8.8.8.8 " Sample.world).
  discriminate.
Defined.

(** The reply of [/ip/:ip] to an address that is not blank and, trimmed,
    not longer than 45: 200 with the geolocation when the lookup matches,
    404 when it finds nothing, 400 when the lookup is rejected with a
    message that contains 'Invalid IP address', and 500 for every other
    rejection, the store's failures included. *)
Lemma ip_route_cases (ip : string) (w : World) :
  trim ip <> "" -> (String.length (trim ip) <= 45)%nat ->
  fst (ip_route (Some ip) w)
  = match fst (lookupIP (trim ip) w) with
    | Fulfilled (Some geolocation) => Success (trim ip) geolocation
    | Fulfilled None =>
        Failure 404 "IP address not found" "IP_NOT_FOUND" [("ip", trim ip)]
    | Rejected error =>
        if includes (message error) "Invalid IP address"
        then Failure 400 "Invalid IP address" "INVALID_IP_ADDRESS"
                     [("ip", trim ip); ("error", message error)]
        else Failure 500 "Internal Server Error" "INTERNAL_ERROR" []
    end.
Proof.
  intros Hne Hlen. unfold ip_route, get_ip.
  apply String.eqb_neq in Hne. rewrite Hne, orb_false_r.
  destruct (ip =? "")%string eqn:E0.
  { apply String.eqb_eq in E0. subst ip. discriminate Hne. }
  replace (45 <? String.length (trim ip))%nat with false
    by (symmetry; apply Nat.ltb_ge; exact Hlen).
  destruct (lookupIP (trim ip) w) as [[[geolocation|]|error] w1]; cbn [fst].
  - reflexivity.
  - reflexivity.
  - unfold classify. cbn [thrown_message].
    destruct (includes (message error) "Invalid IP address"); reflexivity.
Qed.


Lemma lookupIP_rejected_state (ip : string) (w : World) (e : JsError) :
  ipToPaddedDecimal ip = inl e ->
  lookupIP ip w = (Rejected e, with_log w (LogError "Error looking up IP geolocation")).
Proof. intros H. unfold lookupIP. now rewrite H. Qed.

(** A string without a colon that is not a dotted quad is answered 400
    INVALID_IP_ADDRESS, and the request never reaches the database: no
    client is created and the files are not read. *)
Theorem colonless_garbage_is_bad_request (ip : string) (w : World) :
  trim ip <> "" -> (String.length (trim ip) <= 45)%nat ->
  isIPv4 (trim ip) = false -> includes (trim ip) ":" = false ->
  fst (ip_route (Some ip) w)
  = Failure 400 "Invalid IP address" "INVALID_IP_ADDRESS"
            [("ip", trim ip); ("error", "Invalid IP address format")]
  /\ client (snd (ip_route (Some ip) w)) = client w.
Proof.
  intros Hne Hlen H4 H6.
  pose proof (invalid_format_without_colon (trim ip) H4 H6) as Hk.
  split.
  - rewrite (ip_route_cases ip w Hne Hlen), lookupIP_outcome, Hk. reflexivity.
  - unfold ip_route, get_ip.
    apply String.eqb_neq in Hne. rewrite Hne, orb_false_r.
    destruct (ip =? "")%string eqn:E0.
    { apply String.eqb_eq in E0. subst ip. discriminate Hne. }
    replace (45 <? String.length (trim ip))%nat with false
      by (symmetry; apply Nat.ltb_ge; exact Hlen).
    rewrite (lookupIP_rejected_state _ w _ Hk). reflexivity.
Qed.

Lemma colonless_garbage_is_bad_request_witness :
  fst (ip_route (Some "invalid-ip") Sample.world)
  = Failure 400 "Invalid IP address" "INVALID_IP_ADDRESS"
            [("ip", "invalid-ip"); ("error", "Invalid IP address format")]
  /\ client (snd (ip_route (Some "invalid-ip") Sample.world)) = client Sample.world.
Proof.
  apply (colonless_garbage_is_bad_request "invalid-ip" Sample.world).
  - discriminate.
  - cbn. lia.
  - reflexivity.
  - reflexivity.
Defined.

Lemma trimEnd_no_space (s : string) :
  all_chars (fun c => negb (is_white_space c)) s = true -> trimEnd s = s.
Proof.
  induction s as [|c s IH]; cbn [all_chars trimEnd]; intros H; [reflexivity|].
  apply andb_true_iff in H as [Hc Hs]. apply negb_true_iff in Hc.
  now rewrite Hc, IH.
Qed.

Lemma trim_no_space (s : string) :
  all_chars (fun c => negb (is_white_space c)) s = true -> trim s = s.
Proof.
  intros H. unfold trim.
  assert (Hs : trimStart s = s).
  { destruct s as [|c s]; [reflexivity|]. cbn [all_chars] in H.
    apply andb_true_iff in H as [Hc _]. apply negb_true_iff in Hc.
    now apply trimStart_head. }
  rewrite Hs. now apply trimEnd_no_space.
Qed.

Lemma digit_is_not_space (c : ascii) : is_digit c = true -> is_white_space c = false.
Proof. unfold is_digit, is_white_space. lia. Qed.

Lemma dotted_trim_length (p1 p2 p3 p4 : string) :
  Spec.is_octet_text p1 = true -> Spec.is_octet_text p2 = true ->
  Spec.is_octet_text p3 = true -> Spec.is_octet_text p4 = true ->
  trim (Spec.dotted p1 p2 p3 p4) = Spec.dotted p1 p2 p3 p4
  /\ (7 <= String.length (Spec.dotted p1 p2 p3 p4) <= 15)%nat.
Proof.
  intros H1 H2 H3 H4.
  apply octet_text_facts in H1 as (D1 & L1 & _), H2 as (D2 & L2 & _),
    H3 as (D3 & L3 & _), H4 as (D4 & L4 & _).
  split.
  - apply trim_no_space.
    assert (Hd : forall p, all_chars is_digit p = true ->
                   all_chars (fun c => negb (is_white_space c)) p = true).
    { induction p as [|c p IH]; cbn [all_chars]; [reflexivity|].
      intros H. apply andb_true_iff in H as [Hc Hp].
      now rewrite (digit_is_not_space c Hc), IH. }
    unfold Spec.dotted. rewrite !all_chars_append.
    rewrite (Hd p1 D1), (Hd p2 D2), (Hd p3 D3), (Hd p4 D4). reflexivity.
  - unfold Spec.dotted. rewrite !append_length. cbn [String.length]. lia.
Qed.

(** End to end, for a dotted quad whose first octet is below 128: over a
    table with its primary key whose ranges are well formed and do not
    overlap, if a stored range contains the value of the address, the
    route answers 200 with the address and the ten attributes of that
    range, column by column. *)
Theorem route_finds_stored_range
    (w : World) (table : list DbRow.t) (r : DbRow.t) (p1 p2 p3 p4 : string) :
  Spec.is_octet_text p1 = true -> Spec.is_octet_text p2 = true ->
  Spec.is_octet_text p3 = true -> Spec.is_octet_text p4 = true ->
  decimal_value 0 p1 < 128 ->
  files w (database_url w) = Table table ->
  NoDup (map DbRow.ip_from_padded table) ->
  (forall r', In r' table -> Spec.well_formed r') ->
  Spec.non_overlapping table ->
  In r table ->
  Spec.contains r (Spec.ipv4_value (decimal_value 0 p1) (decimal_value 0 p2)
                                   (decimal_value 0 p3) (decimal_value 0 p4)) ->
  fst (ip_route (Some (Spec.dotted p1 p2 p3 p4)) w)
  = Success (Spec.dotted p1 p2 p3 p4)
            (mkResult (DbRow.ip_from_dec r) (DbRow.ip_to_dec r)
                      (DbRow.country_code r) (DbRow.country_name r)
                      (DbRow.region_name r) (DbRow.city_name r)
                      (DbRow.latitude r) (DbRow.longitude r)
                      (DbRow.zip_code r) (DbRow.time_zone r)).
Proof.
  intros H1 H2 H3 H4 Hlow Hfile Hpk Hwf Hno Hin Hc.
  destruct (dotted_trim_length p1 p2 p3 p4 H1 H2 H3 H4) as [Htrim Hlen].
  pose proof (ipv4_key_low_octet p1 p2 p3 p4 H1 H2 H3 H4 Hlow) as Hk.
  set (v := Spec.ipv4_value (decimal_value 0 p1) (decimal_value 0 p2)
                            (decimal_value 0 p3) (decimal_value 0 p4)) in *.
  assert (Hv : 0 <= v < 10 ^ 39).
  { apply octet_text_facts in H1 as (_ & _ & V1), H2 as (_ & _ & V2),
      H3 as (_ & _ & V3), H4 as (_ & _ & V4).
    unfold v, Spec.ipv4_value. lia. }
  destruct (canonical_key_is_canonical v Hv) as [Hcan Hval].
  rewrite ip_route_cases; rewrite Htrim.
  - rewrite (lookupIP_on_table w _ _ table Hk Hfile).
    rewrite <- Hval in Hc.
    destruct (contained_is_predecessor table _ r Hcan Hwf Hno Hin Hc) as [Hpred Hle].
    now rewrite (statement_of_predecessor table _ r Hpk Hpred), Hle.
  - intros E. rewrite E in Hlen. cbn in Hlen. lia.
  - lia.
Qed.

Lemma route_finds_stored_range_witness :
  fst (ip_route (Some "8.8.8.8") Sample.ranges_world)
  = Success "8.8.8.8"
            (mkResult "134744064" "134744319"
                      (Some "US") (Some "United States of America")
                      (Some "California") (Some "Mountain View")
                      (Some "37.386") (Some "-122.084")
                      (Some "94035") (Some "-07:00"))
  /\ fst (ip_route (Some "0.0.0.1") Sample.ranges_world)
     = Success "0.0.0.1"
               (mkResult "1" "1" None None None None None None None None).
Proof.
  split.
  - apply (route_finds_stored_range Sample.ranges_world Sample.ranges
             Sample.mountain_view "8" "8" "8" "8"); try reflexivity.
    + exact ranges_primary_key.
    + exact ranges_well_formed.
    + exact ranges_non_overlapping.
    + cbn. tauto.
    + vm_compute. split; discriminate.
  - apply (route_finds_stored_range Sample.ranges_world Sample.ranges
             Sample.loopback "0" "0" "0" "1"); try reflexivity.
    + exact ranges_primary_key.
    + exact ranges_well_formed.
    + exact ranges_non_overlapping.
    + cbn. tauto.
    + vm_compute. split; discriminate.
Defined.

(** ** The batch route *)

Lemma valid_ips_of_strings (ss : list string) :
  Forall (fun s => (String.length (trim s) <= 45)%nat) ss ->
  valid_ips (map JString ss) = inr (map trim ss).
Proof.
  induction ss as [|s ss IH]; intros HF; [reflexivity|].
  inversion HF as [|? ? Hs HF']; subst.
  cbn [map valid_ips valid_ip].
  replace (45 <? String.length (trim s))%nat with false
    by (symmetry; apply Nat.ltb_ge; exact Hs).
  now rewrite IH.
Qed.

Lemma combine_map_self (A B : Type) (f : A -> B) (l : list A) :
  combine l (map f l) = map (fun a => (a, f a)) l.
Proof. induction l as [|a l IH]; cbn; [reflexivity | now rewrite IH]. Qed.

(** A batch of one to a hundred strings, none longer than 45 once trimmed,
    always succeeds, whatever the addresses are and whether or not the
    store can be read: the reply pairs each trimmed input, in order, with
    the outcome of looking it up alone, null for a rejected lookup. *)
Theorem batch_of_strings_succeeds
    (fields : list (string * Json)) (ss : list string) (w : World) :
  property fields "ips" = Some (JArray (map JString ss)) ->
  (1 <= List.length ss <= 100)%nat ->
  Forall (fun s => (String.length (trim s) <= 45)%nat) ss ->
  fst (post_batch (Some (JObject fields)) w)
  = inr (map (fun s => (trim s,
                        match fst (lookupIP (trim s) w) with
                        | Fulfilled value => value
                        | Rejected _ => None
                        end)) ss).
Proof.
  intros Hips Hlen Hshort. unfold post_batch. rewrite Hips, length_map.
  replace (List.length ss =? 0)%nat with false
    by (symmetry; apply Nat.eqb_neq; lia).
  replace (100 <? List.length ss)%nat with false
    by (symmetry; apply Nat.ltb_ge; lia).
  rewrite (valid_ips_of_strings ss Hshort).
  pose proof (lookupIPs_is_map (map trim ss) w) as Hmap.
  destruct (lookupIPs (map trim ss) w) as [results w1]. cbn [fst] in *.
  rewrite Hmap, combine_map_self, map_map. reflexivity.
Qed.

Lemma batch_of_strings_succeeds_witness :
  fst (post_batch
         (Some (JObject [("ips", JArray [JString "8.8.8.8"; JString " not-an-ip";
                                         JString "1::2::3"])]))
         Sample.world)
  = inr [("8.8.8.8", Some (project Sample.mountain_view));
         ("not-an-ip", None); ("1::2::3", None)].
Proof.
  refine (eq_trans
            (batch_of_strings_succeeds
               [("ips", JArray [JString "8.8.8.8"; JString " not-an-ip";
                                JString "1::2::3"])]
               ["8.8.8.8"; " not-an-ip"; "1::2::3"] Sample.world eq_refl _ _) _).
  - cbn. lia.
  - repeat constructor.
  - reflexivity.
Defined.

(** A batch with an item that may not be looked up is refused as a whole,
    and before any lookup: the state is untouched. *)
Theorem batch_refused_before_lookup
    (fields : list (string * Json)) (ips : list Json) (err : Thrown) (w : World) :
  property fields "ips" = Some (JArray ips) ->
  valid_ips ips = inl err ->
  (List.length ips <= 100)%nat ->
  post_batch (Some (JObject fields)) w = (inl err, w).
Proof.
  intros Hips Herr Hlen. unfold post_batch. rewrite Hips.
  destruct ips as [|ip ips]; [discriminate Herr|].
  cbn [List.length Nat.eqb].
  replace (100 <? S (List.length ips))%nat with false
    by (symmetry; apply Nat.ltb_ge; exact Hlen).
  now rewrite Herr.
Qed.

Lemma batch_refused_before_lookup_witness :
  post_batch (Some (JObject [("ips", JArray [JString "8.8.8.8"; JNumber 7])]))
             Sample.world
  = (inl (Js (mkError "TypeError" "ip.trim is not a function")), Sample.world).
Proof.
  apply (batch_refused_before_lookup
           [("ips", JArray [JString "8.8.8.8"; JNumber 7])]
           [JString "8.8.8.8"; JNumber 7]); try reflexivity.
  cbn. lia.
Defined.

(** ** The credentials check *)

(** A request reaches the routes behind the check exactly when both
    headers are present and not empty and equal the configured key and
    secret; with an empty key or secret in the configuration no request
    passes. *)
Theorem credentials_accepted_iff (env : Env) (x_api_key x_api_secret : option string) :
  validateAPICredentials env (extractAPIKeyAndSecret x_api_key x_api_secret) = None
  <-> x_api_key = Some (API_KEY env) /\ x_api_secret = Some (API_SECRET env)
      /\ API_KEY env <> "" /\ API_SECRET env <> "".
Proof.
  unfold validateAPICredentials, extractAPIKeyAndSecret. cbn [apiKey apiSecret].
  split.
  - destruct x_api_key as [[|a k]|]; cbn [or_undefined]; try discriminate.
    destruct x_api_secret as [[|b s]|]; cbn [or_undefined]; try discriminate.
    destruct (String.eqb_spec (String a k) (API_KEY env)) as [Ek|]; cbn [negb];
      [|discriminate].
    destruct (String.eqb_spec (String b s) (API_SECRET env)) as [Es|]; cbn [negb];
      [|discriminate].
    intros _. rewrite <- Ek, <- Es. repeat split; discriminate.
  - intros (-> & -> & Hk & Hs).
    destruct (API_KEY env) as [|a k]; [congruence|].
    destruct (API_SECRET env) as [|b s]; [congruence|].
    cbn [or_undefined]. now rewrite !String.eqb_refl.
Qed.

(** ** The loader's padded columns *)

Lemma substring_length (n m : nat) (s : string) :
  String.length (substring n m s) = Nat.min m (String.length s - n).
Proof.
  revert n m. induction s as [|c s IH]; intros n m.
  - destruct n, m; reflexivity.
  - destruct n as [|n]; cbn [substring String.length].
    + destruct m as [|m]; [reflexivity|]. cbn [String.length].
      rewrite IH. rewrite Nat.sub_0_r. reflexivity.
    + rewrite IH. reflexivity.
Qed.

(** Whatever the text of the CSV column, the padded column has 39
    characters: the CHECK constraints on the length never fail. *)
Theorem loader_padded_length (c : string) :
  String.length (Loader.padded c) = 39%nat.
Proof.
  unfold Loader.padded, Loader.substr.
  rewrite append_length. change (String.length Loader.ZEROS) with 39%nat.
  replace (-39 <? 0) with true by reflexivity.
  replace (Z.of_nat (39 + String.length c) + -39 <? 0) with false
    by (symmetry; apply Z.ltb_ge; lia).
  rewrite substring_length, append_length.
  change (String.length Loader.ZEROS) with 39%nat. lia.
Qed.

Lemma substring_whole (s : string) : substring 0 (String.length s) s = s.
Proof. induction s as [|c s IH]; cbn; [reflexivity | now rewrite IH]. Qed.

Lemma substring_skip_zeros (n k m : nat) (c : string) :
  (n <= k)%nat ->
  substring n m (repeat_to "0" "" k ++ c) = substring 0 m (repeat_to "0" "" (k - n) ++ c).
Proof.
  revert k. induction n as [|n IH]; intros k Hk.
  - now rewrite Nat.sub_0_r.
  - destruct k as [|k]; [lia|].
    change (repeat_to "0" "" (S k)) with (String "0" (repeat_to "0" "" k)).
    cbn [append substring]. rewrite IH by lia. reflexivity.
Qed.

(** On a text of at most 39 characters the loader pads as the codec does. *)
Lemma loader_padded_is_padStart (c : string) :
  (String.length c <= 39)%nat -> Loader.padded c = padStart c 39 "0".
Proof.
  intros Hlen. unfold Loader.padded, Loader.substr.
  rewrite append_length. change (String.length Loader.ZEROS) with 39%nat.
  replace (-39 <? 0) with true by reflexivity.
  replace (Z.of_nat (39 + String.length c) + -39 <? 0) with false
    by (symmetry; apply Z.ltb_ge; lia).
  replace (Z.to_nat (Z.of_nat (39 + String.length c) + -39))
    with (String.length c) by lia.
  change (Z.to_nat 39) with 39%nat.
  change Loader.ZEROS with (repeat_to "0" "" 39).
  rewrite substring_skip_zeros by assumption.
  unfold padStart. destruct (39 <=? String.length c)%nat eqn:E.
  - apply Nat.leb_le in E. replace (39 - String.length c)%nat with 0%nat by lia.
    cbn [repeat_to append]. replace 39%nat with (String.length c) by lia.
    apply substring_whole.
  - cbn [String.eqb Ascii.eqb Bool.eqb]. rewrite zeros_start.
    apply Nat.leb_gt in E.
    replace 39%nat
      with (String.length (repeat_to "0" "" (39 - String.length c) ++ c)) at 1.
    + apply substring_whole.
    + rewrite append_length, repeat_to_length. lia.
Qed.

(** The loader and the codec agree: the padded column computed from the
    decimal text of a value below 10^39 is the canonical key of the value,
    which is the key the codec computes for an address of that value. *)
Theorem loader_key_is_canonical (v : Z) :
  0 <= v < 10 ^ 39 ->
  Loader.padded (toString v) = Spec.canonical_key v
  /\ Loader.padded (toString v) = padStart (toString v) 39 "0".
Proof.
  intros Hv.
  assert (Hlen : (String.length (toString v) <= 39)%nat).
  { unfold toString. replace (v <? 0) with false by (symmetry; apply Z.ltb_ge; lia).
    apply digits_of_length; [lia | exact Hv]. }
  rewrite (loader_padded_is_padStart _ Hlen). split; [|reflexivity].
  now apply padded_is_canonical_key.
Qed.

Lemma loader_key_is_canonical_witness :
  Loader.padded "134744064" = "000000000000000000000000000000134744064".
Proof.
  refine (eq_trans (proj1 (loader_key_is_canonical 134744064 _)) _).
  - split; [discriminate | reflexivity].
  - reflexivity.
Defined.

(** ** Too many groups around [::] *)

Lemma compressed_is_not_special (left right : list string) :
  Forall (fun g => Spec.is_group_text g = true) left ->
  Forall (fun g => Spec.is_group_text g = true) right ->
  (2 <= List.length left + List.length right)%nat ->
  Spec.compressed left right <> "::1" /\ Spec.compressed left right <> "::".
Proof.
  intros HL HR Hlen.
  pose proof (split_compressed left right HL HR) as Hsplit.
  pose proof (parts_of_colon_hex left HL) as PL.
  pose proof (parts_of_colon_hex right HR) as PR.
  split; intros E; rewrite E in Hsplit; injection Hsplit as EL ER;
    rewrite <- EL in PL; rewrite <- ER in PR; subst left right;
    cbn in Hlen; lia.
Qed.

(** With more than eight groups around [::] the array of missing zeros has
    a negative length: the codec fails with a RangeError, not with its own
    [Invalid IP address format]. *)
Theorem compressed_too_many_groups (left right : list string) :
  Forall (fun g => Spec.is_group_text g = true) left ->
  Forall (fun g => Spec.is_group_text g = true) right ->
  (8 < List.length left + List.length right)%nat ->
  ipToPaddedDecimal (Spec.compressed left right)
  = inl (mkError "RangeError" "Invalid array length").
Proof.
  intros HL HR Hlen.
  destruct (compressed_is_not_special left right HL HR ltac:(lia)) as [N1 N0].
  destruct (compressed_has_pair left right) as [Hpair Hcolon].
  assert (H4 : isIPv4 (Spec.compressed left right) = false).
  { destruct (isIPv4 _) eqn:E; [|reflexivity].
    apply isIPv4_no_colon in E. congruence. }
  unfold ipToPaddedDecimal. rewrite H4, isIPv6_is_includes, Hcolon.
  unfold ipv6ToDecimal.
  rewrite (proj2 (String.eqb_neq _ _) N1), (proj2 (String.eqb_neq _ _) N0).
  unfold sum_of_groups, normalizeIPv6.
  rewrite Hpair, split_compressed by assumption.
  cbn [nth_error]. rewrite !parts_of_colon_hex by assumption.
  unfold Array_fill.
  replace (8 - Z.of_nat (List.length left) - Z.of_nat (List.length right) <? 0)
    with true by (symmetry; apply Z.ltb_lt; lia).
  reflexivity.
Qed.

Lemma compressed_too_many_groups_witness :
  ipToPaddedDecimal "1:2:3:4:5::6:7:8:9"
  = inl (mkError "RangeError" "Invalid array length").
Proof.
  apply (compressed_too_many_groups ["1"; "2"; "3"; "4"; "5"] ["6"; "7"; "8"; "9"]).
  - repeat constructor.
  - repeat constructor.
  - cbn. lia.
Defined.

(** ** Keys against the stored ranges *)


Lemma ipv4_key_high_octet_witness :
  exists k,
    ipToPaddedDecimal "200.1.2.3" = inr k
    /\ k = padStart (toString (Spec.ipv4_value 200 1 2 3 - 2 ^ 32)) 39 "0"
    /\ all_chars is_digit k = false.
Proof.
  apply (ipv4_key_high_octet "200" "1" "2" "3"); try reflexivity.
  discriminate.
Defined.

(** A key that lies in no stored range is NotFound: over well-formed
    ranges no primary key and no disjointness is needed for that. *)
Theorem uncovered_key_not_found
    (w : World) (ip k : string) (table : list DbRow.t) :
  ipToPaddedDecimal ip = inr k ->
  files w (database_url w) = Table table ->
  Spec.is_canonical k = true ->
  (forall r, In r table -> Spec.well_formed r) ->
  (forall r, In r table -> ~ Spec.contains r (Spec.key_value k)) ->
  fst (lookupIP ip w) = Fulfilled None.
Proof.
  intros Hk Hfile Hcan Hwf Hnone.
  rewrite (lookupIP_on_table w ip k table Hk Hfile).
  now rewrite uncovered_key_statement.
Qed.

Lemma uncovered_key_not_found_witness :
  fst (lookupIP "9.9.9.9" Sample.world) = Fulfilled None.
Proof.
  apply (uncovered_key_not_found Sample.world "9.9.9.9"
           "000000000000000000000000000000151587081" Sample.table);
    try reflexivity.
  - intros r [<-|[]]. unfold Spec.well_formed. vm_compute. intuition discriminate.
  - intros r [<-|[]]. vm_compute. intros [_ H]. now apply H.
Defined.

Lemma digits_above_signed (j : nat) (c rest : string) :
  all_chars is_digit c = true -> (j < String.length c)%nat ->
  String.compare c (repeat_to "0" "" j ++ String "-" rest) = Gt.
Proof.
  revert c. induction j as [|j IH]; intros [|d c]; cbn [String.length all_chars];
    intros Hd Hlen; try lia; apply andb_true_iff in Hd as [Hd Hc].
  - cbn [repeat_to append String.compare]. rewrite ascii_compare_code.
    apply is_digit_range in Hd. unfold digit_value in Hd.
    change (code "-") with 45.
    destruct (Z.compare_spec (code d) 45); try lia. reflexivity.
  - change (repeat_to "0" "" (S j)) with (String "0" (repeat_to "0" "" j)).
    cbn [append String.compare]. rewrite ascii_compare_code.
    apply is_digit_range in Hd. unfold digit_value in Hd.
    change (code "0") with 48.
    destruct (Z.compare_spec (code d) 48); try lia; [|reflexivity].
    apply IH; [assumption | lia].
Qed.

(** An IPv4 address whose first octet is 128 or more is never found: its
    key carries a minus sign and sorts below every stored start, whatever
    ranges the table holds. *)
Theorem high_octet_never_found
    (w : World) (table : list DbRow.t) (p1 p2 p3 p4 : string) :
  Spec.is_octet_text p1 = true -> Spec.is_octet_text p2 = true ->
  Spec.is_octet_text p3 = true -> Spec.is_octet_text p4 = true ->
  128 <= decimal_value 0 p1 ->
  files w (database_url w) = Table table ->
  (forall r, In r table -> Spec.is_canonical (DbRow.ip_from_padded r) = true) ->
  fst (lookupIP (Spec.dotted p1 p2 p3 p4) w) = Fulfilled None.
Proof.
  intros H1 H2 H3 H4 Hhigh Hfile Hcan.
  destruct (ipToPaddedDecimal_dotted p1 p2 p3 p4 H1 H2 H3 H4) as [_ Hk].
  rewrite (lookupIP_on_table w _ _ table Hk Hfile).
  rewrite statement_without_candidate; [reflexivity|].
  intros r Hin. specialize (Hcan r Hin). unfold Spec.is_canonical in Hcan.
  apply andb_true_iff in Hcan as [Hlen Hdig]. apply Nat.eqb_eq in Hlen.
  apply octet_text_facts in H1 as (_ & _ & V1), H2 as (_ & _ & V2),
    H3 as (_ & _ & V3), H4 as (_ & _ & V4).
  destruct (shl_octet _ V1) as (-> & _ & _).
  destruct (shl_octet _ V2) as (_ & -> & _).
  destruct (shl_octet _ V3) as (_ & _ & ->).
  replace (decimal_value 0 p1 <? 128) with false by (symmetry; apply Z.ltb_ge; lia).
  set (n := decimal_value 0 p1 * 2 ^ 24 - 2 ^ 32 + decimal_value 0 p2 * 2 ^ 16
            + decimal_value 0 p3 * 2 ^ 8 + decimal_value 0 p4).
  assert (Hneg : - 10 ^ Z.of_nat 10 < n < 0).
  { change (10 ^ Z.of_nat 10) with 10000000000. unfold n. lia. }
  pose proof (toString_length n 10 ltac:(lia) ltac:(lia)) as Hshort.
  unfold SQL.le, String.leb.
  unfold padStart.
  replace (39 <=? String.length (toString n))%nat with false
    by (symmetry; apply Nat.leb_gt; lia).
  cbn [String.eqb Ascii.eqb Bool.eqb]. rewrite zeros_start.
  revert Hshort. unfold toString. rewrite (proj2 (Z.ltb_lt n 0) (proj2 Hneg)).
  intros Hshort. rewrite digits_above_signed;
    [reflexivity | assumption | cbn [String.length]; lia].
Qed.

Lemma high_octet_never_found_witness :
  fst (lookupIP "200.1.2.3"
         (mkWorld None None
            (fun _ => Table [DbRow.mk "0" "340282366920938463463374607431768211455"
                               "000000000000000000000000000000000000000"
                               "340282366920938463463374607431768211455"
                               None None None None None None None None])
            []))
  = Fulfilled None.
Proof.
  apply (high_octet_never_found
           (mkWorld None None
              (fun _ => Table [DbRow.mk "0" "340282366920938463463374607431768211455"
                                 "000000000000000000000000000000000000000"
                                 "340282366920938463463374607431768211455"
                                 None None None None None None None None])
              [])
           [DbRow.mk "0" "340282366920938463463374607431768211455"
              "000000000000000000000000000000000000000"
              "340282366920938463463374607431768211455"
              None None None None None None None None]
           "200" "1" "2" "3"); try reflexivity.
  - discriminate.
  - intros r [<-|[]]. reflexivity.
Defined.

(** On dotted quads whose first octet is below 128 the encoding preserves
    order: a smaller value gives a key that sorts strictly first. *)
Theorem ipv4_low_keys_monotone (p1 p2 p3 p4 q1 q2 q3 q4 : string) :
  Spec.is_octet_text p1 = true -> Spec.is_octet_text p2 = true ->
  Spec.is_octet_text p3 = true -> Spec.is_octet_text p4 = true ->
  Spec.is_octet_text q1 = true -> Spec.is_octet_text q2 = true ->
  Spec.is_octet_text q3 = true -> Spec.is_octet_text q4 = true ->
  decimal_value 0 p1 < 128 -> decimal_value 0 q1 < 128 ->
  Spec.ipv4_value (decimal_value 0 p1) (decimal_value 0 p2)
                  (decimal_value 0 p3) (decimal_value 0 p4)
  < Spec.ipv4_value (decimal_value 0 q1) (decimal_value 0 q2)
                    (decimal_value 0 q3) (decimal_value 0 q4) ->
  exists k k',
    ipToPaddedDecimal (Spec.dotted p1 p2 p3 p4) = inr k
    /\ ipToPaddedDecimal (Spec.dotted q1 q2 q3 q4) = inr k'
    /\ (k <? k')%string = true.
Proof.
  intros P1 P2 P3 P4 Q1 Q2 Q3 Q4 Lp Lq Hlt.
  exists (Spec.canonical_key
            (Spec.ipv4_value (decimal_value 0 p1) (decimal_value 0 p2)
                             (decimal_value 0 p3) (decimal_value 0 p4))),
         (Spec.canonical_key
            (Spec.ipv4_value (decimal_value 0 q1) (decimal_value 0 q2)
                             (decimal_value 0 q3) (decimal_value 0 q4))).
  split; [now apply ipv4_key_low_octet|]. split; [now apply ipv4_key_low_octet|].
  apply octet_text_facts in P1 as (_ & _ & V1), P2 as (_ & _ & V2),
    P3 as (_ & _ & V3), P4 as (_ & _ & V4), Q1 as (_ & _ & W1),
    Q2 as (_ & _ & W2), Q3 as (_ & _ & W3), Q4 as (_ & _ & W4).
  apply canonical_key_monotone.
  - unfold Spec.ipv4_value. lia.
  - exact Hlt.
  - unfold Spec.ipv4_value. lia.
Qed.

Lemma ipv4_low_keys_monotone_witness :
  exists k k',
    ipToPaddedDecimal "9.255.255.255" = inr k
    /\ ipToPaddedDecimal "10.0.0.0" = inr k'
    /\ (k <? k')%string = true.
Proof.
  apply (ipv4_low_keys_monotone "9" "255" "255" "255" "10" "0" "0" "0");
    reflexivity.
Defined.

(** ** The lazily created client *)

Lemma getDatabase_without_client (w : World) :
  client w = None ->
  getDatabase w
  = match files w ("file:" ++ dbPath w) with
    | Unopenable e => (inl e, w)
    | _ =>
        (inr (mkClient ("file:" ++ dbPath w)),
         mkWorld (Some (mkClient ("file:" ++ dbPath w))) (DATABASE_PATH w) (files w)
                 (log w ++ [LogInfo "Database client initialized"]))
    end.
Proof.
  intros Ec. unfold getDatabase, createClient. rewrite Ec.
  destruct (files w ("file:" ++ dbPath w)); reflexivity.
Qed.

(** [getDatabase] creates the client at most once.  When a call returns a
    client, that client is stored, the initialisation is logged only if the
    call made the client, and a second call returns the same client and
    leaves the state, log included, as it is, whatever DATABASE_PATH has
    become.  When [createClient] throws, the call leaves the state as it
    was: no client is stored and nothing is logged, and the next call tries
    again with the path configured by then. *)
Theorem getDatabase_idempotent (w : World) (path : option string) :
  let w1 := snd (getDatabase w) in
  let w2 := mkWorld (client w1) path (files w1) (log w1) in
  match fst (getDatabase w) with
  | inr c =>
      getDatabase w2 = (inr c, w2)
      /\ client w1 = Some c
      /\ log w1 = match client w with
                  | Some _ => log w
                  | None => (log w ++ [LogInfo "Database client initialized"])%list
                  end
  | inl e =>
      w1 = w /\ client w = None
      /\ files w ("file:" ++ dbPath w) = Unopenable e
      /\ getDatabase w2
         = match files w ("file:" ++ dbPath w2) with
           | Unopenable e2 => (inl e2, w2)
           | _ =>
               (inr (mkClient ("file:" ++ dbPath w2)),
                mkWorld (Some (mkClient ("file:" ++ dbPath w2))) path (files w)
                        (log w ++ [LogInfo "Database client initialized"]))
           end
  end.
Proof.
  cbv zeta. destruct (client w) as [c|] eqn:Ec.
  - rewrite (getDatabase_of_client w c Ec). cbn [fst snd].
    repeat split; [now apply getDatabase_of_client | exact Ec].
  - rewrite (getDatabase_without_client w Ec).
    destruct (files w ("file:" ++ dbPath w)) as [table|e|e] eqn:Ef; cbn [fst snd].
    + now repeat split.
    + now repeat split.
    + repeat split; try exact Ec.
      rewrite getDatabase_without_client by exact Ec.
      cbn [files DATABASE_PATH log]. rewrite Ec. reflexivity.
Qed.

Lemma getDatabase_idempotent_witness :
  (fst (getDatabase Sample.world) = inr (mkClient "file:./data/primary.db")
   /\ fst (getDatabase
             (mkWorld (client (snd (getDatabase Sample.world)))
                      (Some "/elsewhere.db")
                      (files (snd (getDatabase Sample.world)))
                      (log (snd (getDatabase Sample.world)))))
      = inr (mkClient "file:./data/primary.db")
   /\ log (snd (getDatabase Sample.world)) = [LogInfo "Database client initialized"])
  /\ (fst (getDatabase Sample.misconfigured_world)
      = inl (mkError "LibsqlError" "SQLITE_CANTOPEN")
      /\ snd (getDatabase Sample.misconfigured_world) = Sample.misconfigured_world
      /\ fst (getDatabase
                (mkWorld (client (snd (getDatabase Sample.misconfigured_world)))
                         None
                         (files (snd (getDatabase Sample.misconfigured_world)))
                         (log (snd (getDatabase Sample.misconfigured_world)))))
         = inr (mkClient "file:./data/primary.db")).
Proof.
  pose proof (getDatabase_idempotent Sample.world (Some "/elsewhere.db")) as H1.
  pose proof (getDatabase_idempotent Sample.misconfigured_world None) as H2.
  cbv zeta in H1, H2.
  change (fst (getDatabase Sample.world))
    with (@inr JsError Client (mkClient "file:./data/primary.db")) in H1.
  change (fst (getDatabase Sample.misconfigured_world))
    with (@inl JsError Client (mkError "LibsqlError" "SQLITE_CANTOPEN")) in H2.
  cbv iota in H1, H2.
  destruct H1 as (H1 & _ & Hlog). destruct H2 as (Hsame & _ & _ & H2).
  split; [split; [reflexivity | split]|split; [reflexivity | split]].
  - now rewrite H1.
  - exact Hlog.
  - exact Hsame.
  - now rewrite H2.
Defined.

(** ** Summary of the codec and of the single-address route *)

(** The strings accepted by [isIPv4] are exactly the dotted quads of four
    parts of one to three digits with values in [0,255]. *)
Theorem isIPv4_iff_dotted (ip : string) :
  isIPv4 ip = true
  <-> exists p1 p2 p3 p4,
        Spec.is_octet_text p1 = true /\ Spec.is_octet_text p2 = true
        /\ Spec.is_octet_text p3 = true /\ Spec.is_octet_text p4 = true
        /\ ip = Spec.dotted p1 p2 p3 p4.
Proof. exact (isIPv4_dotted_shape ip). Qed.

(** Every string accepted by [isIPv4] is encoded, to a key of exactly 39
    characters: the [Invalid IPv4 address] branch is never taken. *)
Theorem ipv4_always_encoded (ip : string) :
  isIPv4 ip = true ->
  exists k, ipToPaddedDecimal ip = inr k /\ String.length k = 39%nat.
Proof. exact (ipv4_encoded ip). Qed.

Lemma ipv4_always_encoded_witness :
  exists k, ipToPaddedDecimal "255.255.255.255" = inr k /\ String.length k = 39%nat.
Proof. exact (ipv4_always_encoded "255.255.255.255" eq_refl). Defined.

(** The number of groups is not checked: for two or more groups of one to
    four hexadecimal digits, without [::], the key is the padded decimal
    text of the groups read in base 65536, however many there are. *)
Theorem group_count_not_checked (gs : list string) :
  (2 <= List.length gs)%nat ->
  Forall (fun g => Spec.is_group_text g = true) gs ->
  ipToPaddedDecimal (Spec.colon_hex gs)
  = inr (padStart (toString (Spec.ipv6_value (map Spec.group_value gs))) 39 "0").
Proof. exact (colon_hex_key gs). Qed.

Lemma group_count_not_checked_witness :
  ipToPaddedDecimal "1:2:3"
  = inr (padStart (toString (Spec.ipv6_value (map Spec.group_value ["1"; "2"; "3"])))
                  39 "0").
Proof.
  apply (group_count_not_checked ["1"; "2"; "3"]).
  - cbn. lia.
  - repeat constructor.
Defined.

(** The reply of [/ip/:ip] to an address that is not blank and, trimmed,
    not longer than 45: 200 with the geolocation when the lookup matches,
    404 when it finds nothing, 400 when the lookup is rejected with a
    message that contains 'Invalid IP address', and 500 for every other
    rejection, the store's failures included. *)
Theorem ip_route_reply (ip : string) (w : World) :
  trim ip <> "" -> (String.length (trim ip) <= 45)%nat ->
  fst (ip_route (Some ip) w)
  = match fst (lookupIP (trim ip) w) with
    | Fulfilled (Some geolocation) => Success (trim ip) geolocation
    | Fulfilled None =>
        Failure 404 "IP address not found" "IP_NOT_FOUND" [("ip", trim ip)]
    | Rejected error =>
        if includes (message error) "Invalid IP address"
        then Failure 400 "Invalid IP address" "INVALID_IP_ADDRESS"
                     [("ip", trim ip); ("error", message error)]
        else Failure 500 "Internal Server Error" "INTERNAL_ERROR" []
    end.
Proof. exact (ip_route_cases ip w). Qed.

Lemma ip_route_reply_witness :
  fst (ip_route (Some " 8.8.8.8 ") Sample.world)
  = Success "8.8.8.8" (project Sample.mountain_view).
Proof.
  refine (eq_trans (ip_route_reply " 8.8.8.8 " Sample.world _ _) _).
  - discriminate.
  - cbn. lia.
  - reflexivity.
Defined.

(** A dotted quad whose first octet is below 128 gets the canonical key
    of the value a*2^24 + b*2^16 + c*2^8 + d. *)
Theorem low_octet_key_is_canonical (p1 p2 p3 p4 : string) :
  Spec.is_octet_text p1 = true -> Spec.is_octet_text p2 = true ->
  Spec.is_octet_text p3 = true -> Spec.is_octet_text p4 = true ->
  decimal_value 0 p1 < 128 ->
  ipToPaddedDecimal (Spec.dotted p1 p2 p3 p4)
  = inr (Spec.canonical_key
           (Spec.ipv4_value (decimal_value 0 p1) (decimal_value 0 p2)
                            (decimal_value 0 p3) (decimal_value 0 p4))).
Proof. exact (ipv4_key_low_octet p1 p2 p3 p4). Qed.

Lemma low_octet_key_is_canonical_witness :
  ipToPaddedDecimal "127.255.255.255"
  = inr (Spec.canonical_key (Spec.ipv4_value 127 255 255 255)).
Proof.
  exact (low_octet_key_is_canonical "127" "255" "255" "255"
           eq_refl eq_refl eq_refl eq_refl eq_refl).
Defined.

(** [isIPv6] accepts a string exactly when it contains a colon: the
    regular expression never decides the result. *)
Theorem isIPv6_accepts_every_colon (ip : string) : isIPv6 ip = includes ip ":".
Proof. exact (isIPv6_is_includes ip). Qed.
